(** * Gaussian mixture model fitted by expectation-maximisation

    A shallow embedding of [gmm/algorithm.py] (class [GMM]) in exact real
    arithmetic, and the properties of its three methods
    [multivariate_normal_pdf], [fit] and [cluster].

    Modelling conventions.
    - A NumPy float is a real number ([R]).  Rounding, overflow and
      underflow are not modelled.  An operation whose IEEE result would be
      an infinity or a NaN (division by zero, square root of a negative
      number, logarithm of a non-positive number) ends the modelled run
      with the outcome [NonFinite]: NumPy only emits a [RuntimeWarning]
      there and carries on with the non-finite value, and what happens
      afterwards is outside exact arithmetic.
    - A one-dimensional array is a [list R], a two-dimensional array a list
      of rows.  Shapes are not part of the types: an operation NumPy rejects
      for its shapes raises [ValueError], an index out of range raises
      [IndexError], and [numpy.linalg] raises [LinAlgError].
    - The estimator is a record; its methods run in a state-and-exception
      monad in which the state survives an exception, as the attributes of
      a Python object do.
    - [fit] loops without a bound, so it is run with fuel.
    - [np.float] and [np.int] are the aliases of [float] and [int] that
      NumPy provided up to version 1.23; the scratch arrays they allocate
      are written before they are read and appear as values. *)

From Stdlib Require Import Reals List Arith Lia Lra Psatz.
Import ListNotations.

Local Open Scope R_scope.

(** ** Outcomes *)

Inductive error : Type :=
| ValueError
| IndexError
| LinAlgError
| NonFinite.

Inductive result (A : Type) : Type :=
| Ok (a : A)
| Raise (e : error).

Arguments Ok {A} a.
Arguments Raise {A} e.

Definition rbind {A B : Type} (r : result A) (k : A -> result B) : result B :=
  match r with
  | Ok a => k a
  | Raise e => Raise e
  end.

Declare Scope result_scope.
Delimit Scope result_scope with result.
Notation "x <-- r ;; k" := (rbind r (fun x => k))
  (at level 61, r at next level, right associativity) : result_scope.
Local Open Scope result_scope.

(** [f] applied to the elements from left to right, stopping at the first
    exception. *)
Fixpoint mapM {A B : Type} (f : A -> result B) (l : list A) : result (list B) :=
  match l with
  | [] => Ok []
  | a :: t => b <-- f a ;; bs <-- mapM f t ;; Ok (b :: bs)
  end.

Definition index {A : Type} (l : list A) (i : nat) : result A :=
  match nth_error l i with
  | Some a => Ok a
  | None => Raise IndexError
  end.

(** ** Scalar operations that can leave the finite reals *)

Definition fdiv (a b : R) : result R :=
  if Req_dec_T b 0 then Raise NonFinite else Ok (a / b).

Definition fsqrt (a : R) : result R :=
  if Rlt_dec a 0 then Raise NonFinite else Ok (sqrt a).

Definition flog (a : R) : result R :=
  if Rlt_dec 0 a then Ok (ln a) else Raise NonFinite.

(** ** Arrays *)

Definition vector := list R.
Definition matrix := list (list R).

Definition rsum (l : list R) : R := fold_right Rplus 0 l.

Fixpoint zip_with {A B C : Type} (f : A -> B -> C) (u : list A) (v : list B)
  : list C :=
  match u, v with
  | a :: u', b :: v' => f a b :: zip_with f u' v'
  | _, _ => []
  end.

(** Element-wise binary operation on one-dimensional arrays, with NumPy's
    broadcasting of an array of length one. *)
Definition broadcast2 (f : R -> R -> R) (u v : vector) : result vector :=
  if Nat.eqb (length u) (length v) then Ok (zip_with f u v)
  else if Nat.eqb (length u) 1 then Ok (map (f (hd 0 u)) v)
  else if Nat.eqb (length v) 1 then Ok (map (fun a => f a (hd 0 v)) u)
  else Raise ValueError.

Definition vsub : vector -> vector -> result vector := broadcast2 Rminus.

(** [np.dot] of two one-dimensional arrays. *)
Definition dot (u v : vector) : result R :=
  if Nat.eqb (length u) (length v) then Ok (rsum (zip_with Rmult u v))
  else Raise ValueError.

(** Column [j] of a list of rows (0 where a row is too short). *)
Definition column (M : matrix) (j : nat) : vector :=
  map (fun row => nth j row 0) M.

Definition ncols (M : matrix) : nat := length (hd [] M).

Definition is_rect (M : matrix) (c : nat) : bool :=
  forallb (fun row => Nat.eqb (length row) c) M.

(** [np.dot] of a one-dimensional array with a two-dimensional one: the
    sum runs over the rows of the matrix. *)
Definition dot_vm (u : vector) (M : matrix) : result vector :=
  if Nat.eqb (length u) (length M)
  then Ok (map (fun j => rsum (zip_with Rmult u (column M j))) (seq 0 (ncols M)))
  else Raise ValueError.

(** [np.dot] of a one-dimensional array with a scalar. *)
Definition scale (u : vector) (c : R) : vector := map (fun a => a * c) u.

(** ** Determinant and inverse ([numpy.linalg]) *)

Fixpoint remove_nth {A : Type} (k : nat) (l : list A) : list A :=
  match l, k with
  | [], _ => []
  | _ :: t, O => t
  | a :: t, S k' => a :: remove_nth k' t
  end.

Definition minor (M : matrix) (i j : nat) : matrix :=
  map (remove_nth j) (remove_nth i M).

Definition sign (k : nat) : R := if Nat.even k then 1 else -1.

(** Expansion along the first row; [n] is the order of the matrix. *)
Fixpoint det_rec (n : nat) (M : matrix) : R :=
  match n with
  | O => 1
  | S n' =>
      match M with
      | [] => 1
      | row :: rest =>
          rsum (map (fun k => sign k * nth k row 0
                              * det_rec n' (map (remove_nth k) rest))
                    (seq 0 (length row)))
      end
  end.

Definition determinant (M : matrix) : R := det_rec (length M) M.

Definition is_square (M : matrix) : bool := is_rect M (length M).

Definition linalg_det (M : matrix) : result R :=
  if is_square M then Ok (determinant M) else Raise LinAlgError.

(** The transposed matrix of cofactors. *)
Definition adjugate (M : matrix) : matrix :=
  map (fun a =>
         map (fun b => sign (a + b) * determinant (minor M b a))
             (seq 0 (length M)))
      (seq 0 (length M)).

Definition inverse (M : matrix) : matrix :=
  map (map (fun c => c / determinant M)) (adjugate M).

Definition linalg_inv (M : matrix) : result matrix :=
  if is_square M then
    if Req_dec_T (determinant M) 0 then Raise LinAlgError
    else Ok (inverse M)
  else Raise LinAlgError.

(** ** The estimator and its monad *)

Record GMM : Type := mkGMM {
  means : matrix;
  covariances : list matrix;
  mixing_probs : vector;
  no_components : nat;
  epsilon : R
}.

(** [GMM.__init__]: the arguments are stored as they are. *)
Definition init (means0 : matrix) (covariances0 : list matrix)
  (mixing_probs0 : vector) (epsilon0 : R) : GMM :=
  {| means := means0;
     covariances := covariances0;
     mixing_probs := mixing_probs0;
     no_components := length covariances0;
     epsilon := epsilon0 |}.

(** The default of the [epsilon] argument. *)
Definition default_epsilon : R := / 1000000.

(** ** [multivariate_normal_pdf] *)

Definition multivariate_normal_pdf (self : GMM) (x mean : vector)
  (covariance : matrix) : result R :=
  centered <-- vsub x mean ;;
  cov_inverse <-- linalg_inv covariance ;;
  cov_det <-- linalg_det covariance ;;
  t <-- dot_vm centered cov_inverse ;;
  exponent <-- dot t centered ;;
  root <-- fsqrt (cov_det * (2 * PI) ^ no_components self) ;;
  fdiv (exp (- (1 / 2) * exponent)) root.

(** ** State and exceptions *)

Definition M (A : Type) : Type := GMM -> result A * GMM.

Definition ret {A : Type} (a : A) : M A := fun s => (Ok a, s).

Definition bind {A B : Type} (m : M A) (k : A -> M B) : M B :=
  fun s =>
    match m s with
    | (Ok a, s') => k a s'
    | (Raise e, s') => (Raise e, s')
    end.

Definition lift {A : Type} (r : result A) : M A := fun s => (r, s).

Definition get {A : Type} (field : GMM -> A) : M A := fun s => (Ok (field s), s).

Definition modify (f : GMM -> GMM) : M unit := fun s => (Ok tt, f s).

Declare Scope gmm_scope.
Delimit Scope gmm_scope with gmm.
Notation "x <- m ;; k" := (bind m (fun x => k))
  (at level 61, m at next level, right associativity) : gmm_scope.
Notation "m ;;; k" := (bind m (fun _ => k))
  (at level 61, right associativity) : gmm_scope.
Local Open Scope gmm_scope.

(** A [for] loop whose body yields a value per element. *)
Fixpoint mapS {A B : Type} (f : A -> M B) (l : list A) : M (list B) :=
  match l with
  | [] => ret []
  | a :: t => b <- f a ;; bs <- mapS f t ;; ret (b :: bs)
  end.

(** A [for] loop run for its effect on the state. *)
Fixpoint for_each {A : Type} (l : list A) (body : A -> M unit) : M unit :=
  match l with
  | [] => ret tt
  | a :: t => body a ;;; for_each t body
  end.

(** *** Reading and writing the parameter arrays *)

Fixpoint update {A : Type} (l : list A) (i : nat) (a : A) : list A :=
  match l, i with
  | [], _ => []
  | _ :: t, O => a :: t
  | b :: t, S i' => b :: update t i' a
  end.

(** Assignment into a slot of fixed shape broadcasts the value to it. *)
Definition broadcast_to (v : vector) (len : nat) : result vector :=
  if Nat.eqb (length v) len then Ok v
  else if Nat.eqb (length v) 1 then Ok (repeat (hd 0 v) len)
  else Raise ValueError.

Definition broadcast_to_matrix (m target : matrix) : result matrix :=
  if Nat.eqb (length m) (length target)
  then mapM (fun row => broadcast_to row (ncols target)) m
  else if Nat.eqb (length m) 1
  then row <-- broadcast_to (hd [] m) (ncols target) ;;
       Ok (repeat row (length target))
  else Raise ValueError.

Definition read_mean (j : nat) : M vector :=
  ms <- get means ;; lift (index ms j).

Definition read_covariance (j : nat) : M matrix :=
  cs <- get covariances ;; lift (index cs j).

Definition read_mixing_prob (j : nat) : M R :=
  ws <- get mixing_probs ;; lift (index ws j).

Definition with_means (ms : matrix) (s : GMM) : GMM :=
  mkGMM ms (covariances s) (mixing_probs s) (no_components s) (epsilon s).

Definition with_covariances (cs : list matrix) (s : GMM) : GMM :=
  mkGMM (means s) cs (mixing_probs s) (no_components s) (epsilon s).

Definition with_mixing_probs (ws : vector) (s : GMM) : GMM :=
  mkGMM (means s) (covariances s) ws (no_components s) (epsilon s).

(** [self.means[i] = v] *)
Definition write_mean (i : nat) (v : vector) : M unit :=
  old <- read_mean i ;;
  v' <- lift (broadcast_to v (length old)) ;;
  modify (fun s => with_means (update (means s) i v') s).

(** [self.covariances[i] = m] *)
Definition write_covariance (i : nat) (m : matrix) : M unit :=
  old <- read_covariance i ;;
  m' <- lift (broadcast_to_matrix m old) ;;
  modify (fun s => with_covariances (update (covariances s) i m') s).

(** [self.mixing_probs[i] = w] *)
Definition write_mixing_prob (i : nat) (w : R) : M unit :=
  _ <- read_mixing_prob i ;;
  modify (fun s => with_mixing_probs (update (mixing_probs s) i w) s).

(** ** [fit] *)

Definition pdf (x mean : vector) (covariance : matrix) : M R :=
  fun s => (multivariate_normal_pdf s x mean covariance, s).

(** Lines 38-42: the densities of every feature under every component. *)
Definition density_row (x : vector) : M vector :=
  K <- get no_components ;;
  mapS (fun j =>
          mean <- read_mean j ;;
          covariance <- read_covariance j ;;
          pdf x mean covariance)
       (seq 0 K).

Definition density_pass (features : matrix) : M matrix :=
  mapS density_row features.

(** Lines 45-46. *)
Definition estimate_log_likelihood (n : nat) (norm_densities : matrix) : M R :=
  w <- get mixing_probs ;;
  mix <- lift (mapM (fun row => dot w row) norm_densities) ;;
  log_vector <- lift (mapM flog mix) ;;
  lift (dot log_vector (repeat 1 n)).

(** Lines 53-57. *)
Definition e_step_row (norm_densities_i : vector) : M vector :=
  w <- get mixing_probs ;;
  denominator <- lift (dot w norm_densities_i) ;;
  K <- get no_components ;;
  mapS (fun j =>
          wj <- read_mixing_prob j ;;
          dij <- lift (index norm_densities_i j) ;;
          lift (fdiv (wj * dij) denominator))
       (seq 0 K).

Definition e_step (norm_densities : matrix) : M matrix :=
  mapS e_step_row norm_densities.

Definition transpose (m : matrix) : matrix :=
  map (column m) (seq 0 (ncols m)).

(** [np.dot] of two two-dimensional arrays, row by row. *)
Definition dot_mm (a b : matrix) : result matrix :=
  mapM (fun row => dot_vm row b) a.

Definition div_all (v : vector) (d : R) : result vector :=
  mapM (fun a => fdiv a d) v.

(** Lines 61-74: the update of component [i]. *)
Definition m_step_component (n : nat) (features responsibilities : matrix)
  (i : nat) : M unit :=
  let responsibility := column responsibilities i in
  denominator <- lift (dot responsibility (repeat 1 n)) ;;
  weighted_sum <- lift (dot_vm responsibility features) ;;
  new_mean <- lift (div_all weighted_sum denominator) ;;
  write_mean i new_mean ;;;
  mean_i <- read_mean i ;;
  difference <- lift (mapM (fun x => vsub x mean_i) features) ;;
  let weighted :=
    zip_with (fun r d => map (Rmult r) d) responsibility difference in
  scatter <- lift (dot_mm (transpose weighted) difference) ;;
  new_covariance <- lift (mapM (fun row => div_all row denominator) scatter) ;;
  write_covariance i new_covariance ;;;
  new_weight <- lift (fdiv denominator (INR n)) ;;
  write_mixing_prob i new_weight.

Definition m_step (n : nat) (features responsibilities : matrix) : M unit :=
  K <- get no_components ;;
  for_each (seq 0 K) (m_step_component n features responsibilities).

(** One pass through the body of [while True]: [None] when the loop is
    left by [break], otherwise the log-likelihood that becomes
    [old_log_likelihood]. *)
Definition iteration (features : matrix) (old_log_likelihood : R)
  : M (option R) :=
  let n := length features in
  norm_densities <- density_pass features ;;
  log_likelihood <- estimate_log_likelihood n norm_densities ;;
  eps <- get epsilon ;;
  if Rlt_dec (Rabs (log_likelihood - old_log_likelihood)) eps
  then ret None
  else
    responsibilities <- e_step norm_densities ;;
    m_step n features responsibilities ;;;
    ret (Some log_likelihood).

(** The loop with fuel: [None] when the fuel runs out before the loop is
    left. *)
Fixpoint fit_loop (fuel : nat) (features : matrix) (old_log_likelihood : R)
  (s : GMM) : option (result unit * GMM) :=
  match fuel with
  | O => None
  | S fuel' =>
      match iteration features old_log_likelihood s with
      | (Ok None, s') => Some (Ok tt, s')
      | (Ok (Some log_likelihood), s') =>
          fit_loop fuel' features log_likelihood s'
      | (Raise e, s') => Some (Raise e, s')
      end
  end.

Definition fit (fuel : nat) (features : matrix) (s : GMM)
  : option (result unit * GMM) :=
  fit_loop fuel features 0 s.

(** ** [cluster] *)

Fixpoint argmin_from (best_index : nat) (best : R) (i : nat) (l : list R)
  : nat :=
  match l with
  | [] => best_index
  | d :: t =>
      if Rlt_dec d best then argmin_from i d (S i) t
      else argmin_from best_index best (S i) t
  end.

(** [np.argmin]: the first index of the minimum. *)
Definition argmin (l : list R) : result nat :=
  match l with
  | [] => Raise ValueError
  | d :: t => Ok (argmin_from 0 d 1 t)
  end.

(** Line 96: the difference [x - self.means[j]] is evaluated twice. *)
Definition distance (cov_inverses : list R) (x : vector) (j : nat) : M R :=
  mean1 <- read_mean j ;;
  left_diff <- lift (vsub x mean1) ;;
  c <- lift (index cov_inverses j) ;;
  mean2 <- read_mean j ;;
  right_diff <- lift (vsub x mean2) ;;
  lift (dot (scale left_diff c) right_diff).

(** Lines 95-99, for one feature vector. *)
Definition assign (cov_inverses : list R) (x : vector) : M nat :=
  K <- get no_components ;;
  distances <- mapS (distance cov_inverses x) (seq 0 K) ;;
  lift (argmin distances).

(** Lines 88-101; [cov_inverses] holds the determinants. *)
Definition cluster (features : matrix) : M (list nat) :=
  covs <- get covariances ;;
  cov_inverses <- lift (mapM linalg_det covs) ;;
  mapS (assign cov_inverses) features.

(** * Vocabulary of the properties *)

(** ** Shapes *)

(** A parameter state with [K] components of dimension [D], as the data
    model describes it.  The methods only ever read and write the first
    [K] rows of [means], so further rows are allowed. *)
Record well_shaped (K D : nat) (s : GMM) : Prop := {
  ws_components : no_components s = K;
  ws_means : (K <= length (means s))%nat;
  ws_mean_dim : Forall (fun m => length m = D) (means s);
  ws_covariances : length (covariances s) = K;
  ws_covariance_dim :
    Forall (fun c => length c = D /\ is_rect c D = true) (covariances s);
  ws_mixing_probs : length (mixing_probs s) = K
}.

(** The shapes the density pass depends on: those of [well_shaped] without
    the length of the mixing weights, which it does not read. *)
Record component_shapes (K D : nat) (s : GMM) : Prop := {
  cs_components : no_components s = K;
  cs_means : (K <= length (means s))%nat;
  cs_mean_dim : Forall (fun m => length m = D) (means s);
  cs_covariances : length (covariances s) = K;
  cs_covariance_dim :
    Forall (fun c => length c = D /\ is_rect c D = true) (covariances s)
}.

(** [N] feature vectors of dimension [D]. *)
Definition feature_matrix (D : nat) (features : matrix) : Prop :=
  Forall (fun x => length x = D) features.

Definition positive_determinants (s : GMM) : Prop :=
  forall c, In c (covariances s) -> 0 < determinant c.

Definition nonnegative (v : vector) : Prop := Forall (fun a => 0 <= a) v.

(** The mixing weights form a probability vector. *)
Definition normalised (v : vector) : Prop :=
  Forall (fun a => 0 <= a <= 1) v /\ rsum v = 1.

(** A square matrix equal to its transpose. *)
Definition symmetric (m : matrix) : Prop :=
  is_square m = true
  /\ forall a b, (a < length m)%nat -> (b < length m)%nat ->
       nth b (nth a m []) 0 = nth a (nth b m []) 0.

(** Computations that never write to the estimator. *)
Definition read_only {A : Type} (m : M A) : Prop :=
  forall s, snd (m s) = s.

(** The identity matrix of order [n]. *)
Definition identity (n : nat) : matrix :=
  map (fun a => map (fun b => if Nat.eqb a b then 1 else 0) (seq 0 n)) (seq 0 n).

(** ** Densities *)

(** The quadratic form [cᵀ · B · c] written as a double sum. *)
Definition quadratic_form (c : vector) (B : matrix) : R :=
  rsum (map (fun a =>
               rsum (map (fun b => nth a c 0 * nth b (nth a B []) 0 * nth b c 0)
                         (seq 0 (length c))))
            (seq 0 (length c))).

(** The density of [x] under component [j]. *)
Definition density (s : GMM) (x : vector) (j : nat) : R :=
  exp (- (1 / 2)
       * quadratic_form (zip_with Rminus x (nth j (means s) []))
           (inverse (nth j (covariances s) [])))
  / sqrt (determinant (nth j (covariances s) []) * (2 * PI) ^ no_components s).

Definition densities (s : GMM) (features : matrix) : matrix :=
  map (fun x => map (density s x) (seq 0 (no_components s))) features.

(** A matrix of positive densities, one row of length [K] per feature. *)
Definition density_matrix (K : nat) (nd : matrix) : Prop :=
  Forall (fun row => length row = K /\ Forall (fun d => 0 < d) row) nd.

(** The denominator of the E-step for one feature vector. *)
Definition mixture (w row : vector) : R := rsum (zip_with Rmult w row).

(** The log-likelihood Σ_i ln(Σ_j w_j · density_j(x_i)). *)
Definition log_likelihood_value (s : GMM) (features : matrix) : R :=
  rsum (map (fun row => ln (mixture (mixing_probs s) row)) (densities s features)).

(** ** Hard assignment *)

(** [p] is the lowest index at which [l] takes its minimum. *)
Definition is_first_min (l : list R) (p : nat) : Prop :=
  (p < length l)%nat
  /\ (forall j, (j < length l)%nat -> nth p l 0 <= nth j l 0)
  /\ (forall j, (j < p)%nat -> nth p l 0 < nth j l 0).

(** The distance of the source: the determinant of the covariance stands
    where the inverse covariance would. *)
Definition det_distance (s : GMM) (x : vector) (j : nat) : R :=
  let m := nth j (means s) [] in
  let c := determinant (nth j (covariances s) []) in
  rsum (map (fun k => (nth k x 0 - nth k m 0) * c * (nth k x 0 - nth k m 0))
            (seq 0 (length x))).

Definition squared_euclidean (x m : vector) : R :=
  rsum (map (fun k => (nth k x 0 - nth k m 0) * (nth k x 0 - nth k m 0))
            (seq 0 (length x))).

(** ** The E-step and the M-step *)

(** Row [i] of the responsibilities. *)
Definition responsibility_row (w : vector) (K : nat) (row : vector) : vector :=
  map (fun j => nth j w 0 * nth j row 0 / mixture w row) (seq 0 K).

(** The updates of one component as the textbook writes them, with [r] the
    responsibilities (one row per feature vector). *)
Definition effective_count (r : matrix) (j : nat) : R :=
  rsum (column r j).

Definition weighted_mean (features r : matrix) (D j : nat) : vector :=
  map (fun a =>
         rsum (map (fun i => nth j (nth i r []) 0 * nth a (nth i features []) 0)
                   (seq 0 (length features)))
         / effective_count r j)
      (seq 0 D).

Definition weighted_covariance (features r : matrix) (D j : nat) (mu : vector)
  : matrix :=
  map (fun a =>
         map (fun b =>
                rsum (map (fun i =>
                             nth j (nth i r []) 0
                             * (nth a (nth i features []) 0 - nth a mu 0)
                             * (nth b (nth i features []) 0 - nth b mu 0))
                          (seq 0 (length features)))
                / effective_count r j)
             (seq 0 D))
      (seq 0 D).

(** The state after lines 61-74 have run for component [j]. *)
Definition updated_component (features r : matrix) (D j : nat) (s : GMM) : GMM :=
  let mu := weighted_mean features r D j in
  with_mixing_probs
    (update (mixing_probs s) j (effective_count r j / INR (length features)))
    (with_covariances
       (update (covariances s) j (weighted_covariance features r D j mu))
       (with_means (update (means s) j mu) s)).

(** The state after the loop of the M-step has run for the components of
    [js], in that order. *)
Definition updated_components (features r : matrix) (D : nat) (js : list nat)
  (s : GMM) : GMM :=
  fold_left (fun st j => updated_component features r D j st) js s.

(** The parameters of component [j] are those of the textbook update. *)
Definition component_updated (features r : matrix) (D j : nat) (s' : GMM)
  : Prop :=
  nth j (means s') [] = weighted_mean features r D j
  /\ nth j (covariances s') []
     = weighted_covariance features r D j (nth j (means s') [])
  /\ nth j (mixing_probs s') 0
     = effective_count r j / INR (length features).

(** The parameters of component [j] are the same in [s] and [s']. *)
Definition component_untouched (j : nat) (s s' : GMM) : Prop :=
  nth j (means s') [] = nth j (means s) []
  /\ nth j (covariances s') [] = nth j (covariances s) []
  /\ nth j (mixing_probs s') 0 = nth j (mixing_probs s) 0.

(** ** The loop *)

(** The log-likelihood of the current parameters (lines 38-46), and the
    E-step followed by the M-step (lines 53-74), each as a computation of
    its own. *)
Definition log_likelihood (features : matrix) : M R :=
  norm_densities <- density_pass features ;;
  estimate_log_likelihood (length features) norm_densities.

Definition em_update (features : matrix) : M unit :=
  norm_densities <- density_pass features ;;
  responsibilities <- e_step norm_densities ;;
  m_step (length features) features responsibilities.

(** The runs of the loop that leave it by [break]: [fit_run features old s s']
    when the loop entered with [old_log_likelihood = old] and parameters
    [s] is left with parameters [s']. *)
Inductive fit_run (features : matrix) : R -> GMM -> GMM -> Prop :=
| run_break (old ll : R) (s : GMM) :
    log_likelihood features s = (Ok ll, s) ->
    Rabs (ll - old) < epsilon s ->
    fit_run features old s s
| run_iterate (old ll : R) (s s1 s' : GMM) :
    log_likelihood features s = (Ok ll, s) ->
    ~ Rabs (ll - old) < epsilon s ->
    em_update features s = (Ok tt, s1) ->
    fit_run features ll s1 s' ->
    fit_run features old s s'.

(** The states in which an M-step of the loop can end: [m_step_reaches
    features s t] when [t] is the state after one or more rounds of
    log-likelihood, E-step and M-step started from [s]. *)
Inductive m_step_reaches (features : matrix) : GMM -> GMM -> Prop :=
| reaches_first (s s1 : GMM) (ll : R) :
    log_likelihood features s = (Ok ll, s) ->
    em_update features s = (Ok tt, s1) ->
    m_step_reaches features s s1
| reaches_next (s s1 t : GMM) (ll : R) :
    log_likelihood features s = (Ok ll, s) ->
    em_update features s = (Ok tt, s1) ->
    m_step_reaches features s1 t ->
    m_step_reaches features s t.

(** ** Sample inputs *)

(** Two components of unit variance with means 0 and 4. *)
Definition standard_model : GMM :=
  init [[0]; [4]] [[[1]]; [[1]]] [1 / 2; 1 / 2] default_epsilon.

Definition sample_features : matrix := [[1]; [3]].

Definition sample_responsibilities : matrix := [[1; 0]; [0; 1]].

(** The standard normal distribution as a mixture of one component, with
    the convergence threshold 1, and two features at distance 1 from its
    mean: a fixed point of the E-step and M-step. *)
Definition fixed_model : GMM := init [[0]] [[[1]]] [1] 1.

Definition pair_features : matrix := [[-1]; [1]].

(** One component of variance 1/(8π) and weight 1/2. *)
Definition early_model : GMM :=
  init [[0]] [[[/ (8 * PI)]]] [1 / 2] default_epsilon.

(** One component, but two rows of means. *)
Definition surplus_model : GMM :=
  init [[0]; [5]] [[[1]]] [1] default_epsilon.

(** One component, but two mixing weights. *)
Definition two_weights_model : GMM :=
  init [[0]] [[[1]]] [1 / 2; 1 / 2] default_epsilon.

(** * Vocabulary of the further properties *)

(** ** Frames *)

(** The shape of a two-dimensional array. *)
Definition shape (m : matrix) : nat * nat := (length m, ncols m).

(** [s'] holds the same constants as [s] and arrays of the same shapes. *)
Record same_shape (s s' : GMM) : Prop := {
  ss_components : no_components s' = no_components s;
  ss_epsilon : epsilon s' = epsilon s;
  ss_means : map (@length R) (means s') = map (@length R) (means s);
  ss_covariances : map shape (covariances s') = map shape (covariances s);
  ss_mixing_probs : length (mixing_probs s') = length (mixing_probs s)
}.

(** Computations that leave the constants and the shapes alone. *)
Definition keeps_shape {A : Type} (m : M A) : Prop :=
  forall s, same_shape s (snd (m s)).

(** ** Errors *)

(** The shapes NumPy accepts for an element-wise operation on two
    one-dimensional arrays. *)
Definition broadcastable (u v : vector) : Prop :=
  length u = length v \/ length u = 1%nat \/ length v = 1%nat.

(** ** What a computation reads *)

(** [s1] and [s2] have the same means, covariances and component count. *)
Definition same_components (s1 s2 : GMM) : Prop :=
  means s1 = means s2
  /\ covariances s1 = covariances s2
  /\ no_components s1 = no_components s2.

(** Computations whose outcome is determined by the means, the covariances
    and the component count. *)
Definition component_determined {A : Type} (m : M A) : Prop :=
  forall s1 s2, same_components s1 s2 -> fst (m s1) = fst (m s2).

(** ** Further sample inputs *)

(** Two components with means 0 and 4 whose 1×1 covariances are -1. *)
Definition negative_model : GMM :=
  init [[0]; [4]] [[[-1]]; [[-1]]] [1 / 2; 1 / 2] default_epsilon.

(** Two components with means 0 and 4; the second covariance is singular. *)
Definition singular_model : GMM :=
  init [[0]; [4]] [[[1]]; [[0]]] [1 / 2; 1 / 2] default_epsilon.


(** ** Moments *)

(** Coordinate [a] of the mean of the mixture, Σ_j w_j · mean_j. *)
Definition mixture_mean (s : GMM) (a : nat) : R :=
  rsum (map (fun j => nth j (mixing_probs s) 0 * nth a (nth j (means s) []) 0)
            (seq 0 (no_components s))).

(** Coordinate [a] of the mean of the feature vectors. *)
Definition sample_mean (features : matrix) (a : nat) : R :=
  rsum (map (fun x => nth a x 0) features) / INR (length features).

(** Responsibilities as an E-step yields them: one row per feature
    vector, every row of length [K] and of sum 1. *)
Record stochastic (K n : nat) (r : matrix) : Prop := {
  st_rows : length r = n;
  st_columns : Forall (fun row => length row = K) r;
  st_sums : Forall (fun row => rsum row = 1) r
}.

(** ** Kinds of failure *)

(** The failures of the arithmetic, as opposed to those of the shapes. *)
Definition numeric (e : error) : Prop := e = LinAlgError \/ e = NonFinite.

(** Computations that, run in [s], fail by the arithmetic only. *)
Definition shape_safe {A : Type} (m : M A) (s : GMM) : Prop :=
  forall e s', m s = (Raise e, s') -> numeric e.

(** * Properties *)

(** ** Sums and lists *)

Lemma rsum_app (l1 l2 : list R) : rsum (l1 ++ l2) = rsum l1 + rsum l2.
Proof.
  induction l1 as [|a l1 IH]; simpl; [lra | rewrite IH; lra].
Qed.

Lemma rsum_map_ext {A : Type} (f g : A -> R) (l : list A) :
  (forall a, In a l -> f a = g a) -> rsum (map f l) = rsum (map g l).
Proof.
  intros H. f_equal. apply map_ext_in. exact H.
Qed.

Lemma rsum_map_plus {A : Type} (f g : A -> R) (l : list A) :
  rsum (map (fun a => f a + g a) l) = rsum (map f l) + rsum (map g l).
Proof.
  induction l as [|a l IH]; simpl; [lra | rewrite IH; lra].
Qed.

Lemma rsum_map_mult_l {A : Type} (c : R) (f : A -> R) (l : list A) :
  rsum (map (fun a => c * f a) l) = c * rsum (map f l).
Proof.
  induction l as [|a l IH]; simpl; [lra | rewrite IH; lra].
Qed.

Lemma rsum_map_mult_r {A : Type} (c : R) (f : A -> R) (l : list A) :
  rsum (map (fun a => f a * c) l) = rsum (map f l) * c.
Proof.
  induction l as [|a l IH]; simpl; [lra | rewrite IH; lra].
Qed.

Lemma rsum_map_zero {A : Type} (l : list A) :
  rsum (map (fun _ => 0) l) = 0.
Proof.
  induction l as [|a l IH]; simpl; [reflexivity | rewrite IH; lra].
Qed.

Lemma rsum_map_const {A : Type} (c : R) (l : list A) :
  rsum (map (fun _ => c) l) = INR (length l) * c.
Proof.
  induction l as [|a l IH].
  - simpl. lra.
  - cbn [map rsum fold_right length]. fold (rsum (map (fun _ : A => c) l)).
    rewrite IH, S_INR. lra.
Qed.

(** Exchange of two finite sums. *)
Lemma rsum_swap {A B : Type} (f : A -> B -> R) (la : list A) (lb : list B) :
  rsum (map (fun a => rsum (map (f a) lb)) la)
  = rsum (map (fun b => rsum (map (fun a => f a b) la)) lb).
Proof.
  induction la as [|a la IH]; simpl.
  - symmetry. apply rsum_map_zero.
  - rewrite IH. symmetry. apply rsum_map_plus.
Qed.

Lemma rsum_nonneg (l : list R) : Forall (fun a => 0 <= a) l -> 0 <= rsum l.
Proof.
  induction 1; simpl; lra.
Qed.

Lemma zip_with_length {A B C : Type} (f : A -> B -> C) (u : list A) (v : list B) :
  length (zip_with f u v) = Nat.min (length u) (length v).
Proof.
  revert v; induction u as [|a u IH]; intros [|b v]; simpl; auto.
Qed.

Lemma zip_with_nth {A B C : Type} (f : A -> B -> C) (da : A) (db : B) (dc : C)
  (u : list A) (v : list B) (i : nat) :
  (i < length u)%nat -> (i < length v)%nat ->
  nth i (zip_with f u v) dc = f (nth i u da) (nth i v db).
Proof.
  revert v i; induction u as [|a u IH]; intros [|b v] [|i]; simpl;
    intros; try lia; auto.
  apply IH; lia.
Qed.

(** A list rebuilt from its elements. *)
Lemma list_as_map_seq {A : Type} (d : A) (l : list A) :
  l = map (fun i => nth i l d) (seq 0 (length l)).
Proof.
  induction l as [|a l IH]; simpl; [reflexivity|].
  f_equal. rewrite <- seq_shift, map_map. exact IH.
Qed.

Lemma zip_with_as_map_seq {A B C : Type} (f : A -> B -> C) (da : A) (db : B)
  (u : list A) (v : list B) :
  length u = length v ->
  zip_with f u v = map (fun i => f (nth i u da) (nth i v db)) (seq 0 (length u)).
Proof.
  revert v; induction u as [|a u IH]; intros [|b v] H; simpl in *;
    try discriminate; [reflexivity|].
  f_equal. rewrite <- seq_shift, map_map. apply IH. lia.
Qed.

Lemma nth_map {A B : Type} (f : A -> B) (da : A) (db : B) (l : list A) (i : nat) :
  (i < length l)%nat -> nth i (map f l) db = f (nth i l da).
Proof.
  intros H. rewrite (nth_indep _ db (f da)) by (rewrite length_map; exact H).
  apply map_nth.
Qed.

Lemma nth_map_seq {A : Type} (f : nat -> A) (d : A) (n i : nat) :
  (i < n)%nat -> nth i (map f (seq 0 n)) d = f i.
Proof.
  intros H. rewrite (nth_indep _ d (f 0%nat)) by (rewrite length_map, length_seq; lia).
  rewrite (map_nth f (seq 0 n) 0%nat i), seq_nth by lia. reflexivity.
Qed.

Lemma map_seq_ext {A : Type} (f g : nat -> A) (n : nat) :
  (forall i, i < n -> f i = g i)%nat -> map f (seq 0 n) = map g (seq 0 n).
Proof.
  intros H. apply map_ext_in. intros i Hi. apply in_seq in Hi. apply H. lia.
Qed.

Lemma rsum_seq_ext (f g : nat -> R) (n : nat) :
  (forall i, i < n -> f i = g i)%nat ->
  rsum (map f (seq 0 n)) = rsum (map g (seq 0 n)).
Proof.
  intros H. f_equal. apply map_seq_ext. exact H.
Qed.

Lemma is_rect_spec (m : matrix) (c : nat) :
  is_rect m c = true <-> Forall (fun row => length row = c) m.
Proof.
  unfold is_rect. rewrite forallb_forall, Forall_forall.
  split; intros H row Hin; specialize (H row Hin).
  - apply Nat.eqb_eq. exact H.
  - apply Nat.eqb_eq. exact H.
Qed.

Lemma ncols_rect (m : matrix) (c : nat) :
  Forall (fun row => length row = c) m -> m <> [] -> ncols m = c.
Proof.
  intros H Hne. destruct m as [|row m]; [congruence|].
  inversion H; subst. reflexivity.
Qed.

(** ** The exception monad on values *)

Lemma mapM_ok_length {A B : Type} (f : A -> result B) (l : list A) (l' : list B) :
  mapM f l = Ok l' -> length l' = length l.
Proof.
  revert l'; induction l as [|a l IH]; simpl; intros l' H.
  - inversion H. reflexivity.
  - destruct (f a) as [b|e]; simpl in H; [|discriminate].
    destruct (mapM f l) as [bs|e]; simpl in H; [|discriminate].
    inversion H; subst. simpl. f_equal. apply IH. reflexivity.
Qed.

(** When [f] succeeds with [g] on every element the loop is a [map]. *)
Lemma mapM_ok_map {A B : Type} (f : A -> result B) (g : A -> B) (l : list A) :
  (forall a, In a l -> f a = Ok (g a)) -> mapM f l = Ok (map g l).
Proof.
  induction l as [|a l IH]; simpl; intros H; [reflexivity|].
  rewrite (H a) by auto. simpl. rewrite IH by auto. reflexivity.
Qed.

Lemma mapM_ok_inv {A B : Type} (f : A -> result B) (l : list A) (l' : list B) :
  mapM f l = Ok l' ->
  forall i a, nth_error l i = Some a ->
    exists b, nth_error l' i = Some b /\ f a = Ok b.
Proof.
  revert l'; induction l as [|a0 l IH]; simpl; intros l' H i a Hi.
  - destruct i; discriminate.
  - destruct (f a0) as [b0|e] eqn:Hf; simpl in H; [|discriminate].
    destruct (mapM f l) as [bs|e]; simpl in H; [|discriminate].
    inversion H; subst. destruct i as [|i]; simpl in *.
    + inversion Hi; subst. eauto.
    + eapply IH; eauto.
Qed.

Lemma index_ok {A : Type} (l : list A) (i : nat) (d : A) :
  (i < length l)%nat -> index l i = Ok (nth i l d).
Proof.
  intros H. unfold index. rewrite (nth_error_nth' l d H). reflexivity.
Qed.

Lemma fdiv_ok (a b : R) : b <> 0 -> fdiv a b = Ok (a / b).
Proof.
  intros H. unfold fdiv. destruct (Req_dec_T b 0); [contradiction | reflexivity].
Qed.

Lemma fdiv_zero (a : R) : fdiv a 0 = Raise NonFinite.
Proof.
  unfold fdiv. destruct (Req_dec_T 0 0); [reflexivity | congruence].
Qed.

Lemma fsqrt_ok (a : R) : 0 <= a -> fsqrt a = Ok (sqrt a).
Proof.
  intros H. unfold fsqrt. destruct (Rlt_dec a 0); [lra | reflexivity].
Qed.

Lemma fsqrt_negative (a : R) : a < 0 -> fsqrt a = Raise NonFinite.
Proof.
  intros H. unfold fsqrt. destruct (Rlt_dec a 0); [reflexivity | lra].
Qed.

Lemma flog_ok (a : R) : 0 < a -> flog a = Ok (ln a).
Proof.
  intros H. unfold flog. destruct (Rlt_dec 0 a); [reflexivity | lra].
Qed.

Lemma flog_ok_inv (a b : R) : flog a = Ok b -> 0 < a /\ b = ln a.
Proof.
  unfold flog. destruct (Rlt_dec 0 a); intros H; inversion H; auto.
Qed.

Lemma dot_ok (u v : vector) :
  length u = length v -> dot u v = Ok (rsum (zip_with Rmult u v)).
Proof.
  intros H. unfold dot. rewrite H, Nat.eqb_refl. reflexivity.
Qed.

Lemma dot_ok_inv (u v : vector) (r : R) :
  dot u v = Ok r -> length u = length v /\ r = rsum (zip_with Rmult u v).
Proof.
  unfold dot. destruct (Nat.eqb (length u) (length v)) eqn:E; intros H;
    inversion H. apply Nat.eqb_eq in E. auto.
Qed.

Lemma dot_mismatch (u v : vector) :
  length u <> length v -> dot u v = Raise ValueError.
Proof.
  intros H. unfold dot. apply Nat.eqb_neq in H. rewrite H. reflexivity.
Qed.

Lemma vsub_ok (u v : vector) :
  length u = length v -> vsub u v = Ok (zip_with Rminus u v).
Proof.
  intros H. unfold vsub, broadcast2. rewrite H, Nat.eqb_refl. reflexivity.
Qed.

Lemma zip_with_ones (l : list R) :
  rsum (zip_with Rmult l (repeat 1 (length l))) = rsum l.
Proof.
  induction l as [|a l IH]; simpl; [reflexivity | rewrite IH; lra].
Qed.

Lemma dot_ones (l : list R) : dot l (repeat 1 (length l)) = Ok (rsum l).
Proof.
  rewrite dot_ok by (rewrite repeat_length; reflexivity).
  rewrite zip_with_ones. reflexivity.
Qed.

(** ** The density evaluator *)

Lemma column_nth (m : matrix) (j a : nat) :
  (a < length m)%nat -> nth a (column m j) 0 = nth j (nth a m []) 0.
Proof.
  intros H. unfold column.
  rewrite (nth_indep _ 0 (nth j [] 0)) by (rewrite length_map; exact H).
  apply (map_nth (fun row => nth j row 0)).
Qed.

Lemma column_length (m : matrix) (j : nat) : length (column m j) = length m.
Proof. apply length_map. Qed.

Lemma adjugate_length (m : matrix) : length (adjugate m) = length m.
Proof. unfold adjugate. rewrite length_map, length_seq. reflexivity. Qed.

Lemma adjugate_rect (m : matrix) :
  Forall (fun row => length row = length m) (adjugate m).
Proof.
  unfold adjugate. apply Forall_forall. intros row Hin.
  apply in_map_iff in Hin. destruct Hin as [a [<- _]].
  rewrite length_map, length_seq. reflexivity.
Qed.

Lemma linalg_inv_ok (m : matrix) :
  is_square m = true -> determinant m <> 0 ->
  linalg_inv m = Ok (inverse m).
Proof.
  intros Hsq Hdet. unfold linalg_inv. rewrite Hsq.
  destruct (Req_dec_T (determinant m) 0); [contradiction | reflexivity].
Qed.

Lemma linalg_inv_shape (m b : matrix) :
  linalg_inv m = Ok b ->
  length b = length m /\ Forall (fun row => length row = length m) b
  /\ ncols b = length m.
Proof.
  unfold linalg_inv. destruct (is_square m); [|discriminate].
  destruct (Req_dec_T (determinant m) 0); [discriminate|].
  intros H. inversion H; subst; clear H. unfold inverse.
  assert (Hrect : Forall (fun row => length row = length m)
                    (map (map (fun c => c / determinant m)) (adjugate m))).
  { apply Forall_forall. intros row Hin. apply in_map_iff in Hin.
    destruct Hin as [row' [<- Hin]]. rewrite length_map.
    pose proof (adjugate_rect m) as Hr. rewrite Forall_forall in Hr. auto. }
  rewrite length_map, adjugate_length. repeat split; auto.
  destruct m as [|r m]; [reflexivity|].
  apply ncols_rect; auto. unfold adjugate. simpl. discriminate.
Qed.

Lemma linalg_det_ok (m : matrix) :
  is_square m = true -> linalg_det m = Ok (determinant m).
Proof.
  intros H. unfold linalg_det. rewrite H. reflexivity.
Qed.

(** The two nested [np.dot] calls compute the quadratic form. *)
Lemma nested_dot_quadratic_form (c : vector) (b : matrix) :
  length b = length c -> ncols b = length c ->
  exists t, dot_vm c b = Ok t /\ dot t c = Ok (quadratic_form c b).
Proof.
  intros Hlen Hcols. unfold dot_vm. rewrite Hlen, Nat.eqb_refl, Hcols.
  eexists; split; [reflexivity|].
  rewrite dot_ok by (rewrite length_map, length_seq; reflexivity).
  f_equal. unfold quadratic_form.
  rewrite (zip_with_as_map_seq Rmult 0 0)
    by (rewrite length_map, length_seq; reflexivity).
  rewrite length_map, length_seq.
  transitivity
    (rsum (map (fun i =>
                  rsum (map (fun a => nth a c 0 * nth i (nth a b []) 0 * nth i c 0)
                            (seq 0 (length c))))
               (seq 0 (length c)))).
  - apply rsum_seq_ext. intros i Hi. rewrite nth_map_seq by exact Hi.
    rewrite (zip_with_as_map_seq Rmult 0 0)
      by (rewrite column_length; auto).
    rewrite <- rsum_map_mult_r. apply rsum_seq_ext. intros a Ha.
    rewrite column_nth by lia. reflexivity.
  - apply (rsum_swap
             (fun i a => nth a c 0 * nth i (nth a b []) 0 * nth i c 0)).
Qed.

Lemma two_pi_pow_pos (k : nat) : 0 < (2 * PI) ^ k.
Proof.
  apply pow_lt. pose proof PI_RGT_0. lra.
Qed.

(** The value of the evaluator on inputs of matching shape whose
    determinant is positive. *)
Lemma pdf_value (self : GMM) (x mean : vector) (cov : matrix) :
  length x = length cov -> length mean = length cov ->
  is_square cov = true -> 0 < determinant cov ->
  linalg_inv cov = Ok (inverse cov) /\
  multivariate_normal_pdf self x mean cov
  = Ok (exp (- (1 / 2) * quadratic_form (zip_with Rminus x mean) (inverse cov))
        / sqrt (determinant cov * (2 * PI) ^ no_components self)) /\
  0 < exp (- (1 / 2) * quadratic_form (zip_with Rminus x mean) (inverse cov))
      / sqrt (determinant cov * (2 * PI) ^ no_components self).
Proof.
  intros Hx Hm Hsq Hdet.
  assert (Hne : determinant cov <> 0) by lra.
  pose proof (linalg_inv_ok cov Hsq Hne) as Hinv.
  destruct (linalg_inv_shape _ _ Hinv) as [Hlen [_ Hcols]].
  split; [exact Hinv|].
  assert (Hc : length (zip_with Rminus x mean) = length cov)
    by (rewrite zip_with_length; lia).
  destruct (nested_dot_quadratic_form (zip_with Rminus x mean) _
              ltac:(rewrite Hlen, Hc; reflexivity)
              ltac:(rewrite Hcols, Hc; reflexivity)) as [t [Ht Hq]].
  pose proof (two_pi_pow_pos (no_components self)) as Hpow.
  assert (Harg : 0 < determinant cov * (2 * PI) ^ no_components self)
    by (apply Rmult_lt_0_compat; assumption).
  assert (Hroot : 0 < sqrt (determinant cov * (2 * PI) ^ no_components self))
    by (apply sqrt_lt_R0; exact Harg).
  split.
  - unfold multivariate_normal_pdf.
    rewrite vsub_ok by congruence. cbn [rbind].
    rewrite Hinv. cbn [rbind]. rewrite linalg_det_ok by exact Hsq. cbn [rbind].
    rewrite Ht. cbn [rbind]. rewrite Hq. cbn [rbind].
    rewrite fsqrt_ok by lra. cbn [rbind].
    apply fdiv_ok. lra.
  - apply Rdiv_lt_0_compat; [apply exp_pos | exact Hroot].
Qed.

(** *** Checks of the evaluator and of the linear algebra *)

Lemma determinant_1x1 (a : R) : determinant [[a]] = a.
Proof.
  unfold determinant. simpl. unfold sign. simpl. lra.
Qed.

Lemma determinant_2x2 (a b c d : R) :
  determinant [[a; b]; [c; d]] = a * d - b * c.
Proof.
  unfold determinant. simpl. unfold sign. simpl. ring.
Qed.

Lemma inverse_1x1 (a : R) : a <> 0 -> inverse [[a]] = [[/ a]].
Proof.
  intros Ha. unfold inverse. rewrite determinant_1x1.
  unfold adjugate, minor, determinant. simpl. unfold sign. simpl.
  repeat f_equal. field. exact Ha.
Qed.

Lemma inverse_2x2 (a b c d : R) :
  a * d - b * c <> 0 ->
  inverse [[a; b]; [c; d]]
  = [[d / (a * d - b * c); - b / (a * d - b * c)];
     [- c / (a * d - b * c); a / (a * d - b * c)]].
Proof.
  intros Hdet. unfold inverse. rewrite determinant_2x2.
  unfold adjugate, minor, determinant. simpl. unfold sign. simpl.
  repeat f_equal; field; exact Hdet.
Qed.

(** Up to order 3, checked entry by entry: [inverse] is a two-sided
    inverse for [np.dot]. *)
Lemma inverse_3x3 (a b c d e f g h i : R) :
  let m := [[a; b; c]; [d; e; f]; [g; h; i]] in
  determinant m <> 0 ->
  dot_mm m (inverse m) = Ok (identity 3)
  /\ dot_mm (inverse m) m = Ok (identity 3).
Proof.
  intros m Hdet.
  assert (Hd : determinant m
               = a * (e * i - f * h) - b * (d * i - f * g)
                 + c * (d * h - e * g)).
  { unfold m, determinant. simpl. unfold sign. simpl. ring. }
  unfold inverse. rewrite Hd in *. clear Hd.
  unfold m, adjugate, minor, determinant, dot_mm, dot_vm, identity.
  simpl. unfold sign. simpl.
  split; repeat f_equal; field; exact Hdet.
Qed.

Lemma quadratic_form_zero_1 (b : matrix) :
  quadratic_form (zip_with Rminus [0] [0]) b = 0.
Proof.
  unfold quadratic_form. cbn [zip_with length seq map rsum fold_right nth].
  ring.
Qed.

Lemma sqrt_two_pi_gt_2 : 2 < sqrt (2 * PI).
Proof.
  pose proof PI2_1 as Hpi.
  replace 2 with (sqrt (2 * 2)) at 1 by (apply sqrt_square; lra).
  apply sqrt_lt_1; lra.
Qed.

(** The standard normal density at 0, with one component. *)
Lemma pdf_standard_normal :
  multivariate_normal_pdf (init [[0]] [[[1]]] [1] default_epsilon) [0] [0] [[1]]
  = Ok (/ sqrt (2 * PI)).
Proof.
  destruct (pdf_value (init [[0]] [[[1]]] [1] default_epsilon) [0] [0] [[1]])
    as [_ [Hval _]]; try reflexivity.
  - rewrite determinant_1x1. lra.
  - rewrite Hval. f_equal.
    rewrite quadratic_form_zero_1, Rmult_0_r, exp_0, determinant_1x1.
    cbn [init no_components length].
    replace (1 * (2 * PI) ^ 1) with (2 * PI) by ring.
    unfold Rdiv. ring.
Qed.

(** The same one-dimensional density inside a model of two components:
    the normaliser is (2π)^2 under the root, not (2π)^1. *)
Lemma pdf_exponent_is_component_count :
  multivariate_normal_pdf standard_model [0] [0] [[1]] = Ok (/ (2 * PI)).
Proof.
  destruct (pdf_value standard_model [0] [0] [[1]])
    as [_ [Hval _]]; try reflexivity.
  - rewrite determinant_1x1. lra.
  - rewrite Hval. f_equal.
    rewrite quadratic_form_zero_1, Rmult_0_r, exp_0, determinant_1x1.
    cbn [standard_model init no_components length].
    replace (1 * (2 * PI) ^ 2) with ((2 * PI) * (2 * PI)) by ring.
    pose proof PI_RGT_0.
    rewrite sqrt_square by lra. unfold Rdiv. ring.
Qed.

(** C1, as stated, fails: the 1×1 matrix [[-1]] is invertible, yet the
    evaluator takes the square root of a negative number there and yields
    no real value. *)
Lemma pdf_negative_determinant_not_real :
  (exists cov_inverse, linalg_inv [[-1]] = Ok cov_inverse) /\
  multivariate_normal_pdf (init [[0]] [[[-1]]] [1] default_epsilon)
    [0] [0] [[-1]] = Raise NonFinite.
Proof.
  assert (Hdet : determinant [[-1]] = -1).
  { unfold determinant. simpl. unfold sign. simpl. lra. }
  assert (Hsq : is_square [[-1]] = true) by reflexivity.
  assert (Hinv : linalg_inv [[-1]] = Ok (inverse [[-1]])).
  { apply linalg_inv_ok; [exact Hsq | rewrite Hdet; lra]. }
  split; [eexists; exact Hinv|].
  unfold multivariate_normal_pdf.
  rewrite vsub_ok by reflexivity. cbn [rbind].
  rewrite Hinv. cbn [rbind]. rewrite linalg_det_ok by exact Hsq. cbn [rbind].
  destruct (linalg_inv_shape _ _ Hinv) as [Hlen [_ Hcols]].
  destruct (nested_dot_quadratic_form (zip_with Rminus [0] [0]) _
              Hlen Hcols) as [t [Ht Hq]].
  rewrite Ht. cbn [rbind]. rewrite Hq. cbn [rbind].
  rewrite fsqrt_negative; [reflexivity|].
  rewrite Hdet. cbn [init no_components length].
  pose proof PI_RGT_0. lra.
Qed.

(** C1 (amended): for a D-dimensional [x] and [mean] and a D×D covariance
    matrix of positive determinant, the density evaluator returns
    exp(-0.5 · (x-mean)ᵀ · Σ⁻¹ · (x-mean)) / sqrt(det(Σ) · (2π)^K) with K
    the component count of the model, and that value is positive. *)
Theorem pdf_formula (self : GMM) (D : nat) (x mean : vector) (cov : matrix) :
  length x = D -> length mean = D ->
  length cov = D -> is_rect cov D = true ->
  0 < determinant cov ->
  exists cov_inverse value,
    linalg_inv cov = Ok cov_inverse /\
    multivariate_normal_pdf self x mean cov = Ok value /\
    value = exp (- (1 / 2) * quadratic_form (zip_with Rminus x mean) cov_inverse)
            / sqrt (determinant cov * (2 * PI) ^ no_components self) /\
    0 <= value.
Proof.
  intros Hx Hm Hc Hrect Hdet.
  destruct (pdf_value self x mean cov) as [Hinv [Hval Hpos]];
    try congruence.
  - unfold is_square. rewrite Hc. exact Hrect.
  - exists (inverse cov). eexists.
    repeat split; [exact Hinv | exact Hval | lra].
Qed.

Lemma pdf_formula_witness :
  exists cov_inverse value,
    linalg_inv [[1]] = Ok cov_inverse /\
    multivariate_normal_pdf (init [[0]] [[[1]]] [1] default_epsilon)
      [0] [0] [[1]] = Ok value /\
    value = exp (- (1 / 2) * quadratic_form (zip_with Rminus [0] [0]) cov_inverse)
            / sqrt (determinant [[1]] * (2 * PI) ^ 1) /\
    0 <= value.
Proof.
  apply (pdf_formula (init [[0]] [[[1]]] [1] default_epsilon) 1 [0] [0] [[1]]);
    try reflexivity.
  unfold determinant. simpl. unfold sign. simpl. lra.
Defined.

(** ** The state monad *)

Lemma bind_ok {A B : Type} (m : M A) (k : A -> M B) (s s' : GMM) (a : A) :
  m s = (Ok a, s') -> bind m k s = k a s'.
Proof. intros H. unfold bind. rewrite H. reflexivity. Qed.

Lemma bind_raise {A B : Type} (m : M A) (k : A -> M B) (s s' : GMM) (e : error) :
  m s = (Raise e, s') -> bind m k s = (Raise e, s').
Proof. intros H. unfold bind. rewrite H. reflexivity. Qed.

Lemma bind_ok_inv {A B : Type} (m : M A) (k : A -> M B) (s s' : GMM) (b : B) :
  bind m k s = (Ok b, s') ->
  exists a s1, m s = (Ok a, s1) /\ k a s1 = (Ok b, s').
Proof.
  unfold bind. destruct (m s) as [[a|e] s1]; intros H; [eauto | discriminate].
Qed.

Lemma lift_ok_inv {A : Type} (r : result A) (s s' : GMM) (a : A) :
  lift r s = (Ok a, s') -> r = Ok a /\ s' = s.
Proof. unfold lift. intros H. inversion H. auto. Qed.

(** A loop whose body succeeds without touching the state is a [map]. *)
Lemma mapS_pure {A B : Type} (f : A -> M B) (g : A -> B) (l : list A) (s : GMM) :
  (forall a, In a l -> f a s = (Ok (g a), s)) ->
  mapS f l s = (Ok (map g l), s).
Proof.
  induction l as [|a l IH]; intros H; [reflexivity|].
  cbn [mapS map]. rewrite (bind_ok _ _ _ _ _ (H a (or_introl eq_refl))).
  rewrite (bind_ok _ _ _ _ _ (IH (fun b Hb => H b (or_intror Hb)))).
  reflexivity.
Qed.

Lemma read_only_ret {A : Type} (a : A) : read_only (ret a).
Proof. intros s. reflexivity. Qed.

Lemma read_only_lift {A : Type} (r : result A) : read_only (lift r).
Proof. intros s. reflexivity. Qed.

Lemma read_only_get {A : Type} (field : GMM -> A) : read_only (get field).
Proof. intros s. reflexivity. Qed.

Lemma read_only_bind {A B : Type} (m : M A) (k : A -> M B) :
  read_only m -> (forall a, read_only (k a)) -> read_only (bind m k).
Proof.
  intros Hm Hk s. unfold bind. specialize (Hm s).
  destruct (m s) as [[a|e] s1]; simpl in Hm; subst; [apply Hk | reflexivity].
Qed.

Lemma read_only_mapS {A B : Type} (f : A -> M B) (l : list A) :
  (forall a, read_only (f a)) -> read_only (mapS f l).
Proof.
  intros Hf. induction l as [|a l IH]; cbn [mapS].
  - apply read_only_ret.
  - apply read_only_bind; [apply Hf|]. intros b.
    apply read_only_bind; [exact IH|]. intros bs. apply read_only_ret.
Qed.

Lemma read_only_pdf (x mean : vector) (cov : matrix) : read_only (pdf x mean cov).
Proof. intros s. reflexivity. Qed.

Create HintDb read_only_db.
#[local] Hint Resolve read_only_ret read_only_lift read_only_get read_only_pdf
  : read_only_db.

Ltac read_only_tac :=
  repeat first
    [ apply read_only_bind; [|intros ?]
    | apply read_only_mapS; intros ?
    | solve [auto with read_only_db] ].

Lemma read_only_read_mean (j : nat) : read_only (read_mean j).
Proof. unfold read_mean. read_only_tac. Qed.

Lemma read_only_read_covariance (j : nat) : read_only (read_covariance j).
Proof. unfold read_covariance. read_only_tac. Qed.

Lemma read_only_read_mixing_prob (j : nat) : read_only (read_mixing_prob j).
Proof. unfold read_mixing_prob. read_only_tac. Qed.

#[local] Hint Resolve read_only_read_mean read_only_read_covariance
  read_only_read_mixing_prob : read_only_db.

Lemma read_mean_ok (j : nat) (s : GMM) :
  (j < length (means s))%nat -> read_mean j s = (Ok (nth j (means s) []), s).
Proof.
  intros H. unfold read_mean, bind, get, lift.
  rewrite (index_ok _ _ [] H). reflexivity.
Qed.

Lemma read_covariance_ok (j : nat) (s : GMM) :
  (j < length (covariances s))%nat ->
  read_covariance j s = (Ok (nth j (covariances s) []), s).
Proof.
  intros H. unfold read_covariance, bind, get, lift.
  rewrite (index_ok (covariances s) j ([] : matrix) H). reflexivity.
Qed.

Lemma read_mixing_prob_ok (j : nat) (s : GMM) :
  (j < length (mixing_probs s))%nat ->
  read_mixing_prob j s = (Ok (nth j (mixing_probs s) 0), s).
Proof.
  intros H. unfold read_mixing_prob, bind, get, lift.
  rewrite (index_ok _ _ 0 H). reflexivity.
Qed.

(** ** Shapes *)

Lemma well_shaped_components (K D : nat) (s : GMM) :
  well_shaped K D s -> component_shapes K D s.
Proof.
  intros [Hk Hml Hmd Hcl Hcd _]. constructor; assumption.
Qed.

Lemma component_mean_dim (K D : nat) (s : GMM) (j : nat) :
  component_shapes K D s -> (j < K)%nat -> length (nth j (means s) []) = D.
Proof.
  intros H Hj. pose proof (cs_mean_dim _ _ _ H) as Hf.
  rewrite Forall_forall in Hf. apply Hf. apply nth_In.
  pose proof (cs_means _ _ _ H). lia.
Qed.

Lemma component_square (K D : nat) (s : GMM) (c : matrix) :
  component_shapes K D s -> In c (covariances s) -> is_square c = true.
Proof.
  intros H Hin. pose proof (cs_covariance_dim _ _ _ H) as Hf.
  rewrite Forall_forall in Hf. destruct (Hf c Hin) as [Hl Hr].
  unfold is_square. rewrite Hl. exact Hr.
Qed.

Lemma well_shaped_mean (K D : nat) (s : GMM) (j : nat) :
  well_shaped K D s -> (j < K)%nat -> length (nth j (means s) []) = D.
Proof.
  intros H Hj. pose proof (ws_mean_dim _ _ _ H) as Hf.
  rewrite Forall_forall in Hf. apply Hf. apply nth_In.
  pose proof (ws_means _ _ _ H). lia.
Qed.

Lemma well_shaped_covariance (K D : nat) (s : GMM) (j : nat) :
  well_shaped K D s -> (j < K)%nat ->
  length (nth j (covariances s) []) = D
  /\ is_rect (nth j (covariances s) []) D = true.
Proof.
  intros H Hj. pose proof (ws_covariance_dim _ _ _ H) as Hf.
  rewrite Forall_forall in Hf. apply Hf. apply nth_In.
  rewrite (ws_covariances _ _ _ H). exact Hj.
Qed.

(** ** Hard assignment *)

Lemma argmin_from_first_min (l pre : list R) (best_index : nat) (best : R) :
  (best_index < length pre)%nat ->
  best = nth best_index (pre ++ l) 0 ->
  (forall j, (j < length pre)%nat -> best <= nth j (pre ++ l) 0) ->
  (forall j, (j < best_index)%nat -> best < nth j (pre ++ l) 0) ->
  is_first_min (pre ++ l) (argmin_from best_index best (length pre) l).
Proof.
  revert pre best_index best.
  induction l as [|d t IH]; intros pre bi b Hbi Hb Hle Hlt; cbn [argmin_from].
  - rewrite app_nil_r in *. subst b. repeat split; auto.
  - assert (Hd : nth (length pre) (pre ++ d :: t) 0 = d)
      by (rewrite app_nth2, Nat.sub_diag by lia; reflexivity).
    assert (Happ : pre ++ d :: t = (pre ++ [d]) ++ t)
      by (rewrite <- app_assoc; reflexivity).
    assert (Hlen : S (length pre) = length (pre ++ [d]))
      by (rewrite length_app; simpl; lia).
    destruct (Rlt_dec d b) as [Hdb|Hdb]; rewrite Happ, Hlen.
    + apply IH; rewrite <- ?Happ, <- ?Hlen; try lia; auto.
      * intros j Hj. destruct (Nat.eq_dec j (length pre)) as [->|Hne].
        -- rewrite Hd. lra.
        -- specialize (Hle j ltac:(lia)). lra.
      * intros j Hj. specialize (Hle j Hj). lra.
    + apply IH; rewrite <- ?Happ, <- ?Hlen; try lia; auto.
      intros j Hj. destruct (Nat.eq_dec j (length pre)) as [->|Hne].
      * rewrite Hd. lra.
      * apply Hle. lia.
Qed.

Lemma argmin_first_min (l : list R) :
  l <> [] -> exists p, argmin l = Ok p /\ is_first_min l p.
Proof.
  destruct l as [|d t]; [congruence|]. intros _.
  eexists; split; [reflexivity|].
  apply (argmin_from_first_min t [d] 0 d); simpl; try lia; auto.
  intros j Hj. assert (j = 0%nat) by lia. subst. lra.
Qed.

(** Scaling by a positive factor moves no minimum. *)
Lemma is_first_min_scale (c : R) (f g : nat -> R) (n p : nat) :
  0 < c -> (forall j, (j < n)%nat -> f j = c * g j) ->
  is_first_min (map f (seq 0 n)) p -> is_first_min (map g (seq 0 n)) p.
Proof.
  intros Hc Hfg [Hp [Hle Hlt]].
  rewrite length_map, length_seq in *.
  repeat split.
  - rewrite length_map, length_seq. exact Hp.
  - rewrite length_map, length_seq. intros j Hj. specialize (Hle j Hj).
    rewrite !nth_map_seq in * by lia. rewrite !Hfg in Hle by lia. nra.
  - intros j Hj. specialize (Hlt j Hj).
    rewrite !nth_map_seq in * by lia. rewrite !Hfg in Hlt by lia. nra.
Qed.

Lemma det_distance_euclidean (s : GMM) (x : vector) (j : nat) :
  det_distance s x j
  = determinant (nth j (covariances s) [])
    * squared_euclidean x (nth j (means s) []).
Proof.
  unfold det_distance, squared_euclidean. cbv zeta.
  rewrite <- rsum_map_mult_l. apply rsum_seq_ext. intros k _. ring.
Qed.

Lemma distance_ok (K D : nat) (s : GMM) (x : vector) (j : nat) :
  component_shapes K D s -> length x = D -> (j < K)%nat ->
  distance (map determinant (covariances s)) x j s
  = (Ok (det_distance s x j), s).
Proof.
  intros Hs Hx Hj.
  pose proof (component_mean_dim _ _ _ j Hs Hj) as Hm.
  assert (Hjm : (j < length (means s))%nat)
    by (pose proof (cs_means _ _ _ Hs); lia).
  assert (Hjc : (j < length (map determinant (covariances s)))%nat)
    by (rewrite length_map, (cs_covariances _ _ _ Hs); exact Hj).
  unfold distance.
  rewrite (bind_ok _ _ _ _ _ (read_mean_ok j s Hjm)).
  unfold bind at 1, lift at 1. rewrite vsub_ok by congruence.
  unfold bind at 1, lift at 1. rewrite (index_ok _ _ 0 Hjc).
  rewrite (bind_ok _ _ _ _ _ (read_mean_ok j s Hjm)).
  unfold bind at 1, lift at 1. rewrite vsub_ok by congruence.
  unfold lift.
  rewrite dot_ok
    by (unfold scale; rewrite length_map; reflexivity).
  do 2 f_equal. unfold det_distance. cbv zeta.
  assert (Hz : length (zip_with Rminus x (nth j (means s) [])) = length x)
    by (rewrite zip_with_length; lia).
  rewrite (zip_with_as_map_seq Rmult 0 0)
    by (unfold scale; rewrite length_map; reflexivity).
  unfold scale at 2. rewrite length_map, Hz.
  apply rsum_seq_ext. intros k Hk.
  unfold scale.
  rewrite (nth_map _ 0 0) by (rewrite Hz; exact Hk).
  rewrite (zip_with_nth Rminus 0 0 0) by lia.
  rewrite (nth_map determinant ([] : matrix) 0)
    by (rewrite (cs_covariances _ _ _ Hs); exact Hj).
  reflexivity.
Qed.

Lemma assign_ok (K D : nat) (s : GMM) (x : vector) :
  component_shapes K D s -> (0 < K)%nat -> length x = D ->
  exists p,
    assign (map determinant (covariances s)) x s = (Ok p, s)
    /\ is_first_min (map (det_distance s x) (seq 0 K)) p.
Proof.
  intros Hs HK Hx.
  destruct (argmin_first_min (map (det_distance s x) (seq 0 K))) as [p [Hp Hmin]].
  { destruct K; [lia | simpl; discriminate]. }
  exists p. split; [|exact Hmin].
  unfold assign. unfold bind at 1, get at 1.
  rewrite (cs_components _ _ _ Hs).
  rewrite (bind_ok _ _ s s (map (det_distance s x) (seq 0 K))).
  - unfold lift. rewrite Hp. reflexivity.
  - apply mapS_pure. intros j Hin. apply in_seq in Hin.
    eapply distance_ok; eauto. lia.
Qed.

Lemma mapS_pure_rel {A B : Type} (f : A -> M B) (P : A -> B -> Prop)
  (l : list A) (s : GMM) :
  (forall a, In a l -> exists b, f a s = (Ok b, s) /\ P a b) ->
  exists bs, mapS f l s = (Ok bs, s) /\ Forall2 P l bs.
Proof.
  induction l as [|a l IH]; intros H.
  - exists []. split; [reflexivity | constructor].
  - destruct (H a (or_introl eq_refl)) as [b [Hb HP]].
    destruct (IH (fun a' Hin => H a' (or_intror Hin))) as [bs [Hbs HF]].
    exists (b :: bs). split; [|constructor; assumption].
    cbn [mapS]. rewrite (bind_ok _ _ _ _ _ Hb), (bind_ok _ _ _ _ _ Hbs).
    reflexivity.
Qed.

(** What [cluster] returns on a well-shaped state: every feature vector is
    sent to the first minimum of its determinant-weighted distances. *)
Lemma cluster_ok (K D : nat) (s : GMM) (features : matrix) :
  component_shapes K D s -> (0 < K)%nat -> feature_matrix D features ->
  exists partition,
    cluster features s = (Ok partition, s)
    /\ Forall2 (fun x p => is_first_min (map (det_distance s x) (seq 0 K)) p)
         features partition.
Proof.
  intros Hs HK Hf.
  destruct (mapS_pure_rel (assign (map determinant (covariances s)))
              (fun x p => is_first_min (map (det_distance s x) (seq 0 K)) p)
              features s) as [partition [Hrun Hall]].
  { intros x Hin. unfold feature_matrix in Hf. rewrite Forall_forall in Hf.
    eapply assign_ok; eauto. }
  exists partition. split; [|exact Hall].
  unfold cluster. unfold bind at 1, get at 1.
  unfold bind at 1, lift at 1.
  rewrite (mapM_ok_map linalg_det determinant).
  - exact Hrun.
  - intros c Hin. apply linalg_det_ok. eapply component_square; eauto.
Qed.

Lemma Forall2_nth_error {A B : Type} (P : A -> B -> Prop) (l : list A)
  (l' : list B) :
  Forall2 P l l' ->
  length l' = length l
  /\ forall i a, nth_error l i = Some a ->
       exists b, nth_error l' i = Some b /\ P a b.
Proof.
  induction 1 as [|a b l l' HP HF [IHlen IH]].
  - split; [reflexivity|]. intros [|i] a H; discriminate.
  - split; [simpl; congruence|]. intros [|i] a' H; simpl in *.
    + inversion H; subst. eauto.
    + apply IH. exact H.
Qed.

(** C2: on a parameter state with K >= 1 components of dimension D and N
    feature vectors of dimension D, [cluster] returns N indices; the index
    [p] of a vector [x] lies in [0,K), minimises
    (x-mean_j)ᵀ · det(Σ_j) · (x-mean_j) over the components, and is the
    lowest index that does. *)
Theorem cluster_assigns_argmin (K D : nat) (s : GMM) (features : matrix) :
  component_shapes K D s -> (0 < K)%nat -> feature_matrix D features ->
  exists partition,
    cluster features s = (Ok partition, s)
    /\ length partition = length features
    /\ forall i x, nth_error features i = Some x ->
         exists p, nth_error partition i = Some p
           /\ (p < K)%nat
           /\ (forall j, (j < K)%nat -> det_distance s x p <= det_distance s x j)
           /\ (forall j, (j < p)%nat -> det_distance s x p < det_distance s x j).
Proof.
  intros Hs HK Hf.
  destruct (cluster_ok K D s features Hs HK Hf) as [partition [Hrun Hall]].
  destruct (Forall2_nth_error _ _ _ Hall) as [Hlen Hnth].
  exists partition. repeat split; auto.
  intros i x Hx. destruct (Hnth i x Hx) as [p [Hp [Hlt [Hle Hfirst]]]].
  rewrite length_map, length_seq in *.
  exists p. repeat split; auto.
  - intros j Hj. specialize (Hle j Hj).
    rewrite !nth_map_seq in Hle by lia. exact Hle.
  - intros j Hj. specialize (Hfirst j Hj).
    rewrite !nth_map_seq in Hfirst by lia. exact Hfirst.
Qed.

Lemma standard_model_well_shaped : well_shaped 2 1 standard_model.
Proof.
  constructor; try reflexivity; repeat constructor.
Qed.

Lemma cluster_assigns_argmin_witness :
  exists partition,
    cluster [[1]; [3]] standard_model = (Ok partition, standard_model)
    /\ length partition = length [[1]; [3]]
    /\ forall i x, nth_error [[1]; [3]] i = Some x ->
         exists p, nth_error partition i = Some p
           /\ (p < 2)%nat
           /\ (forall j, (j < 2)%nat ->
                 det_distance standard_model x p <= det_distance standard_model x j)
           /\ (forall j, (j < p)%nat ->
                 det_distance standard_model x p < det_distance standard_model x j).
Proof.
  apply (cluster_assigns_argmin 2 1 standard_model [[1]; [3]]).
  - exact (well_shaped_components 2 1 standard_model standard_model_well_shaped).
  - lia.
  - repeat constructor.
Defined.

(** C9: [cluster] writes nothing to the estimator: whatever the features
    and the state, and whether it returns or raises, the state after the
    call is the state before it. *)
Theorem cluster_read_only (features : matrix) (s : GMM) :
  snd (cluster features s) = s.
Proof.
  revert s. change (read_only (cluster features)).
  unfold cluster, assign, distance. read_only_tac.
Qed.

(** C10: when all K covariances have the same positive determinant,
    [cluster] sends every feature vector to the nearest mean: to the lowest
    index minimising the squared Euclidean distance to the means. *)
Theorem cluster_equal_determinants (K D : nat) (s : GMM) (features : matrix)
  (c : R) :
  component_shapes K D s -> (0 < K)%nat -> feature_matrix D features ->
  0 < c -> (forall cov, In cov (covariances s) -> determinant cov = c) ->
  exists partition,
    cluster features s = (Ok partition, s)
    /\ length partition = length features
    /\ forall i x, nth_error features i = Some x ->
         exists p, nth_error partition i = Some p
           /\ (p < K)%nat
           /\ (forall j, (j < K)%nat ->
                 squared_euclidean x (nth p (means s) [])
                 <= squared_euclidean x (nth j (means s) []))
           /\ (forall j, (j < p)%nat ->
                 squared_euclidean x (nth p (means s) [])
                 < squared_euclidean x (nth j (means s) [])).
Proof.
  intros Hs HK Hf Hc Hdet.
  destruct (cluster_ok K D s features Hs HK Hf) as [partition [Hrun Hall]].
  destruct (Forall2_nth_error _ _ _ Hall) as [Hlen Hnth].
  exists partition. repeat split; auto.
  intros i x Hx. destruct (Hnth i x Hx) as [p [Hp Hmin]].
  apply (is_first_min_scale c _
           (fun j => squared_euclidean x (nth j (means s) []))) in Hmin; auto.
  - destruct Hmin as [Hlt [Hle Hfirst]].
    rewrite length_map, length_seq in *.
    exists p. repeat split; auto.
    + intros j Hj. specialize (Hle j Hj).
      rewrite !nth_map_seq in Hle by lia. exact Hle.
    + intros j Hj. specialize (Hfirst j Hj).
      rewrite !nth_map_seq in Hfirst by lia. exact Hfirst.
  - intros j Hj. rewrite det_distance_euclidean. f_equal.
    apply Hdet. apply nth_In. rewrite (cs_covariances _ _ _ Hs). exact Hj.
Qed.

Lemma cluster_equal_determinants_witness :
  exists partition,
    cluster [[1]; [3]] standard_model = (Ok partition, standard_model)
    /\ length partition = length [[1]; [3]]
    /\ forall i x, nth_error [[1]; [3]] i = Some x ->
         exists p, nth_error partition i = Some p
           /\ (p < 2)%nat
           /\ (forall j, (j < 2)%nat ->
                 squared_euclidean x (nth p (means standard_model) [])
                 <= squared_euclidean x (nth j (means standard_model) []))
           /\ (forall j, (j < p)%nat ->
                 squared_euclidean x (nth p (means standard_model) [])
                 < squared_euclidean x (nth j (means standard_model) [])).
Proof.
  apply (cluster_equal_determinants 2 1 standard_model [[1]; [3]] 1).
  - exact (well_shaped_components 2 1 standard_model standard_model_well_shaped).
  - lia.
  - repeat constructor.
  - lra.
  - intros cov [<-|[<-|[]]]; apply determinant_1x1.
Defined.

(** ** The M-step *)

Lemma update_length {A : Type} (l : list A) (i : nat) (a : A) :
  length (update l i a) = length l.
Proof.
  revert i; induction l as [|b l IH]; intros [|i]; simpl; auto.
Qed.

Lemma update_nth_same {A : Type} (l : list A) (i : nat) (a d : A) :
  (i < length l)%nat -> nth i (update l i a) d = a.
Proof.
  revert i; induction l as [|b l IH]; intros [|i]; simpl; intros H;
    try lia; auto. apply IH. lia.
Qed.

Lemma update_nth_other {A : Type} (l : list A) (i j : nat) (a d : A) :
  i <> j -> nth j (update l i a) d = nth j l d.
Proof.
  revert i j; induction l as [|b l IH]; intros [|i] [|j]; simpl; intros H;
    try congruence; auto.
Qed.

Lemma update_Forall {A : Type} (P : A -> Prop) (l : list A) (i : nat) (a : A) :
  Forall P l -> P a -> Forall P (update l i a).
Proof.
  intros Hl Ha. revert i. induction Hl as [|b l Hb Hl IH]; intros [|i]; simpl;
    constructor; auto.
Qed.

Lemma div_all_ok (v : vector) (d : R) :
  d <> 0 -> div_all v d = Ok (map (fun a => a / d) v).
Proof.
  intros H. apply mapM_ok_map. intros a _. apply fdiv_ok. exact H.
Qed.

Lemma div_all_nil (d : R) : div_all [] d = Ok [].
Proof. reflexivity. Qed.

Lemma div_all_zero (v : vector) : v <> [] -> div_all v 0 = Raise NonFinite.
Proof.
  destruct v as [|a v]; [congruence|]. intros _.
  unfold div_all. cbn [mapM]. rewrite fdiv_zero. reflexivity.
Qed.

Lemma broadcast_to_same (v : vector) : broadcast_to v (length v) = Ok v.
Proof. unfold broadcast_to. rewrite Nat.eqb_refl. reflexivity. Qed.

Lemma broadcast_to_matrix_same (m target : matrix) (D : nat) :
  length m = D -> Forall (fun row => length row = D) m ->
  length target = D -> Forall (fun row => length row = D) target ->
  broadcast_to_matrix m target = Ok m.
Proof.
  intros Hm Hrows Ht Htrows. unfold broadcast_to_matrix.
  rewrite Hm, Ht, Nat.eqb_refl.
  rewrite (mapM_ok_map _ (fun row => row)); [rewrite map_id; reflexivity|].
  intros row Hin. rewrite Forall_forall in Hrows.
  assert (Hne : target <> []).
  { destruct target; [|discriminate]. destruct m; [contradiction|].
    simpl in *. lia. }
  rewrite (ncols_rect target D Htrows Hne), <- (Hrows row Hin).
  apply broadcast_to_same.
Qed.

Lemma nth_features_length (D : nat) (features : matrix) (i : nat) :
  feature_matrix D features -> (i < length features)%nat ->
  length (nth i features []) = D.
Proof.
  intros Hf Hi. unfold feature_matrix in Hf. rewrite Forall_forall in Hf.
  apply Hf. apply nth_In. exact Hi.
Qed.

(** [np.dot(responsibility.T, features)] entry by entry. *)
Lemma weighted_sum_entries (D : nat) (features : matrix) (r : vector) :
  feature_matrix D features -> features <> [] ->
  length r = length features ->
  dot_vm r features
  = Ok (map (fun a =>
               rsum (map (fun i => nth i r 0 * nth a (nth i features []) 0)
                         (seq 0 (length features))))
            (seq 0 D)).
Proof.
  intros Hf Hne Hr. unfold dot_vm. rewrite Hr, Nat.eqb_refl.
  rewrite (ncols_rect features D Hf Hne). f_equal.
  apply map_seq_ext. intros a Ha.
  rewrite (zip_with_as_map_seq Rmult 0 0) by (rewrite column_length; exact Hr).
  rewrite Hr. apply rsum_seq_ext. intros i Hi.
  rewrite column_nth by exact Hi. reflexivity.
Qed.

(** The rows of [np.multiply(responsibility.reshape(n,1), difference)]. *)
Lemma weighted_rows (D : nat) (r : vector) (difference : matrix) :
  length r = length difference ->
  Forall (fun row => length row = D) difference ->
  let weighted := zip_with (fun c d => map (Rmult c) d) r difference in
  length weighted = length difference
  /\ Forall (fun row => length row = D) weighted
  /\ forall i a, (i < length difference)%nat -> (a < D)%nat ->
       nth a (nth i weighted []) 0 = nth i r 0 * nth a (nth i difference []) 0.
Proof.
  intros Hr Hd weighted. subst weighted.
  rewrite (zip_with_as_map_seq _ 0 []) by exact Hr. rewrite Hr.
  rewrite Forall_forall in Hd.
  repeat split.
  - rewrite length_map, length_seq. reflexivity.
  - apply Forall_forall. intros row Hin. apply in_map_iff in Hin.
    destruct Hin as [i [<- Hi]]. apply in_seq in Hi.
    rewrite length_map. apply Hd. apply nth_In. lia.
  - intros i a Hi Ha. rewrite nth_map_seq by exact Hi.
    apply (nth_map (Rmult (nth i r 0)) 0 0).
    rewrite (Hd (nth i difference [])) by (apply nth_In; exact Hi). exact Ha.
Qed.

(** [np.dot(weighted.T, difference)] entry by entry. *)
Lemma scatter_entries (D : nat) (r : vector) (difference : matrix) :
  difference <> [] ->
  length r = length difference ->
  Forall (fun row => length row = D) difference ->
  dot_mm (transpose (zip_with (fun c d => map (Rmult c) d) r difference))
         difference
  = Ok (map (fun a =>
               map (fun b =>
                      rsum (map (fun i =>
                                   nth i r 0 * nth a (nth i difference []) 0
                                   * nth b (nth i difference []) 0)
                                (seq 0 (length difference))))
                   (seq 0 D))
            (seq 0 D)).
Proof.
  intros Hne Hr Hd.
  destruct (weighted_rows D r difference Hr Hd) as [Hwl [Hwr Hwe]].
  set (weighted := zip_with (fun c d => map (Rmult c) d) r difference) in *.
  assert (Hwne : weighted <> []).
  { destruct weighted; [|discriminate]. destruct difference; [congruence|].
    simpl in Hwl. lia. }
  unfold dot_mm, transpose. rewrite (ncols_rect weighted D Hwr Hwne).
  rewrite (mapM_ok_map _
             (fun row =>
                map (fun b => rsum (zip_with Rmult row (column difference b)))
                    (seq 0 D))).
  - f_equal. rewrite map_map. apply map_seq_ext. intros a Ha.
    apply map_seq_ext. intros b Hb.
    rewrite (zip_with_as_map_seq Rmult 0 0)
      by (rewrite !column_length; exact Hwl).
    rewrite column_length, Hwl. apply rsum_seq_ext. intros i Hi.
    rewrite !column_nth by lia. rewrite Hwe by assumption. reflexivity.
  - intros row Hin. apply in_map_iff in Hin. destruct Hin as [a [<- _]].
    unfold dot_vm. rewrite column_length, Hwl, Nat.eqb_refl.
    rewrite (ncols_rect difference D Hd Hne). reflexivity.
Qed.

Lemma weighted_mean_length (features r : matrix) (D j : nat) :
  length (weighted_mean features r D j) = D.
Proof. unfold weighted_mean. rewrite length_map, length_seq. reflexivity. Qed.

Lemma weighted_covariance_shape (features r : matrix) (D j : nat) (mu : vector) :
  length (weighted_covariance features r D j mu) = D
  /\ Forall (fun row => length row = D) (weighted_covariance features r D j mu).
Proof.
  unfold weighted_covariance. split.
  - rewrite length_map, length_seq. reflexivity.
  - apply Forall_forall. intros row Hin. apply in_map_iff in Hin.
    destruct Hin as [a [<- _]]. rewrite length_map, length_seq. reflexivity.
Qed.

Lemma bind_lift_ok {A B : Type} (r : result A) (k : A -> M B) (s : GMM) (a : A) :
  r = Ok a -> bind (lift r) k s = k a s.
Proof. intros ->. reflexivity. Qed.

Lemma bind_lift_raise {A B : Type} (r : result A) (k : A -> M B) (s : GMM)
  (e : error) :
  r = Raise e -> bind (lift r) k s = (Raise e, s).
Proof. intros ->. reflexivity. Qed.

Lemma bind_get {A B : Type} (field : GMM -> A) (k : A -> M B) (s : GMM) :
  bind (get field) k s = k (field s) s.
Proof. reflexivity. Qed.

Lemma write_mean_ok (j : nat) (v : vector) (s : GMM) :
  (j < length (means s))%nat -> length v = length (nth j (means s) []) ->
  write_mean j v s = (Ok tt, with_means (update (means s) j v) s).
Proof.
  intros Hj Hv. unfold write_mean.
  rewrite (bind_ok _ _ _ _ _ (read_mean_ok j s Hj)).
  rewrite (bind_lift_ok _ _ _ v); [reflexivity|].
  rewrite <- Hv. apply broadcast_to_same.
Qed.

Lemma write_covariance_ok (D j : nat) (m : matrix) (s : GMM) :
  (j < length (covariances s))%nat ->
  length m = D -> Forall (fun row => length row = D) m ->
  length (nth j (covariances s) []) = D ->
  Forall (fun row => length row = D) (nth j (covariances s) []) ->
  write_covariance j m s
  = (Ok tt, with_covariances (update (covariances s) j m) s).
Proof.
  intros Hj Hm Hrows Hold Holdrows. unfold write_covariance.
  rewrite (bind_ok _ _ _ _ _ (read_covariance_ok j s Hj)).
  rewrite (bind_lift_ok _ _ _ m); [reflexivity|].
  eapply broadcast_to_matrix_same; eauto.
Qed.

Lemma write_mixing_prob_ok (j : nat) (w : R) (s : GMM) :
  (j < length (mixing_probs s))%nat ->
  write_mixing_prob j w s
  = (Ok tt, with_mixing_probs (update (mixing_probs s) j w) s).
Proof.
  intros Hj. unfold write_mixing_prob.
  rewrite (bind_ok _ _ _ _ _ (read_mixing_prob_ok j s Hj)). reflexivity.
Qed.

Lemma INR_length_nonzero {A : Type} (l : list A) : l <> [] -> INR (length l) <> 0.
Proof.
  intros H. apply not_0_INR. destruct l; [congruence | simpl; lia].
Qed.

Section Component.

Variables (K D : nat) (features r : matrix) (j : nat) (s : GMM).

Hypothesis Hshape : well_shaped K D s.
Hypothesis Hfeatures : feature_matrix D features.
Hypothesis Hnonempty : features <> [].
Hypothesis Hrows : length r = length features.
Hypothesis Hj : (j < K)%nat.

Let n := length features.

Lemma component_denominator :
  dot (column r j) (repeat 1 n) = Ok (effective_count r j).
Proof.
  unfold n. rewrite <- Hrows, <- (column_length r j). apply dot_ones.
Qed.

Lemma component_weighted_sum :
  dot_vm (column r j) features
  = Ok (map (fun a =>
               rsum (map (fun i => nth j (nth i r []) 0
                                   * nth a (nth i features []) 0)
                         (seq 0 n)))
            (seq 0 D)).
Proof.
  rewrite (weighted_sum_entries D) by (rewrite ?column_length; auto).
  f_equal. apply map_seq_ext. intros a Ha. apply rsum_seq_ext. intros i Hi.
  rewrite column_nth by (rewrite Hrows; exact Hi). reflexivity.
Qed.

Lemma component_difference (mu : vector) :
  length mu = D ->
  mapM (fun x => vsub x mu) features
  = Ok (map (fun x => zip_with Rminus x mu) features).
Proof.
  intros Hmu. apply mapM_ok_map. intros x Hin. apply vsub_ok.
  unfold feature_matrix in Hfeatures. rewrite Forall_forall in Hfeatures.
  rewrite (Hfeatures x Hin). auto.
Qed.

Lemma component_scatter (mu : vector) :
  length mu = D ->
  let difference := map (fun x => zip_with Rminus x mu) features in
  dot_mm (transpose (zip_with (fun c d => map (Rmult c) d)
                              (column r j) difference))
         difference
  = Ok (map (fun a =>
               map (fun b =>
                      rsum (map (fun i =>
                                   nth j (nth i r []) 0
                                   * (nth a (nth i features []) 0 - nth a mu 0)
                                   * (nth b (nth i features []) 0 - nth b mu 0))
                                (seq 0 n)))
                   (seq 0 D))
            (seq 0 D)).
Proof.
  intros Hmu difference.
  assert (Hdl : length difference = n)
    by (unfold difference; apply length_map).
  assert (Hdr : Forall (fun row => length row = D) difference).
  { unfold difference. apply Forall_forall. intros row Hin.
    apply in_map_iff in Hin. destruct Hin as [x [<- Hin]].
    unfold feature_matrix in Hfeatures. rewrite Forall_forall in Hfeatures.
    rewrite zip_with_length, (Hfeatures x Hin), Hmu. apply Nat.min_id. }
  rewrite (scatter_entries D).
  - f_equal. apply map_seq_ext. intros a Ha. apply map_seq_ext. intros b Hb.
    rewrite Hdl. apply rsum_seq_ext. intros i Hi.
    rewrite column_nth by (rewrite Hrows; exact Hi).
    unfold difference.
    rewrite (nth_map (fun x => zip_with Rminus x mu) [] []) by exact Hi.
    pose proof (nth_features_length D features i Hfeatures Hi) as Hx.
    rewrite !(zip_with_nth Rminus 0 0 0) by lia. reflexivity.
  - unfold difference. destruct features; [congruence | discriminate].
  - rewrite column_length, Hdl. exact Hrows.
  - exact Hdr.
Qed.

(** The update of component [j] succeeds when its effective count is not
    zero, and leaves the state [updated_component]. *)
Lemma m_step_component_ok :
  effective_count r j <> 0 ->
  m_step_component n features r j s
  = (Ok tt, updated_component features r D j s).
Proof.
  intros HN.
  pose proof (ws_means _ _ _ Hshape) as Hml.
  pose proof (ws_covariances _ _ _ Hshape) as Hcl.
  pose proof (ws_mixing_probs _ _ _ Hshape) as Hwl.
  pose proof (well_shaped_mean _ _ _ j Hshape Hj) as Hmd.
  destruct (well_shaped_covariance _ _ _ j Hshape Hj) as [Hcd Hcr].
  apply is_rect_spec in Hcr.
  set (mu := weighted_mean features r D j).
  assert (Hmu : length mu = D) by apply weighted_mean_length.
  unfold m_step_component. cbv zeta.
  rewrite (bind_lift_ok _ _ _ _ component_denominator).
  rewrite (bind_lift_ok _ _ _ _ component_weighted_sum).
  rewrite (bind_lift_ok _ _ _ mu).
  2:{ rewrite div_all_ok by exact HN. rewrite map_map. reflexivity. }
  rewrite (bind_ok _ _ _ _ _
             (write_mean_ok j mu s ltac:(lia) ltac:(congruence))).
  set (s1 := with_means (update (means s) j mu) s).
  assert (Hread : read_mean j s1 = (Ok mu, s1)).
  { rewrite read_mean_ok by (cbn; rewrite update_length; lia).
    cbn. rewrite update_nth_same by lia. reflexivity. }
  rewrite (bind_ok _ _ _ _ _ Hread).
  rewrite (bind_lift_ok _ _ _ _ (component_difference mu Hmu)).
  rewrite (bind_lift_ok _ _ _ _ (component_scatter mu Hmu)).
  rewrite (bind_lift_ok _ _ _ (weighted_covariance features r D j mu)).
  2:{ rewrite (mapM_ok_map _ (map (fun a => a / effective_count r j)))
        by (intros row _; apply div_all_ok; exact HN).
      rewrite map_map. unfold weighted_covariance. f_equal.
      apply map_seq_ext. intros a _. rewrite map_map. reflexivity. }
  destruct (weighted_covariance_shape features r D j mu) as [Hsl Hsr].
  rewrite (bind_ok _ _ _ _ _
             (write_covariance_ok D j _ s1 ltac:(cbn; lia) Hsl Hsr Hcd Hcr)).
  rewrite (bind_lift_ok _ _ _ _
             (fdiv_ok _ _ (INR_length_nonzero features Hnonempty))).
  rewrite write_mixing_prob_ok by (cbn; lia).
  reflexivity.
Qed.

(** With a zero effective count the division of the mean fails, before
    anything is written. *)
Lemma m_step_component_zero_count :
  (0 < D)%nat -> effective_count r j = 0 ->
  m_step_component n features r j s = (Raise NonFinite, s).
Proof.
  intros HD HN. unfold m_step_component. cbv zeta.
  rewrite (bind_lift_ok _ _ _ _ component_denominator).
  rewrite (bind_lift_ok _ _ _ _ component_weighted_sum).
  rewrite (bind_lift_raise _ _ _ NonFinite); [reflexivity|].
  rewrite HN. apply div_all_zero. destruct D; [lia | simpl; discriminate].
Qed.

Lemma updated_component_well_shaped :
  well_shaped K D (updated_component features r D j s).
Proof.
  destruct Hshape as [Hk Hml Hmd Hcl Hcd Hwl].
  unfold updated_component. cbv zeta.
  constructor; cbn; rewrite ?update_length; auto.
  - apply update_Forall; [exact Hmd | apply weighted_mean_length].
  - apply update_Forall; [exact Hcd|].
    destruct (weighted_covariance_shape features r D j
                (weighted_mean features r D j)) as [Hsl Hsr].
    split; [exact Hsl | apply is_rect_spec; exact Hsr].
Qed.

End Component.

Lemma updated_components_well_shaped (K D : nat) (features r : matrix)
  (js : list nat) (s : GMM) :
  well_shaped K D s -> well_shaped K D (updated_components features r D js s).
Proof.
  revert s. induction js as [|j js IH]; intros s Hs; [exact Hs|].
  apply IH. apply updated_component_well_shaped. exact Hs.
Qed.

Lemma for_each_m_step_ok (K D : nat) (features r : matrix) (js : list nat)
  (s : GMM) :
  well_shaped K D s -> feature_matrix D features -> features <> [] ->
  length r = length features ->
  (forall j, In j js -> (j < K)%nat /\ effective_count r j <> 0) ->
  for_each js (m_step_component (length features) features r) s
  = (Ok tt, updated_components features r D js s).
Proof.
  intros Hs Hf Hne Hr. revert s Hs.
  induction js as [|j js IH]; intros s Hs Hjs; [reflexivity|].
  destruct (Hjs j (or_introl eq_refl)) as [Hj HN].
  cbn [for_each].
  rewrite (bind_ok _ _ _ _ _
             (m_step_component_ok K D features r j s Hs Hf Hne Hr Hj HN)).
  apply IH.
  - apply updated_component_well_shaped. exact Hs.
  - intros j' Hin. apply Hjs. right. exact Hin.
Qed.

(** A loop of the M-step that ends normally met no zero effective count. *)
Lemma for_each_m_step_ok_inv (K D : nat) (features r : matrix) (js : list nat)
  (s s' : GMM) :
  well_shaped K D s -> feature_matrix D features -> features <> [] ->
  length r = length features -> (0 < D)%nat ->
  (forall j, In j js -> (j < K)%nat) ->
  for_each js (m_step_component (length features) features r) s = (Ok tt, s') ->
  (forall j, In j js -> effective_count r j <> 0)
  /\ s' = updated_components features r D js s.
Proof.
  intros Hs Hf Hne Hr HD. revert s Hs.
  induction js as [|j js IH]; intros s Hs Hjs Hrun.
  - cbn in Hrun. inversion Hrun. split; [intros j []| reflexivity].
  - pose proof (Hjs j (or_introl eq_refl)) as Hj.
    cbn [for_each] in Hrun.
    destruct (Req_dec_T (effective_count r j) 0) as [HN|HN].
    + rewrite (bind_raise _ _ _ _ _
                 (m_step_component_zero_count K D features r j s
                    Hs Hf Hne Hr Hj HD HN)) in Hrun.
      discriminate.
    + rewrite (bind_ok _ _ _ _ _
                 (m_step_component_ok K D features r j s Hs Hf Hne Hr Hj HN))
        in Hrun.
      destruct (IH _ (updated_component_well_shaped K D features r j s Hs)
                  (fun j' Hin => Hjs j' (or_intror Hin)) Hrun) as [Hall Heq].
      split; [|exact Heq].
      intros j' [<-|Hin]; auto.
Qed.

Lemma updated_components_snoc (features r : matrix) (D : nat) (js : list nat)
  (j : nat) (s : GMM) :
  updated_components features r D (js ++ [j]) s
  = updated_component features r D j (updated_components features r D js s).
Proof.
  unfold updated_components. rewrite fold_left_app. reflexivity.
Qed.

Lemma updated_components_epsilon (features r : matrix) (D : nat)
  (js : list nat) (s : GMM) :
  epsilon (updated_components features r D js s) = epsilon s.
Proof.
  revert s. induction js as [|j js IH]; intros s; [reflexivity|].
  change (epsilon (updated_components features r D js
                     (updated_component features r D j s)) = epsilon s).
  rewrite IH. reflexivity.
Qed.

Lemma updated_prefix_contents (K D : nat) (features r : matrix) (s : GMM)
  (k : nat) :
  well_shaped K D s -> (k <= K)%nat ->
  forall j, (j < K)%nat ->
    ((j < k)%nat ->
     component_updated features r D j
       (updated_components features r D (seq 0 k) s))
    /\ ((k <= j)%nat ->
        component_untouched j s (updated_components features r D (seq 0 k) s)).
Proof.
  intros Hs. induction k as [|k IH]; intros Hk j Hj.
  - split; [lia|]. intros _. repeat split.
  - rewrite seq_S, updated_components_snoc. cbn [Nat.add].
    pose proof (updated_components_well_shaped K D features r (seq 0 k) s Hs)
      as Hw.
    set (st := updated_components features r D (seq 0 k) s) in *.
    destruct (IH ltac:(lia) j Hj) as [IHdone IHrest].
    pose proof (ws_means _ _ _ Hw) as Hml.
    pose proof (ws_covariances _ _ _ Hw) as Hcl.
    pose proof (ws_mixing_probs _ _ _ Hw) as Hwl.
    unfold component_updated, component_untouched, updated_component.
    cbv zeta. cbn [means covariances mixing_probs with_means with_covariances
                   with_mixing_probs].
    destruct (Nat.eq_dec j k) as [->|Hne].
    + split; [intros _|lia].
      rewrite !update_nth_same by lia. repeat split.
    + rewrite !update_nth_other by lia. split; intros Hjk.
      * apply IHdone. lia.
      * apply IHrest. lia.
Qed.

(** C4: the M-step runs through the components in index order.  After the
    first [k] components have been processed, each of them has its new mean
    (Σ_i r_ij·x_i) / Nj, a covariance (Σ_i r_ij·(x_i-mean_j)(x_i-mean_j)ᵀ) / Nj
    computed from that new mean, and the weight Nj / N, while the
    components from [k] on are still untouched; with [k = K] this is the
    whole M-step. *)
Theorem m_step_sequential (K D : nat) (features r : matrix) (s : GMM) (k : nat) :
  well_shaped K D s -> feature_matrix D features -> features <> [] ->
  length r = length features -> (k <= K)%nat ->
  (forall j, (j < k)%nat -> effective_count r j <> 0) ->
  exists s',
    for_each (seq 0 k) (m_step_component (length features) features r) s
    = (Ok tt, s')
    /\ (k = K -> m_step (length features) features r s = (Ok tt, s'))
    /\ forall j, (j < K)%nat ->
         ((j < k)%nat -> component_updated features r D j s')
         /\ ((k <= j)%nat -> component_untouched j s s').
Proof.
  intros Hs Hf Hne Hr Hk HN.
  assert (Hrun : for_each (seq 0 k)
                   (m_step_component (length features) features r) s
                 = (Ok tt, updated_components features r D (seq 0 k) s)).
  { apply (for_each_m_step_ok K D); auto.
    intros j Hin. apply in_seq in Hin. split; [lia | apply HN; lia]. }
  exists (updated_components features r D (seq 0 k) s).
  split; [exact Hrun|]. split.
  - intros ->. unfold m_step. rewrite bind_get, (ws_components _ _ _ Hs).
    exact Hrun.
  - apply updated_prefix_contents; assumption.
Qed.

Lemma sample_effective_counts (j : nat) :
  (j < 2)%nat -> effective_count sample_responsibilities j <> 0.
Proof.
  intros Hj. destruct j as [|[|j]]; [| |lia];
    unfold effective_count, sample_responsibilities, column; simpl; lra.
Qed.

Lemma m_step_sequential_witness :
  exists s',
    for_each (seq 0 2)
      (m_step_component (length sample_features) sample_features
         sample_responsibilities) standard_model
    = (Ok tt, s')
    /\ (2%nat = 2%nat ->
        m_step (length sample_features) sample_features
          sample_responsibilities standard_model = (Ok tt, s'))
    /\ forall j, (j < 2)%nat ->
         ((j < 2)%nat ->
          component_updated sample_features sample_responsibilities 1 j s')
         /\ ((2 <= j)%nat -> component_untouched j standard_model s').
Proof.
  apply (m_step_sequential 2 1 sample_features sample_responsibilities
           standard_model 2).
  - exact standard_model_well_shaped.
  - repeat constructor.
  - discriminate.
  - reflexivity.
  - lia.
  - exact sample_effective_counts.
Defined.

(** ** One iteration of [fit] *)

Lemma read_only_density_pass (features : matrix) :
  read_only (density_pass features).
Proof. unfold density_pass, density_row. read_only_tac. Qed.

Lemma read_only_estimate_log_likelihood (n : nat) (nd : matrix) :
  read_only (estimate_log_likelihood n nd).
Proof. unfold estimate_log_likelihood. read_only_tac. Qed.

Lemma read_only_e_step (nd : matrix) : read_only (e_step nd).
Proof. unfold e_step, e_step_row. read_only_tac. Qed.

Lemma read_only_result {A : Type} (m : M A) (s s' : GMM) (r : result A) :
  read_only m -> m s = (r, s') -> s' = s.
Proof.
  intros Hm H. specialize (Hm s). rewrite H in Hm. exact Hm.
Qed.

Lemma mapS_read_only_inv {A B : Type} (f : A -> M B) (l : list A) (bs : list B)
  (s s' : GMM) :
  (forall a, read_only (f a)) ->
  mapS f l s = (Ok bs, s') ->
  s' = s /\ Forall2 (fun a b => f a s = (Ok b, s)) l bs.
Proof.
  intros Hf. revert bs s'. induction l as [|a l IH]; intros bs s' H.
  - cbn in H. inversion H; subst. split; [reflexivity | constructor].
  - cbn [mapS] in H.
    apply bind_ok_inv in H. destruct H as [b [s1 [Hb H]]].
    pose proof (read_only_result _ _ _ _ (Hf a) Hb). subst s1.
    apply bind_ok_inv in H. destruct H as [bs' [s2 [Hbs H]]].
    destruct (IH _ _ Hbs) as [-> HF].
    cbn in H. inversion H; subst. split; [reflexivity|].
    constructor; assumption.
Qed.

Lemma Forall2_length_eq {A B : Type} (P : A -> B -> Prop) (l : list A)
  (l' : list B) :
  Forall2 P l l' -> length l' = length l.
Proof. induction 1; simpl; congruence. Qed.

Lemma Forall2_Forall_r {A B : Type} (P : A -> B -> Prop) (Q : B -> Prop)
  (l : list A) (l' : list B) :
  Forall2 P l l' -> (forall a b, P a b -> Q b) -> Forall Q l'.
Proof. induction 1; intros H'; constructor; eauto. Qed.

(** A density that comes out as a real number is positive. *)
Lemma pdf_ok_pos (self : GMM) (x mean : vector) (cov : matrix) (v : R) :
  multivariate_normal_pdf self x mean cov = Ok v -> 0 < v.
Proof.
  unfold multivariate_normal_pdf.
  destruct (vsub x mean) as [c|]; cbn [rbind]; [|discriminate].
  destruct (linalg_inv cov) as [b|]; cbn [rbind]; [|discriminate].
  destruct (linalg_det cov) as [d|]; cbn [rbind]; [|discriminate].
  destruct (dot_vm c b) as [t|]; cbn [rbind]; [|discriminate].
  destruct (dot t c) as [q|]; cbn [rbind]; [|discriminate].
  unfold fsqrt. destruct (Rlt_dec _ 0) as [|Hge]; cbn [rbind]; [discriminate|].
  unfold fdiv. destruct (Req_dec_T _ 0) as [|Hne]; [discriminate|].
  intros H. inversion H; subst.
  apply Rdiv_lt_0_compat; [apply exp_pos|].
  pose proof (sqrt_pos (d * (2 * PI) ^ no_components self)). lra.
Qed.

Lemma density_row_inv (x row : vector) (s s' : GMM) :
  density_row x s = (Ok row, s') ->
  s' = s /\ length row = no_components s /\ Forall (fun d => 0 < d) row.
Proof.
  unfold density_row. rewrite bind_get. intros H.
  apply mapS_read_only_inv in H; [|intros j; read_only_tac].
  destruct H as [-> HF]. split; [reflexivity|]. split.
  - rewrite (Forall2_length_eq _ _ _ HF), length_seq. reflexivity.
  - eapply Forall2_Forall_r; [exact HF|]. cbv beta. intros j d Hd.
    apply bind_ok_inv in Hd. destruct Hd as [m [s1 [_ Hd]]].
    apply bind_ok_inv in Hd. destruct Hd as [c [s2 [_ Hd]]].
    unfold pdf in Hd. inversion Hd. eapply pdf_ok_pos; eauto.
Qed.

Lemma density_pass_inv (features nd : matrix) (s s' : GMM) :
  density_pass features s = (Ok nd, s') ->
  s' = s /\ length nd = length features /\ density_matrix (no_components s) nd.
Proof.
  unfold density_pass. intros H.
  apply mapS_read_only_inv in H.
  2:{ intros x. unfold density_row. read_only_tac. }
  destruct H as [-> HF]. split; [reflexivity|]. split.
  - apply (Forall2_length_eq _ _ _ HF).
  - eapply Forall2_Forall_r; [exact HF|]. cbv beta. intros x row Hrow.
    apply density_row_inv in Hrow. tauto.
Qed.

Lemma mapM_Forall2 {A B : Type} (f : A -> result B) (l : list A) (l' : list B) :
  mapM f l = Ok l' -> Forall2 (fun a b => f a = Ok b) l l'.
Proof.
  revert l'; induction l as [|a l IH]; simpl; intros l' H.
  - inversion H. constructor.
  - destruct (f a) as [b|] eqn:Hf; cbn [rbind] in H; [|discriminate].
    destruct (mapM f l) as [bs|]; cbn [rbind] in H; [|discriminate].
    inversion H; subst. constructor; auto.
Qed.

Lemma Forall2_map_l {A B C : Type} (P : B -> C -> Prop) (f : A -> B)
  (l : list A) (l' : list C) :
  Forall2 (fun a c => P (f a) c) l l' -> Forall2 P (map f l) l'.
Proof. induction 1; simpl; constructor; auto. Qed.

Lemma Forall2_eq_map {A B : Type} (f : A -> B) (l : list A) (l' : list B) :
  Forall2 (fun a b => b = f a) l l' -> l' = map f l.
Proof. induction 1; simpl; congruence. Qed.

Lemma Forall2_impl {A B : Type} (P Q : A -> B -> Prop) (l : list A) (l' : list B) :
  (forall a b, P a b -> Q a b) -> Forall2 P l l' -> Forall2 Q l l'.
Proof. intros H. induction 1; constructor; auto. Qed.

Lemma Forall2_Forall_l {A B : Type} (P : A -> B -> Prop) (Q : A -> Prop)
  (l : list A) (l' : list B) :
  Forall2 P l l' -> (forall a b, P a b -> Q a) -> Forall Q l.
Proof. induction 1; intros H'; constructor; eauto. Qed.

(** A log-likelihood that comes out as a real number is the sum of the
    logarithms of the mixture densities, all of which are positive. *)
Lemma estimate_log_likelihood_inv (n : nat) (nd : matrix) (s s' : GMM) (ll : R) :
  estimate_log_likelihood n nd s = (Ok ll, s') ->
  s' = s
  /\ Forall (fun row => length (mixing_probs s) = length row
                        /\ 0 < mixture (mixing_probs s) row) nd
  /\ (n = length nd ->
      ll = rsum (map (fun row => ln (mixture (mixing_probs s) row)) nd)).
Proof.
  unfold estimate_log_likelihood. rewrite bind_get. intros H.
  apply bind_ok_inv in H. destruct H as [mix [s1 [Hmix H]]].
  apply lift_ok_inv in Hmix. destruct Hmix as [Hmix ->].
  apply bind_ok_inv in H. destruct H as [logs [s2 [Hlogs H]]].
  apply lift_ok_inv in Hlogs. destruct Hlogs as [Hlogs ->].
  apply lift_ok_inv in H. destruct H as [Hll ->].
  split; [reflexivity|].
  apply mapM_Forall2 in Hmix. apply mapM_Forall2 in Hlogs.
  assert (Hmixeq : mix = map (mixture (mixing_probs s)) nd).
  { apply Forall2_eq_map. eapply Forall2_impl; [|exact Hmix].
    cbv beta. intros row m Hd. apply dot_ok_inv in Hd. tauto. }
  subst mix. split.
  - apply Forall2_Forall_l with (Q := fun m => 0 < m) in Hlogs.
    2:{ intros m l Hl. apply flog_ok_inv in Hl. tauto. }
    rewrite Forall_map in Hlogs.
    apply Forall2_Forall_l
      with (Q := fun row => length (mixing_probs s) = length row) in Hmix.
    2:{ intros row m Hd. apply dot_ok_inv in Hd. tauto. }
    rewrite Forall_forall in *. intros row Hin. split; auto.
  - intros Hn.
    assert (Hlogseq : logs = map ln (map (mixture (mixing_probs s)) nd)).
    { apply Forall2_eq_map. eapply Forall2_impl; [|exact Hlogs].
      cbv beta. intros m l Hl. apply flog_ok_inv in Hl. tauto. }
    assert (Hlen : n = length logs)
      by (rewrite Hlogseq, !length_map; exact Hn).
    rewrite Hlen, dot_ones in Hll. inversion Hll.
    rewrite Hlogseq, map_map. reflexivity.
Qed.

Lemma e_step_row_ok (K : nat) (row : vector) (s : GMM) :
  no_components s = K -> length (mixing_probs s) = K -> length row = K ->
  mixture (mixing_probs s) row <> 0 ->
  e_step_row row s = (Ok (responsibility_row (mixing_probs s) K row), s).
Proof.
  intros HK Hw Hrow Hmix. unfold e_step_row.
  rewrite bind_get.
  rewrite (bind_lift_ok _ _ _ _
             (dot_ok (mixing_probs s) row ltac:(congruence))).
  rewrite bind_get, HK.
  apply mapS_pure. intros j Hin. apply in_seq in Hin.
  rewrite (bind_ok _ _ _ _ _ (read_mixing_prob_ok j s ltac:(lia))).
  rewrite (bind_lift_ok _ _ _ _ (index_ok row j 0 ltac:(lia))).
  unfold lift. rewrite fdiv_ok by exact Hmix. reflexivity.
Qed.

Lemma e_step_ok (K : nat) (nd : matrix) (s : GMM) :
  no_components s = K -> length (mixing_probs s) = K ->
  Forall (fun row => length row = K /\ mixture (mixing_probs s) row <> 0) nd ->
  e_step nd s = (Ok (map (responsibility_row (mixing_probs s) K) nd), s).
Proof.
  intros HK Hw Hnd. unfold e_step. apply mapS_pure. intros row Hin.
  rewrite Forall_forall in Hnd. destruct (Hnd row Hin) as [Hrow Hmix].
  apply e_step_row_ok; assumption.
Qed.

Lemma read_only_log_likelihood (features : matrix) :
  read_only (log_likelihood features).
Proof.
  unfold log_likelihood. apply read_only_bind.
  - apply read_only_density_pass.
  - intros nd. apply read_only_estimate_log_likelihood.
Qed.

Lemma log_likelihood_ok_inv (features : matrix) (s s' : GMM) (ll : R) :
  log_likelihood features s = (Ok ll, s') ->
  s' = s /\ exists nd,
    density_pass features s = (Ok nd, s)
    /\ estimate_log_likelihood (length features) nd s = (Ok ll, s).
Proof.
  intros H. pose proof (read_only_result _ _ _ _
                          (read_only_log_likelihood features) H). subst s'.
  split; [reflexivity|]. unfold log_likelihood in H.
  apply bind_ok_inv in H. destruct H as [nd [s1 [Hnd H]]].
  pose proof (read_only_result _ _ _ _ (read_only_density_pass features) Hnd).
  subst s1. eauto.
Qed.

Lemma iteration_stop (features : matrix) (old ll : R) (s s' : GMM) :
  log_likelihood features s = (Ok ll, s') ->
  Rabs (ll - old) < epsilon s ->
  iteration features old s = (Ok None, s).
Proof.
  intros H Hlt. apply log_likelihood_ok_inv in H.
  destruct H as [-> [nd [Hnd Hll]]].
  unfold iteration. cbv zeta.
  rewrite (bind_ok _ _ _ _ _ Hnd), (bind_ok _ _ _ _ _ Hll), bind_get.
  destruct (Rlt_dec (Rabs (ll - old)) (epsilon s)); [reflexivity | contradiction].
Qed.

Lemma iteration_continue (features : matrix) (old ll : R) (s s' : GMM) :
  log_likelihood features s = (Ok ll, s') ->
  ~ Rabs (ll - old) < epsilon s ->
  iteration features old s
  = match em_update features s with
    | (Ok _, s1) => (Ok (Some ll), s1)
    | (Raise e, s1) => (Raise e, s1)
    end.
Proof.
  intros H Hge. apply log_likelihood_ok_inv in H.
  destruct H as [-> [nd [Hnd Hll]]].
  unfold iteration, em_update. cbv zeta.
  rewrite !(bind_ok _ _ _ _ _ Hnd), (bind_ok _ _ _ _ _ Hll), bind_get.
  destruct (Rlt_dec (Rabs (ll - old)) (epsilon s)); [contradiction|].
  unfold bind. destruct (e_step nd s) as [[r|e] s1]; [|reflexivity].
  destruct (m_step (length features) features r s1) as [[[]|e] s2]; reflexivity.
Qed.

Lemma iteration_raise (features : matrix) (old : R) (s s' : GMM) (e : error) :
  log_likelihood features s = (Raise e, s') ->
  iteration features old s = (Raise e, s).
Proof.
  intros H. pose proof (read_only_result _ _ _ _
                          (read_only_log_likelihood features) H). subst s'.
  unfold iteration, log_likelihood in *. cbv zeta.
  unfold bind at 1 in H. unfold bind at 1.
  destruct (density_pass features s) as [[nd|e1] s1] eqn:Hnd.
  - unfold bind at 1. rewrite H. reflexivity.
  - inversion H. reflexivity.
Qed.

Lemma iteration_ok_inv (features : matrix) (old : R) (s s' : GMM)
  (next : option R) :
  iteration features old s = (Ok next, s') ->
  exists ll,
    log_likelihood features s = (Ok ll, s)
    /\ ((next = None /\ Rabs (ll - old) < epsilon s /\ s' = s)
        \/ (next = Some ll /\ ~ Rabs (ll - old) < epsilon s
            /\ em_update features s = (Ok tt, s'))).
Proof.
  intros H.
  destruct (log_likelihood features s) as [[ll|e] s1] eqn:Hll.
  - pose proof (read_only_result _ _ _ _
                  (read_only_log_likelihood features) Hll). subst s1.
    exists ll. split; [reflexivity|].
    destruct (Rlt_dec (Rabs (ll - old)) (epsilon s)) as [Hlt|Hge].
    + rewrite (iteration_stop _ _ _ _ _ Hll Hlt) in H. inversion H; subst.
      left. auto.
    + rewrite (iteration_continue _ _ _ _ _ Hll Hge) in H.
      destruct (em_update features s) as [[[]|e] s1]; inversion H; subst.
      right. auto.
  - rewrite (iteration_raise _ _ _ _ _ Hll) in H. discriminate.
Qed.

(** *** Zero denominators

    Where the source would divide by zero the modelled run ends with
    [NonFinite].  A mixture density that is not positive already stops the
    run at the logarithm of line 45, before the division of the E-step; a
    zero effective count stops it at the division of line 67
    ([m_step_component_zero_count]).  Either way no parameter has been
    written by the failing step. *)

Lemma mapM_flog_not_positive (l : list R) :
  Exists (fun a => a <= 0) l -> mapM flog l = Raise NonFinite.
Proof.
  induction 1 as [a l Ha | a l Hex IH]; cbn [mapM].
  - unfold flog. destruct (Rlt_dec 0 a); [lra | reflexivity].
  - unfold flog at 1. destruct (Rlt_dec 0 a); cbn [rbind]; [|reflexivity].
    rewrite IH. reflexivity.
Qed.

Lemma iteration_zero_mixture (features nd : matrix) (old : R) (s : GMM) :
  density_pass features s = (Ok nd, s) ->
  Forall (fun row => length row = length (mixing_probs s)) nd ->
  Exists (fun row => mixture (mixing_probs s) row <= 0) nd ->
  iteration features old s = (Raise NonFinite, s).
Proof.
  intros Hnd Hlen Hzero.
  apply (iteration_raise features old s s NonFinite).
  unfold log_likelihood. rewrite (bind_ok _ _ _ _ _ Hnd).
  unfold estimate_log_likelihood. rewrite bind_get.
  rewrite (bind_lift_ok _ _ _ (map (mixture (mixing_probs s)) nd)).
  - apply bind_lift_raise. apply mapM_flog_not_positive.
    apply Exists_exists in Hzero. destruct Hzero as [row [Hin Hle]].
    apply Exists_exists. exists (mixture (mixing_probs s) row).
    split; [apply in_map; exact Hin | exact Hle].
  - apply mapM_ok_map. intros row Hin. apply dot_ok.
    rewrite Forall_forall in Hlen. symmetry. apply Hlen. exact Hin.
Qed.

(** ** The loop of [fit] *)

Lemma fit_loop_run (features : matrix) (fuel : nat) (old : R) (s s' : GMM) :
  fit_loop fuel features old s = Some (Ok tt, s') -> fit_run features old s s'.
Proof.
  revert old s. induction fuel as [|fuel IH]; intros old s H; [discriminate|].
  cbn [fit_loop] in H.
  destruct (iteration features old s) as [[[ll|]|e] s1] eqn:Hit;
    [| |discriminate].
  - apply iteration_ok_inv in Hit. destruct Hit as [ll' [Hll [Hstop|Hgo]]].
    + destruct Hstop as [Hnone _]. discriminate.
    + destruct Hgo as [Hsome [Hge Hem]]. inversion Hsome; subst ll'.
      eapply run_iterate; eauto.
  - apply iteration_ok_inv in Hit. destruct Hit as [ll' [Hll [Hstop|Hgo]]].
    + destruct Hstop as [_ [Hlt ->]]. inversion H; subst.
      eapply run_break; eauto.
    + destruct Hgo as [Hsome _]. discriminate.
Qed.

Lemma fit_run_loop (features : matrix) (old : R) (s s' : GMM) :
  fit_run features old s s' ->
  exists fuel, fit_loop fuel features old s = Some (Ok tt, s').
Proof.
  induction 1 as [old ll s Hll Hlt | old ll s s1 s' Hll Hge Hem Hrun [fuel IH]].
  - exists 1%nat. cbn [fit_loop].
    rewrite (iteration_stop _ _ _ _ _ Hll Hlt). reflexivity.
  - exists (S fuel). cbn [fit_loop].
    rewrite (iteration_continue _ _ _ _ _ Hll Hge), Hem. exact IH.
Qed.

(** The parameters with which the loop is left passed the convergence
    test themselves. *)
Lemma fit_run_final (features : matrix) (old : R) (s s' : GMM) :
  fit_run features old s s' ->
  exists previous ll,
    log_likelihood features s' = (Ok ll, s')
    /\ Rabs (ll - previous) < epsilon s'.
Proof.
  induction 1; eauto.
Qed.

(** C3: [fit] starts with a previous log-likelihood of 0, leaves the loop
    exactly when |logLikelihood - previousLogLikelihood| < epsilon, and does
    so before the E-step and the M-step of that iteration: the parameters
    it returns are those whose log-likelihood passed the test. *)
Theorem fit_stops_exactly_when_converged (features : matrix) (s s' : GMM) :
  ((exists fuel, fit fuel features s = Some (Ok tt, s'))
   <-> fit_run features 0 s s')
  /\ (forall fuel, fit fuel features s = fit_loop fuel features 0 s)
  /\ (forall fuel old ll,
        log_likelihood features s = (Ok ll, s) ->
        (Rabs (ll - old) < epsilon s ->
         fit_loop (S fuel) features old s = Some (Ok tt, s))
        /\ (~ Rabs (ll - old) < epsilon s ->
            fit_loop (S fuel) features old s
            = match em_update features s with
              | (Ok _, s1) => fit_loop fuel features ll s1
              | (Raise e, s1) => Some (Raise e, s1)
              end))
  /\ ((exists fuel, fit fuel features s = Some (Ok tt, s')) ->
      exists previous ll,
        log_likelihood features s' = (Ok ll, s')
        /\ Rabs (ll - previous) < epsilon s').
Proof.
  split; [|split; [|split]].
  - split.
    + intros [fuel H]. eapply fit_loop_run; eauto.
    + apply fit_run_loop.
  - reflexivity.
  - intros fuel old ll Hll. split; intros Hcmp; cbn [fit_loop].
    + rewrite (iteration_stop _ _ _ _ _ Hll Hcmp). reflexivity.
    + rewrite (iteration_continue _ _ _ _ _ Hll Hcmp).
      destruct (em_update features s) as [[[]|e] s1]; reflexivity.
  - intros [fuel H]. apply fit_loop_run in H. eapply fit_run_final; eauto.
Qed.

(** ** What an E-step followed by an M-step establishes *)

Lemma em_update_ok_inv (K D : nat) (features : matrix) (s s' : GMM) (ll : R) :
  well_shaped K D s -> feature_matrix D features -> features <> [] ->
  (0 < D)%nat ->
  log_likelihood features s = (Ok ll, s) ->
  em_update features s = (Ok tt, s') ->
  exists nd,
    length nd = length features
    /\ density_matrix K nd
    /\ Forall (fun row => 0 < mixture (mixing_probs s) row) nd
    /\ (forall j, (j < K)%nat ->
          effective_count (map (responsibility_row (mixing_probs s) K) nd) j <> 0)
    /\ s' = updated_components features
              (map (responsibility_row (mixing_probs s) K) nd) D (seq 0 K) s.
Proof.
  intros Hs Hf Hne HD Hll Hem.
  apply log_likelihood_ok_inv in Hll. destruct Hll as [_ [nd [Hnd Hest]]].
  destruct (density_pass_inv _ _ _ _ Hnd) as [_ [Hlen Hdm]].
  rewrite (ws_components _ _ _ Hs) in Hdm.
  apply estimate_log_likelihood_inv in Hest. destruct Hest as [_ [Hmix _]].
  assert (Hpos : Forall (fun row => 0 < mixture (mixing_probs s) row) nd).
  { rewrite Forall_forall in *. intros row Hin. apply Hmix. exact Hin. }
  exists nd. split; [exact Hlen|]. split; [exact Hdm|]. split; [exact Hpos|].
  unfold em_update in Hem. rewrite (bind_ok _ _ _ _ _ Hnd) in Hem.
  rewrite (bind_ok _ _ _ _ _
             (e_step_ok K nd s (ws_components _ _ _ Hs)
                (ws_mixing_probs _ _ _ Hs)
                ltac:(unfold density_matrix in Hdm; rewrite Forall_forall in *;
                      intros row Hin; split;
                      [apply Hdm; exact Hin
                      | pose proof (Hpos row Hin); lra]))) in Hem.
  unfold m_step in Hem. rewrite bind_get, (ws_components _ _ _ Hs) in Hem.
  apply (for_each_m_step_ok_inv K D) in Hem; auto.
  - destruct Hem as [HN ->]. split; [|reflexivity].
    intros j Hj. apply HN. apply in_seq. lia.
  - rewrite length_map. exact Hlen.
  - intros j Hin. apply in_seq in Hin. lia.
Qed.

Lemma responsibility_row_sum (w : vector) (K : nat) (row : vector) :
  length w = K -> length row = K -> mixture w row <> 0 ->
  rsum (responsibility_row w K row) = 1.
Proof.
  intros Hw Hrow Hmix. unfold responsibility_row.
  unfold Rdiv. rewrite rsum_map_mult_r.
  replace (rsum (map (fun j => nth j w 0 * nth j row 0) (seq 0 K)))
    with (mixture w row).
  - field. exact Hmix.
  - unfold mixture. rewrite (zip_with_as_map_seq Rmult 0 0) by congruence.
    rewrite Hw. reflexivity.
Qed.

Lemma responsibility_row_nonneg (w : vector) (K : nat) (row : vector) :
  Forall (fun a => 0 <= a) w -> length w = K ->
  length row = K -> Forall (fun d => 0 < d) row ->
  0 < mixture w row ->
  Forall (fun a => 0 <= a) (responsibility_row w K row).
Proof.
  intros Hw Hlw Hlr Hrow Hmix. unfold responsibility_row.
  apply Forall_forall. intros a Hin. apply in_map_iff in Hin.
  destruct Hin as [j [<- Hj]]. apply in_seq in Hj.
  rewrite Forall_forall in Hw, Hrow.
  pose proof (Hw (nth j w 0) ltac:(apply nth_In; lia)).
  pose proof (Hrow (nth j row 0) ltac:(apply nth_In; lia)).
  apply Rmult_le_pos; [nra|]. left. apply Rinv_0_lt_compat. exact Hmix.
Qed.

(** The effective counts add up to the sum of all responsibilities. *)
Lemma effective_count_total (K : nat) (r : matrix) :
  Forall (fun row => length row = K) r ->
  rsum (map (effective_count r) (seq 0 K)) = rsum (map rsum r).
Proof.
  intros Hr. unfold effective_count, column.
  rewrite <- (rsum_swap (fun row j => nth j row 0) r (seq 0 K)).
  apply rsum_map_ext. intros row Hin. rewrite Forall_forall in Hr.
  rewrite <- (Hr row Hin), <- list_as_map_seq. reflexivity.
Qed.

Lemma rsum_member_le (l : list R) (a : R) :
  Forall (fun b => 0 <= b) l -> In a l -> a <= rsum l.
Proof.
  induction 1 as [|b l Hb Hl IH]; intros Hin; [contradiction|].
  pose proof (rsum_nonneg l Hl). simpl.
  destruct Hin as [->|Hin]; [lra | specialize (IH Hin); lra].
Qed.

Section Responsibilities.

Variables (K : nat) (w : vector) (nd : matrix).

Hypothesis Hw : length w = K.
Hypothesis Hnd : density_matrix K nd.
Hypothesis Hmix : Forall (fun row => 0 < mixture w row) nd.

Let r := map (responsibility_row w K) nd.

Lemma responsibilities_rect : Forall (fun row => length row = K) r.
Proof.
  unfold r. apply Forall_forall. intros row Hin. apply in_map_iff in Hin.
  destruct Hin as [d [<- _]]. unfold responsibility_row.
  rewrite length_map, length_seq. reflexivity.
Qed.

Lemma responsibilities_total :
  rsum (map (effective_count r) (seq 0 K)) = INR (length nd).
Proof.
  rewrite (effective_count_total K r responsibilities_rect).
  unfold r. rewrite map_map.
  rewrite (rsum_map_ext _ (fun _ => 1)).
  - rewrite rsum_map_const. apply Rmult_1_r.
  - intros row Hin. unfold density_matrix in Hnd.
    rewrite Forall_forall in Hnd, Hmix.
    apply responsibility_row_sum; auto.
    + apply Hnd. exact Hin.
    + pose proof (Hmix row Hin). lra.
Qed.

Lemma effective_count_nonneg (j : nat) :
  Forall (fun a => 0 <= a) w -> 0 <= effective_count r j.
Proof.
  intros Hpos. unfold effective_count, column. apply rsum_nonneg.
  apply Forall_forall. intros a Hin. apply in_map_iff in Hin.
  destruct Hin as [row [<- Hin]].
  unfold r in Hin. apply in_map_iff in Hin. destruct Hin as [d [<- Hin]].
  unfold density_matrix in Hnd. rewrite Forall_forall in Hnd, Hmix.
  destruct (Hnd d Hin) as [Hlen Hd].
  pose proof (responsibility_row_nonneg w K d Hpos Hw Hlen Hd (Hmix d Hin))
    as Hrow.
  rewrite Forall_forall in Hrow.
  destruct (Nat.lt_ge_cases j (length (responsibility_row w K d))) as [Hj|Hj].
  - apply Hrow. apply nth_In. exact Hj.
  - rewrite nth_overflow by exact Hj. lra.
Qed.

End Responsibilities.

(** The mixing weights after the M-step, as a list. *)
Lemma updated_mixing_probs (K D : nat) (features r : matrix) (s : GMM) :
  well_shaped K D s ->
  mixing_probs (updated_components features r D (seq 0 K) s)
  = map (fun j => effective_count r j / INR (length features)) (seq 0 K).
Proof.
  intros Hs.
  pose proof (updated_components_well_shaped K D features r (seq 0 K) s Hs) as Hw.
  rewrite (list_as_map_seq 0 (mixing_probs _)), (ws_mixing_probs _ _ _ Hw).
  apply map_seq_ext. intros j Hj.
  destruct (updated_prefix_contents K D features r s K Hs (le_n K) j Hj)
    as [Hdone _].
  destruct (Hdone Hj) as [_ [_ Hweight]]. exact Hweight.
Qed.

Lemma em_update_mixing_probs (K D : nat) (features : matrix) (s s' : GMM)
  (ll : R) :
  well_shaped K D s -> feature_matrix D features -> features <> [] ->
  (0 < D)%nat ->
  log_likelihood features s = (Ok ll, s) ->
  em_update features s = (Ok tt, s') ->
  well_shaped K D s'
  /\ rsum (mixing_probs s') = 1
  /\ (nonnegative (mixing_probs s) -> normalised (mixing_probs s')).
Proof.
  intros Hs Hf Hne HD Hll Hem.
  destruct (em_update_ok_inv K D features s s' ll Hs Hf Hne HD Hll Hem)
    as [nd [Hlen [Hdm [Hmix [HN ->]]]]].
  pose proof (ws_mixing_probs _ _ _ Hs) as Hw.
  set (r := map (responsibility_row (mixing_probs s) K) nd) in *.
  assert (Hn : INR (length features) <> 0)
    by (apply INR_length_nonzero; exact Hne).
  assert (Hsum : rsum (mixing_probs (updated_components features r D (seq 0 K) s))
                 = 1).
  { rewrite (updated_mixing_probs K D) by exact Hs.
    unfold Rdiv. rewrite rsum_map_mult_r.
    unfold r. rewrite (responsibilities_total K (mixing_probs s) nd Hw Hdm Hmix).
    rewrite Hlen. field. exact Hn. }
  split; [apply updated_components_well_shaped; exact Hs|].
  split; [exact Hsum|].
  intros Hpos.
  assert (Hall : nonnegative
                   (mixing_probs (updated_components features r D (seq 0 K) s))).
  { rewrite (updated_mixing_probs K D) by exact Hs.
    apply Forall_forall. intros a Hin. apply in_map_iff in Hin.
    destruct Hin as [j [<- _]].
    pose proof (effective_count_nonneg K (mixing_probs s) nd Hw Hdm Hmix j Hpos).
    fold r in H. apply Rmult_le_pos; [exact H|].
    left. apply Rinv_0_lt_compat.
    pose proof (pos_INR (length features)). lra. }
  split; [|exact Hsum].
  apply Forall_forall. intros a Hin. split.
  - unfold nonnegative in Hall. rewrite Forall_forall in Hall. auto.
  - rewrite <- Hsum. apply rsum_member_le; assumption.
Qed.

Lemma normalised_nonnegative (v : vector) : normalised v -> nonnegative v.
Proof.
  intros [H _]. unfold nonnegative. rewrite Forall_forall in *.
  intros a Hin. apply H. exact Hin.
Qed.

Lemma weighted_covariance_symmetric (features r : matrix) (D j : nat)
  (mu : vector) :
  symmetric (weighted_covariance features r D j mu).
Proof.
  destruct (weighted_covariance_shape features r D j mu) as [Hlen Hrect].
  split.
  - unfold is_square. rewrite Hlen. apply is_rect_spec. exact Hrect.
  - rewrite Hlen. intros a b Ha Hb. unfold weighted_covariance.
    rewrite !(nth_map_seq _ []) by assumption.
    rewrite !nth_map_seq by assumption.
    f_equal. apply rsum_seq_ext. intros i _. ring.
Qed.

Lemma em_update_covariances (K D : nat) (features : matrix) (s s' : GMM)
  (ll : R) :
  well_shaped K D s -> feature_matrix D features -> features <> [] ->
  (0 < D)%nat ->
  log_likelihood features s = (Ok ll, s) ->
  em_update features s = (Ok tt, s') ->
  Forall symmetric (covariances s').
Proof.
  intros Hs Hf Hne HD Hll Hem.
  destruct (em_update_ok_inv K D features s s' ll Hs Hf Hne HD Hll Hem)
    as [nd [_ [_ [_ [_ ->]]]]].
  set (r := map (responsibility_row (mixing_probs s) K) nd).
  pose proof (updated_components_well_shaped K D features r (seq 0 K) s Hs) as Hw.
  apply Forall_forall. intros c Hin.
  destruct (In_nth _ _ ([] : matrix) Hin) as [j [Hj <-]].
  rewrite (ws_covariances _ _ _ Hw) in Hj.
  destruct (updated_prefix_contents K D features r s K Hs (le_n K) j Hj)
    as [Hdone _].
  destruct (Hdone Hj) as [_ [Hcov _]]. rewrite Hcov.
  apply weighted_covariance_symmetric.
Qed.

(** A property that every E-step and M-step carries over holds when the
    loop is left. *)
Lemma fit_run_preserves (features : matrix) (P : GMM -> Prop) :
  (forall s ll s1,
      P s -> log_likelihood features s = (Ok ll, s) ->
      em_update features s = (Ok tt, s1) -> P s1) ->
  forall old s s', fit_run features old s s' -> P s -> P s'.
Proof.
  intros Hstep old s s' Hrun.
  induction Hrun as [old ll s Hll Hlt | old ll s s1 s' Hll Hge Hem Hrun IH];
    intros HP; [exact HP|].
  apply IH. eapply Hstep; eauto.
Qed.

(** The same for a property the first E-step and M-step establish. *)
Lemma fit_establishes (features : matrix) (Q P : GMM -> Prop) :
  (forall s ll s1,
      Q s -> log_likelihood features s = (Ok ll, s) ->
      em_update features s = (Ok tt, s1) -> P s1) ->
  (forall s, P s -> Q s) ->
  forall fuel ll s s1 s',
    Q s ->
    iteration features 0 s = (Ok (Some ll), s1) ->
    fit (S fuel) features s = Some (Ok tt, s') ->
    P s'.
Proof.
  intros Hstep HPQ fuel ll s s1 s' HQ Hit Hfit.
  unfold fit in Hfit. cbn [fit_loop] in Hfit. rewrite Hit in Hfit.
  apply fit_loop_run in Hfit.
  apply iteration_ok_inv in Hit. destruct Hit as [ll' [Hll [Hstop|Hgo]]].
  - destruct Hstop as [Hnone _]. discriminate.
  - destruct Hgo as [_ [_ Hem]].
    apply (fit_run_preserves features P) with (old := ll) (s := s1); auto.
    + intros t l t1 HPt. apply Hstep. apply HPQ. exact HPt.
    + eapply Hstep; eauto.
Qed.

Lemma early_model_well_shaped : well_shaped 1 1 early_model.
Proof.
  constructor; try reflexivity; cbn; try lia; repeat constructor.
Qed.

(** A run of the loop either leaves the parameters as they were or ends in
    a state an M-step has produced. *)
Lemma fit_run_reaches (features : matrix) (old : R) (s s' : GMM) :
  fit_run features old s s' -> s' = s \/ m_step_reaches features s s'.
Proof.
  induction 1 as [old ll s Hll Hlt | old ll s s1 s' Hll Hge Hem Hrun IH].
  - left. reflexivity.
  - right. destruct IH as [->|IH].
    + eapply reaches_first; eauto.
    + eapply reaches_next; eauto.
Qed.

Lemma m_step_reaches_establishes (features : matrix) (Q P : GMM -> Prop) :
  (forall s ll s1,
      Q s -> log_likelihood features s = (Ok ll, s) ->
      em_update features s = (Ok tt, s1) -> P s1) ->
  (forall s, P s -> Q s) ->
  forall s t, m_step_reaches features s t -> Q s -> P t.
Proof.
  intros Hstep HPQ s t Hreach.
  induction Hreach as [s s1 ll Hll Hem | s s1 t ll Hll Hem Hreach IH];
    intros HQ.
  - eapply Hstep; eauto.
  - apply IH. apply HPQ. eapply Hstep; eauto.
Qed.

(** ** Runs on parameters with positive determinants *)

Lemma density_row_ok (K D : nat) (s : GMM) (x : vector) :
  component_shapes K D s -> positive_determinants s -> length x = D ->
  density_row x s = (Ok (map (density s x) (seq 0 (no_components s))), s)
  /\ Forall (fun d => 0 < d) (map (density s x) (seq 0 (no_components s))).
Proof.
  intros Hs Hdet Hx.
  pose proof (cs_means _ _ _ Hs) as Hml.
  pose proof (cs_covariances _ _ _ Hs) as Hcl.
  pose proof (cs_mean_dim _ _ _ Hs) as Hmd.
  pose proof (cs_covariance_dim _ _ _ Hs) as Hcd.
  rewrite Forall_forall in Hmd, Hcd.
  assert (Hpdf : forall j, (j < K)%nat ->
            multivariate_normal_pdf s x (nth j (means s) [])
              (nth j (covariances s) []) = Ok (density s x j)
            /\ 0 < density s x j).
  { intros j Hj.
    destruct (Hcd (nth j (covariances s) []) ltac:(apply nth_In; lia))
      as [Hcl' Hcr].
    pose proof (Hmd (nth j (means s) []) ltac:(apply nth_In; lia)) as Hm.
    destruct (pdf_value s x (nth j (means s) []) (nth j (covariances s) []))
      as [_ [Hval Hpos]]; try congruence.
    - unfold is_square. rewrite Hcl'. exact Hcr.
    - apply Hdet. apply nth_In. lia.
    - split; [exact Hval | exact Hpos]. }
  rewrite (cs_components _ _ _ Hs). split.
  - unfold density_row. rewrite bind_get, (cs_components _ _ _ Hs).
    apply mapS_pure. intros j Hin. apply in_seq in Hin.
    rewrite (bind_ok _ _ _ _ _ (read_mean_ok j s ltac:(lia))).
    rewrite (bind_ok _ _ _ _ _ (read_covariance_ok j s ltac:(lia))).
    unfold pdf. f_equal. apply Hpdf. lia.
  - apply Forall_forall. intros d Hin. apply in_map_iff in Hin.
    destruct Hin as [j [<- Hj]]. apply in_seq in Hj. apply Hpdf. lia.
Qed.

Lemma density_pass_ok (K D : nat) (s : GMM) (features : matrix) :
  component_shapes K D s -> positive_determinants s ->
  feature_matrix D features ->
  density_pass features s = (Ok (densities s features), s)
  /\ length (densities s features) = length features
  /\ density_matrix K (densities s features).
Proof.
  intros Hs Hdet Hf.
  unfold feature_matrix in Hf. rewrite Forall_forall in Hf.
  split; [|split].
  - unfold density_pass, densities.
    apply mapS_pure. intros x Hin.
    apply (density_row_ok K D); auto.
  - unfold densities. apply length_map.
  - unfold density_matrix, densities. apply Forall_forall. intros row Hin.
    apply in_map_iff in Hin. destruct Hin as [x [<- Hin]].
    split.
    + rewrite length_map, length_seq. apply (cs_components _ _ _ Hs).
    + apply (density_row_ok K D); auto.
Qed.

Lemma estimate_log_likelihood_ok (nd : matrix) (s : GMM) :
  Forall (fun row => length row = length (mixing_probs s)
                     /\ 0 < mixture (mixing_probs s) row) nd ->
  estimate_log_likelihood (length nd) nd s
  = (Ok (rsum (map (fun row => ln (mixture (mixing_probs s) row)) nd)), s).
Proof.
  intros Hnd. rewrite Forall_forall in Hnd.
  unfold estimate_log_likelihood. rewrite bind_get.
  rewrite (bind_lift_ok _ _ _ (map (mixture (mixing_probs s)) nd)).
  2:{ apply mapM_ok_map. intros row Hin. apply dot_ok.
      symmetry. apply Hnd. exact Hin. }
  rewrite (bind_lift_ok _ _ _ (map ln (map (mixture (mixing_probs s)) nd))).
  2:{ apply mapM_ok_map. intros m Hin. apply in_map_iff in Hin.
      destruct Hin as [row [<- Hin]]. apply flog_ok. apply Hnd. exact Hin. }
  unfold lift. f_equal.
  replace (length nd)
    with (length (map ln (map (mixture (mixing_probs s)) nd)))
    by (rewrite !length_map; reflexivity).
  rewrite dot_ones, map_map. reflexivity.
Qed.

Lemma log_likelihood_ok (K D : nat) (s : GMM) (features : matrix) :
  well_shaped K D s -> positive_determinants s -> feature_matrix D features ->
  Forall (fun row => 0 < mixture (mixing_probs s) row) (densities s features) ->
  log_likelihood features s = (Ok (log_likelihood_value s features), s).
Proof.
  intros Hs Hdet Hf Hmix. unfold log_likelihood.
  rewrite (bind_ok _ _ _ _ _
             (proj1 (density_pass_ok K D s features
                       (well_shaped_components K D s Hs) Hdet Hf))).
  replace (length features) with (length (densities s features))
    by (unfold densities; apply length_map).
  apply estimate_log_likelihood_ok.
  rewrite Forall_forall in *. intros row Hin. split; [|apply Hmix; exact Hin].
  unfold densities in Hin. apply in_map_iff in Hin. destruct Hin as [x [<- _]].
  rewrite length_map, length_seq, (ws_components _ _ _ Hs),
    (ws_mixing_probs _ _ _ Hs). reflexivity.
Qed.

(** ** Progress: an iteration on positive weights and determinants *)

Lemma rsum_pos (l : list R) :
  l <> [] -> Forall (fun a => 0 < a) l -> 0 < rsum l.
Proof.
  intros Hne Hl. destruct Hl as [|a l Ha Hl]; [congruence|].
  assert (0 <= rsum l).
  { apply rsum_nonneg. rewrite Forall_forall in *. intros b Hb.
    left. apply Hl. exact Hb. }
  simpl. lra.
Qed.

Lemma zip_with_mult_pos (u v : vector) :
  Forall (fun a => 0 < a) u -> Forall (fun a => 0 < a) v ->
  Forall (fun a => 0 < a) (zip_with Rmult u v).
Proof.
  intros Hu. revert v. induction Hu as [|a u Ha Hu IH]; intros v Hv.
  - constructor.
  - destruct Hv as [|b v Hb Hv]; simpl; constructor.
    + apply Rmult_lt_0_compat; assumption.
    + apply IH. exact Hv.
Qed.

Lemma mixture_pos (w row : vector) :
  Forall (fun a => 0 < a) w -> Forall (fun a => 0 < a) row ->
  length w = length row -> w <> [] -> 0 < mixture w row.
Proof.
  intros Hw Hrow Hlen Hne. unfold mixture. apply rsum_pos.
  - destruct w, row; simpl in *; congruence.
  - apply zip_with_mult_pos; assumption.
Qed.

Section Progress.

Variables (K D : nat) (s : GMM) (features : matrix).

Hypothesis Hshape : well_shaped K D s.
Hypothesis Hdet : positive_determinants s.
Hypothesis Hfeatures : feature_matrix D features.
Hypothesis Hnonempty : features <> [].
Hypothesis Hcomponents : (0 < K)%nat.
Hypothesis Hweights : Forall (fun a => 0 < a) (mixing_probs s).

Lemma progress_mixtures :
  Forall (fun row => 0 < mixture (mixing_probs s) row) (densities s features).
Proof.
  destruct (density_pass_ok K D s features
              (well_shaped_components K D s Hshape) Hdet Hfeatures)
    as [_ [_ Hdm]].
  unfold density_matrix in Hdm. rewrite Forall_forall in *.
  intros row Hin. destruct (Hdm row Hin) as [Hlen Hpos].
  pose proof (ws_mixing_probs _ _ _ Hshape) as Hw.
  apply mixture_pos.
  - apply Forall_forall. exact Hweights.
  - exact Hpos.
  - congruence.
  - intros Hnil. rewrite Hnil in Hw. simpl in Hw. lia.
Qed.

Lemma progress_effective_count (j : nat) :
  (j < K)%nat ->
  0 < effective_count
        (map (responsibility_row (mixing_probs s) K) (densities s features)) j.
Proof.
  intros Hj.
  destruct (density_pass_ok K D s features
              (well_shaped_components K D s Hshape) Hdet Hfeatures)
    as [_ [Hlen Hdm]].
  pose proof progress_mixtures as Hmix.
  pose proof (ws_mixing_probs _ _ _ Hshape) as Hw.
  unfold density_matrix in Hdm. rewrite Forall_forall in Hdm, Hmix, Hweights.
  unfold effective_count, column. apply rsum_pos.
  - rewrite map_map. destruct (densities s features) eqn:E; [|discriminate].
    simpl in Hlen. exfalso. apply Hnonempty.
    apply length_zero_iff_nil. lia.
  - apply Forall_forall. intros a Hin. apply in_map_iff in Hin.
    destruct Hin as [row [<- Hin]]. apply in_map_iff in Hin.
    destruct Hin as [d [<- Hin]]. destruct (Hdm d Hin) as [Hd Hpos].
    rewrite Forall_forall in Hpos.
    unfold responsibility_row. rewrite nth_map_seq by exact Hj.
    apply Rdiv_lt_0_compat; [|apply Hmix; exact Hin].
    apply Rmult_lt_0_compat.
    + apply Hweights. apply nth_In. lia.
    + apply Hpos. apply nth_In. lia.
Qed.

(** With positive determinants and positive mixing weights the
    log-likelihood, the E-step and the M-step all succeed. *)
Lemma iteration_progress :
  log_likelihood features s = (Ok (log_likelihood_value s features), s)
  /\ em_update features s
     = (Ok tt,
        updated_components features
          (map (responsibility_row (mixing_probs s) K) (densities s features))
          D (seq 0 K) s).
Proof.
  destruct (density_pass_ok K D s features
              (well_shaped_components K D s Hshape) Hdet Hfeatures)
    as [Hpass [Hlen Hdm]].
  pose proof progress_mixtures as Hmix.
  split.
  - apply (log_likelihood_ok K D); assumption.
  - unfold em_update. rewrite (bind_ok _ _ _ _ _ Hpass).
    rewrite (bind_ok _ _ _ _ _
               (e_step_ok K (densities s features) s
                  (ws_components _ _ _ Hshape) (ws_mixing_probs _ _ _ Hshape)
                  ltac:(unfold density_matrix in Hdm;
                        rewrite Forall_forall in *;
                        intros row Hin; split;
                        [apply Hdm; exact Hin
                        | pose proof (Hmix row Hin); lra]))).
    unfold m_step. rewrite bind_get, (ws_components _ _ _ Hshape).
    apply (for_each_m_step_ok K D); auto.
    + rewrite length_map. exact Hlen.
    + intros j Hin. apply in_seq in Hin. split; [lia|].
      pose proof (progress_effective_count j ltac:(lia)). lra.
Qed.

End Progress.

(** ** A complete run

    On [fixed_model] and [pair_features] the first log-likelihood is below
    -1, so the first test fails; the E-step and the M-step reproduce the
    parameters, and the second test succeeds: [fit] returns after one
    M-step. *)

Lemma fixed_model_well_shaped : well_shaped 1 1 fixed_model.
Proof.
  constructor; try reflexivity; cbn; try lia; repeat constructor.
Qed.

Lemma fixed_model_positive : positive_determinants fixed_model.
Proof.
  intros c [<-|[]]. rewrite determinant_1x1. lra.
Qed.

Lemma fixed_model_density (x : R) :
  x * x = 1 -> density fixed_model [x] 0 = exp (- / 2) / sqrt (2 * PI).
Proof.
  intros Hx. unfold density.
  cbn [fixed_model init means covariances no_components nth length].
  rewrite determinant_1x1, inverse_1x1 by lra.
  unfold quadratic_form. cbn [zip_with length seq map rsum fold_right nth].
  f_equal.
  - f_equal. replace ((x - 0) * / 1 * (x - 0) + 0 + 0) with (x * x) by field.
    rewrite Hx. lra.
  - f_equal. ring.
Qed.

Lemma fixed_model_densities :
  densities fixed_model pair_features
  = [[exp (- / 2) / sqrt (2 * PI)]; [exp (- / 2) / sqrt (2 * PI)]].
Proof.
  unfold densities, pair_features.
  cbn [map seq fixed_model init no_components length].
  change (init [[0]] [[[1]]] [1] 1) with fixed_model.
  rewrite !fixed_model_density by lra. reflexivity.
Qed.

Lemma fixed_model_log_likelihood :
  log_likelihood_value fixed_model pair_features < - 1.
Proof.
  unfold log_likelihood_value. rewrite fixed_model_densities.
  cbn [map rsum fold_right fixed_model init mixing_probs].
  unfold mixture. cbn [zip_with rsum fold_right].
  pose proof sqrt_two_pi_gt_2 as Hroot.
  replace (1 * (exp (- / 2) / sqrt (2 * PI)) + 0)
    with (exp (- / 2) * / sqrt (2 * PI)) by (unfold Rdiv; ring).
  rewrite ln_mult by (try apply exp_pos; apply Rinv_0_lt_compat; lra).
  rewrite ln_exp, ln_Rinv by lra.
  pose proof (ln_increasing 2 (sqrt (2 * PI)) ltac:(lra) Hroot).
  pose proof ln_lt_2. lra.
Qed.

Lemma fixed_model_update :
  log_likelihood pair_features fixed_model
  = (Ok (log_likelihood_value fixed_model pair_features), fixed_model)
  /\ em_update pair_features fixed_model = (Ok tt, fixed_model).
Proof.
  destruct (iteration_progress 1 1 fixed_model pair_features
              fixed_model_well_shaped fixed_model_positive
              ltac:(repeat constructor) ltac:(discriminate) ltac:(lia)
              ltac:(repeat constructor; lra)) as [Hll Hem].
  split; [exact Hll|]. rewrite Hem. f_equal.
  rewrite fixed_model_densities.
  assert (Hd : 0 < exp (- / 2) / sqrt (2 * PI)).
  { pose proof sqrt_two_pi_gt_2. apply Rdiv_lt_0_compat; [apply exp_pos | lra]. }
  set (d := exp (- / 2) / sqrt (2 * PI)) in *.
  assert (Hr : responsibility_row (mixing_probs fixed_model) 1 [d] = [1]).
  { unfold responsibility_row, mixture. cbn. f_equal. field. lra. }
  cbn [map]. rewrite Hr.
  unfold updated_components, updated_component, fixed_model, init,
    with_means, with_covariances, with_mixing_probs,
    weighted_covariance, weighted_mean, effective_count, column, pair_features.
  cbn. f_equal; repeat f_equal; field.
Qed.

Lemma fit_example :
  exists ll,
    iteration pair_features 0 fixed_model = (Ok (Some ll), fixed_model)
    /\ fit 2 pair_features fixed_model = Some (Ok tt, fixed_model).
Proof.
  destruct fixed_model_update as [Hll Hem].
  pose proof fixed_model_log_likelihood as Hlt.
  assert (Hfirst : iteration pair_features 0 fixed_model
                   = (Ok (Some (log_likelihood_value fixed_model pair_features)),
                      fixed_model)).
  { rewrite (iteration_continue _ _ _ _ _ Hll), Hem; [reflexivity|].
    rewrite Rminus_0_r, Rabs_left by lra. cbn [epsilon fixed_model init]. lra. }
  eexists. split; [exact Hfirst|].
  unfold fit. cbn [fit_loop]. rewrite Hfirst.
  rewrite (iteration_stop _ _ _ _ _ Hll); [reflexivity|].
  unfold Rminus. rewrite Rplus_opp_r, Rabs_R0. cbn [epsilon fixed_model init]. lra.
Qed.

(** ** The mixing weights and the covariances after [fit] *)

Lemma early_model_positive : positive_determinants early_model.
Proof.
  intros c [<-|[]]. rewrite determinant_1x1.
  apply Rinv_0_lt_compat. pose proof PI_RGT_0. lra.
Qed.

Lemma early_model_density : density early_model [0] 0 = 2.
Proof.
  unfold density. cbn [early_model init means covariances no_components nth length].
  rewrite quadratic_form_zero_1, Rmult_0_r, exp_0, determinant_1x1.
  replace (/ (8 * PI) * (2 * PI) ^ 1) with (/ 2 * / 2)
    by (field; pose proof PI_RGT_0; lra).
  rewrite sqrt_square by lra. lra.
Qed.

Lemma early_model_log_likelihood :
  log_likelihood [[0]] early_model = (Ok 0, early_model).
Proof.
  assert (Hmix : mixture (mixing_probs early_model)
                   (map (density early_model [0]) (seq 0 1)) = 1).
  { cbn [seq map]. rewrite early_model_density.
    unfold mixture. cbn. lra. }
  rewrite (log_likelihood_ok 1 1).
  - unfold log_likelihood_value, densities.
    cbn [map no_components early_model init length rsum fold_right].
    cbn [early_model init length] in Hmix. rewrite Hmix, ln_1.
    do 2 f_equal. lra.
  - exact early_model_well_shaped.
  - exact early_model_positive.
  - repeat constructor.
  - repeat constructor. cbn [no_components early_model init length].
    cbn [early_model init length] in Hmix. rewrite Hmix. lra.
Qed.

(** C5, as stated, fails: with one component, mean 0, variance 1/(8π) and
    weight 1/2 the density of the single feature 0 is 2, the first
    log-likelihood is ln 1 = 0, and [fit] returns at once with the weight
    1/2 it was given. *)
Lemma fit_returns_unnormalised_weights :
  well_shaped 1 1 early_model
  /\ feature_matrix 1 [[0]]
  /\ fit 1 [[0]] early_model = Some (Ok tt, early_model)
  /\ rsum (mixing_probs early_model) <> 1.
Proof.
  split; [exact early_model_well_shaped|].
  split; [repeat constructor|]. split.
  - unfold fit. cbn [fit_loop].
    rewrite (iteration_stop _ _ _ _ _ early_model_log_likelihood);
      [reflexivity|].
    rewrite Rminus_0_r, Rabs_R0. cbn. unfold default_epsilon.
    apply Rinv_0_lt_compat. lra.
  - cbn. lra.
Qed.

(** C5 (amended): on a well-shaped state with non-negative mixing weights
    and at least one feature vector, the mixing weights lie in [0,1] and
    sum to 1 after every completed M-step of the loop of [fit], and hence
    in the state [fit] returns after at least one M-step. *)
Theorem mixing_probs_normalised_after_m_step (K D : nat) (features : matrix)
  (s : GMM) :
  well_shaped K D s -> feature_matrix D features -> features <> [] ->
  (0 < D)%nat -> nonnegative (mixing_probs s) ->
  (forall t, m_step_reaches features s t -> normalised (mixing_probs t))
  /\ (forall fuel ll s1 s',
        iteration features 0 s = (Ok (Some ll), s1) ->
        fit (S fuel) features s = Some (Ok tt, s') ->
        normalised (mixing_probs s')).
Proof.
  intros Hs Hf Hne HD Hpos.
  assert (Hstep : forall t ll t1,
             well_shaped K D t /\ nonnegative (mixing_probs t) ->
             log_likelihood features t = (Ok ll, t) ->
             em_update features t = (Ok tt, t1) ->
             well_shaped K D t1 /\ normalised (mixing_probs t1)).
  { intros t ll t1 [Ht Hnn] Hll Hem.
    destruct (em_update_mixing_probs K D features t t1 ll Ht Hf Hne HD Hll Hem)
      as [Hw [_ Hnorm]].
    split; [exact Hw | apply Hnorm; exact Hnn]. }
  assert (Hweaken : forall t,
             well_shaped K D t /\ normalised (mixing_probs t) ->
             well_shaped K D t /\ nonnegative (mixing_probs t)).
  { intros t [Hw Hnorm]. split; [exact Hw|].
    apply normalised_nonnegative. exact Hnorm. }
  split.
  - intros t Hreach.
    apply (m_step_reaches_establishes features _ _ Hstep Hweaken s t Hreach
             (conj Hs Hpos)).
  - intros fuel ll s1 s' Hit Hfit.
    apply (fit_establishes features _ _ Hstep Hweaken
             fuel ll s s1 s' (conj Hs Hpos) Hit Hfit).
Qed.

Lemma mixing_probs_normalised_after_m_step_witness :
  (exists t,
      m_step_reaches pair_features fixed_model t
      /\ normalised (mixing_probs t))
  /\ (exists s',
        fit 2 pair_features fixed_model = Some (Ok tt, s')
        /\ normalised (mixing_probs s')).
Proof.
  destruct (mixing_probs_normalised_after_m_step 1 1 pair_features fixed_model
              fixed_model_well_shaped ltac:(repeat constructor)
              ltac:(discriminate) ltac:(lia) ltac:(repeat constructor; lra))
    as [Hreach Hfit].
  destruct fixed_model_update as [Hll Hem].
  destruct fit_example as [ll [Hit Hrun]].
  pose proof (reaches_first _ _ _ _ Hll Hem) as Hfirst.
  split.
  - exists fixed_model. split; [exact Hfirst | apply Hreach; exact Hfirst].
  - exists fixed_model. split; [exact Hrun|].
    apply (Hfit 1%nat ll fixed_model fixed_model Hit Hrun).
Defined.

(** C6: on a well-shaped state and at least one feature vector, every
    covariance matrix is symmetric after every completed M-step of the loop
    of [fit], and hence in the state [fit] returns after at least one
    M-step. *)
Theorem covariances_symmetric_after_m_step (K D : nat) (features : matrix)
  (s : GMM) :
  well_shaped K D s -> feature_matrix D features -> features <> [] ->
  (0 < D)%nat ->
  (forall t, m_step_reaches features s t -> Forall symmetric (covariances t))
  /\ (forall fuel ll s1 s',
        iteration features 0 s = (Ok (Some ll), s1) ->
        fit (S fuel) features s = Some (Ok tt, s') ->
        Forall symmetric (covariances s')).
Proof.
  intros Hs Hf Hne HD.
  assert (Hstep : forall t ll t1,
             well_shaped K D t ->
             log_likelihood features t = (Ok ll, t) ->
             em_update features t = (Ok tt, t1) ->
             well_shaped K D t1 /\ Forall symmetric (covariances t1)).
  { intros t ll t1 Ht Hll Hem. split.
    - apply (em_update_mixing_probs K D features t t1 ll Ht Hf Hne HD Hll Hem).
    - apply (em_update_covariances K D features t t1 ll Ht Hf Hne HD Hll Hem). }
  split.
  - intros t Hreach.
    apply (m_step_reaches_establishes features _ _ Hstep
             (fun t H => proj1 H) s t Hreach Hs).
  - intros fuel ll s1 s' Hit Hfit.
    apply (fit_establishes features _ _ Hstep
             (fun t H => proj1 H) fuel ll s s1 s' Hs Hit Hfit).
Qed.

Lemma covariances_symmetric_after_m_step_witness :
  (exists t,
      m_step_reaches pair_features fixed_model t
      /\ Forall symmetric (covariances t))
  /\ (exists s',
        fit 2 pair_features fixed_model = Some (Ok tt, s')
        /\ Forall symmetric (covariances s')).
Proof.
  destruct (covariances_symmetric_after_m_step 1 1 pair_features fixed_model
              fixed_model_well_shaped ltac:(repeat constructor)
              ltac:(discriminate) ltac:(lia))
    as [Hreach Hfit].
  destruct fixed_model_update as [Hll Hem].
  destruct fit_example as [ll [Hit Hrun]].
  pose proof (reaches_first _ _ _ _ Hll Hem) as Hfirst.
  split.
  - exists fixed_model. split; [exact Hfirst | apply Hreach; exact Hfirst].
  - exists fixed_model. split; [exact Hrun|].
    apply (Hfit 1%nat ll fixed_model fixed_model Hit Hrun).
Defined.

(** ** Shapes are not validated *)

Lemma surplus_model_well_shaped : well_shaped 1 1 surplus_model.
Proof.
  constructor; try reflexivity; cbn; try lia; repeat constructor.
Qed.

Lemma surplus_model_positive : positive_determinants surplus_model.
Proof.
  intros c [<-|[]]. rewrite determinant_1x1. lra.
Qed.

Lemma surplus_model_density : density surplus_model [0] 0 = / sqrt (2 * PI).
Proof.
  unfold density.
  cbn [surplus_model init means covariances no_components nth length].
  rewrite quadratic_form_zero_1, Rmult_0_r, exp_0, determinant_1x1.
  replace (1 * (2 * PI) ^ 1) with (2 * PI) by ring.
  unfold Rdiv. ring.
Qed.

Lemma surplus_model_log_likelihood :
  log_likelihood_value surplus_model [[0]] < - / 2.
Proof.
  unfold log_likelihood_value, densities.
  cbn [map no_components surplus_model init length seq mixing_probs rsum
       fold_right].
  change (init [[0]; [5]] [[[1]]] [1] default_epsilon) with surplus_model.
  rewrite surplus_model_density. unfold mixture. cbn [zip_with rsum fold_right].
  pose proof sqrt_two_pi_gt_2 as Hroot.
  replace (1 * / sqrt (2 * PI) + 0) with (/ sqrt (2 * PI)) by ring.
  rewrite ln_Rinv by lra.
  pose proof (ln_increasing 2 (sqrt (2 * PI)) ltac:(lra) Hroot).
  pose proof ln_lt_2. lra.
Qed.

(** C7, as stated, fails: built with two rows of means for one covariance
    matrix, the estimator raises nothing; [fit] runs a whole iteration and
    its M-step overwrites the covariance. *)
Lemma fit_iterates_on_mismatched_shapes :
  length (means surplus_model) <> length (covariances surplus_model)
  /\ exists ll s1,
       iteration [[0]] 0 surplus_model = (Ok (Some ll), s1)
       /\ covariances s1 <> covariances surplus_model.
Proof.
  split; [cbn; lia|].
  destruct (iteration_progress 1 1 surplus_model [[0]]
              surplus_model_well_shaped surplus_model_positive
              ltac:(repeat constructor) ltac:(discriminate) ltac:(lia)
              ltac:(repeat constructor; lra)) as [Hll Hem].
  remember (map (responsibility_row (mixing_probs surplus_model) 1)
              (densities surplus_model [[0]])) as r eqn:Hr.
  exists (log_likelihood_value surplus_model [[0]]).
  eexists. split.
  - rewrite (iteration_continue _ _ _ _ _ Hll), Hem; [reflexivity|].
    pose proof surplus_model_log_likelihood as Hlt.
    rewrite Rminus_0_r, Rabs_left by lra.
    cbn [epsilon surplus_model init]. unfold default_epsilon. lra.
  - cbn. intros Heq. injection Heq as Heq.
    assert (Hzero : forall a n : R,
               (a * (0 - (a * 0 + 0) / n) * (0 - (a * 0 + 0) / n) + 0) / n = 0)
      by (intros a n; unfold Rdiv; ring).
    rewrite Hzero in Heq. lra.
Qed.

Lemma estimate_log_likelihood_mismatch (n : nat) (nd : matrix) (s : GMM) :
  nd <> [] ->
  Forall (fun row => length row <> length (mixing_probs s)) nd ->
  estimate_log_likelihood n nd s = (Raise ValueError, s).
Proof.
  intros Hne Hnd. unfold estimate_log_likelihood. rewrite bind_get.
  apply bind_lift_raise.
  destruct Hnd as [|row nd Hrow Hnd]; [congruence|].
  cbn [mapM]. rewrite dot_mismatch by congruence. reflexivity.
Qed.

(** C7 (amended): shapes are not checked at the API boundary.  A state
    whose mixing weights have a length other than K, with means,
    covariances and features otherwise consistent and determinants
    positive, is what construction from these arrays yields; [fit] runs
    its density pass on it, and only the first log-likelihood computation
    raises [ValueError], with no parameter changed. *)
Theorem mismatch_found_by_array_operation (K D : nat) (s : GMM)
  (features : matrix) (fuel : nat) :
  component_shapes K D s -> positive_determinants s ->
  feature_matrix D features -> features <> [] ->
  length (mixing_probs s) <> K ->
  init (means s) (covariances s) (mixing_probs s) (epsilon s) = s
  /\ density_pass features s = (Ok (densities s features), s)
  /\ fit (S fuel) features s = Some (Raise ValueError, s).
Proof.
  intros Hs Hdet Hf Hne Hw.
  destruct (density_pass_ok K D s features Hs Hdet Hf) as [Hpass [Hlen Hdm]].
  split; [|split; [exact Hpass|]].
  - pose proof (cs_components _ _ _ Hs) as Hk.
    pose proof (cs_covariances _ _ _ Hs) as Hc.
    destruct s as [m c w k e]. unfold init. cbn in *. congruence.
  - unfold fit. cbn [fit_loop].
    rewrite (iteration_raise features 0 s s ValueError); [reflexivity|].
    unfold log_likelihood. rewrite (bind_ok _ _ _ _ _ Hpass).
    apply estimate_log_likelihood_mismatch.
    + intros Hnil. rewrite Hnil in Hlen. simpl in Hlen.
      apply Hne. apply length_zero_iff_nil. lia.
    + unfold density_matrix in Hdm. rewrite Forall_forall in *.
      intros row Hin. destruct (Hdm row Hin) as [Hrow _]. congruence.
Qed.

Lemma mismatch_found_by_array_operation_witness :
  init (means two_weights_model) (covariances two_weights_model)
    (mixing_probs two_weights_model) (epsilon two_weights_model)
  = two_weights_model
  /\ density_pass [[0]] two_weights_model
     = (Ok (densities two_weights_model [[0]]), two_weights_model)
  /\ fit 1 [[0]] two_weights_model = Some (Raise ValueError, two_weights_model).
Proof.
  apply (mismatch_found_by_array_operation 1 1 two_weights_model [[0]] 0).
  - constructor; try reflexivity; cbn; try lia; repeat constructor.
  - intros c [<-|[]]. rewrite determinant_1x1. lra.
  - repeat constructor.
  - discriminate.
  - cbn. lia.
Defined.

(** * Further properties *)

(** ** What [fit] never changes *)

Lemma same_shape_refl (s : GMM) : same_shape s s.
Proof. constructor; reflexivity. Qed.

Lemma same_shape_trans (s1 s2 s3 : GMM) :
  same_shape s1 s2 -> same_shape s2 s3 -> same_shape s1 s3.
Proof.
  intros [H1 H2 H3 H4 H5] [G1 G2 G3 G4 G5]. constructor; congruence.
Qed.

Lemma keeps_shape_read_only {A : Type} (m : M A) :
  read_only m -> keeps_shape m.
Proof.
  intros Hm s. rewrite (Hm s). apply same_shape_refl.
Qed.

Lemma keeps_shape_bind {A B : Type} (m : M A) (k : A -> M B) :
  keeps_shape m -> (forall a, keeps_shape (k a)) -> keeps_shape (bind m k).
Proof.
  intros Hm Hk s. unfold bind. specialize (Hm s).
  destruct (m s) as [[a|e] s1]; cbn [snd] in *; [|exact Hm].
  eapply same_shape_trans; [exact Hm | apply Hk].
Qed.

Lemma keeps_shape_for_each {A : Type} (l : list A) (body : A -> M unit) :
  (forall a, keeps_shape (body a)) -> keeps_shape (for_each l body).
Proof.
  intros Hb. induction l as [|a l IH]; cbn [for_each].
  - apply keeps_shape_read_only. apply read_only_ret.
  - apply keeps_shape_bind; [apply Hb | intros _; exact IH].
Qed.

Lemma update_unchanged {A : Type} (l : list A) (i : nat) (a : A) :
  nth_error l i = Some a -> update l i a = l.
Proof.
  revert i; induction l as [|b l IH]; intros [|i] H; simpl in *;
    try discriminate.
  - inversion H. reflexivity.
  - f_equal. apply IH. exact H.
Qed.

Lemma map_update {A B : Type} (f : A -> B) (l : list A) (i : nat) (a : A) :
  map f (update l i a) = update (map f l) i (f a).
Proof.
  revert i; induction l as [|b l IH]; intros [|i]; simpl; auto.
  f_equal. apply IH.
Qed.

(** Overwriting an element by one with the same image leaves the images. *)
Lemma map_update_same {A B : Type} (f : A -> B) (l : list A) (i : nat)
  (a old : A) :
  nth_error l i = Some old -> f a = f old ->
  map f (update l i a) = map f l.
Proof.
  intros Hold Hf. rewrite map_update, Hf. apply update_unchanged.
  rewrite nth_error_map, Hold. reflexivity.
Qed.

Lemma index_ok_inv {A : Type} (l : list A) (i : nat) (a : A) :
  index l i = Ok a -> nth_error l i = Some a.
Proof.
  unfold index. destruct (nth_error l i); intros H; inversion H. reflexivity.
Qed.

Lemma broadcast_to_length (v v' : vector) (len : nat) :
  broadcast_to v len = Ok v' -> length v' = len.
Proof.
  unfold broadcast_to.
  destruct (Nat.eqb (length v) len) eqn:E.
  - intros H. inversion H; subst. apply Nat.eqb_eq. exact E.
  - destruct (Nat.eqb (length v) 1); intros H; inversion H.
    apply repeat_length.
Qed.

Lemma broadcast_to_matrix_shape (m target m' : matrix) :
  broadcast_to_matrix m target = Ok m' -> shape m' = shape target.
Proof.
  unfold broadcast_to_matrix, shape.
  destruct (Nat.eqb (length m) (length target)) eqn:E.
  - apply Nat.eqb_eq in E. intros H.
    pose proof (mapM_ok_length _ _ _ H) as Hlen.
    f_equal; [rewrite Hlen; exact E|].
    destruct m as [|row m].
    + cbn in H. inversion H; subst. destruct target; [reflexivity | discriminate].
    + cbn [mapM] in H.
      destruct (broadcast_to row (ncols target)) as [row'|] eqn:Hrow;
        cbn [rbind] in H; [|discriminate].
      destruct (mapM (fun r : vector => broadcast_to r (ncols target)) m)
        as [rows|]; cbn [rbind] in H; [|discriminate].
      inversion H; subst. unfold ncols at 1. cbn [hd].
      eapply broadcast_to_length; eauto.
  - destruct (Nat.eqb (length m) 1); [|discriminate].
    destruct (broadcast_to (hd [] m) (ncols target)) as [row|] eqn:Hrow;
      cbn [rbind]; [|discriminate].
    intros H. inversion H; subst. rewrite repeat_length. f_equal.
    destruct target as [|t target]; [reflexivity|].
    cbn [length repeat]. unfold ncols at 1. cbn [hd].
    eapply broadcast_to_length; eauto.
Qed.

Lemma keeps_shape_write_mean (i : nat) (v : vector) :
  keeps_shape (write_mean i v).
Proof.
  intros s. unfold write_mean, read_mean, bind, get, lift, modify.
  destruct (index (means s) i) as [old|] eqn:Hold; cbn [snd];
    [|apply same_shape_refl].
  destruct (broadcast_to v (length old)) as [v'|] eqn:Hv; cbn [snd];
    [|apply same_shape_refl].
  constructor; try reflexivity. cbn [means with_means].
  apply (map_update_same (@length R) _ _ _ old).
  - apply index_ok_inv. exact Hold.
  - eapply broadcast_to_length; eauto.
Qed.

Lemma keeps_shape_write_covariance (i : nat) (m : matrix) :
  keeps_shape (write_covariance i m).
Proof.
  intros s. unfold write_covariance, read_covariance, bind, get, lift, modify.
  destruct (index (covariances s) i) as [old|] eqn:Hold; cbn [snd];
    [|apply same_shape_refl].
  destruct (broadcast_to_matrix m old) as [m'|] eqn:Hm; cbn [snd];
    [|apply same_shape_refl].
  constructor; try reflexivity. cbn [covariances with_covariances].
  apply (map_update_same shape _ _ _ old).
  - apply index_ok_inv. exact Hold.
  - eapply broadcast_to_matrix_shape; eauto.
Qed.

Lemma keeps_shape_write_mixing_prob (i : nat) (w : R) :
  keeps_shape (write_mixing_prob i w).
Proof.
  intros s. unfold write_mixing_prob, read_mixing_prob, bind, get, lift, modify.
  destruct (index (mixing_probs s) i) as [old|] eqn:Hold; cbn [snd];
    [|apply same_shape_refl].
  constructor; try reflexivity. cbn [mixing_probs with_mixing_probs].
  apply update_length.
Qed.

Lemma keeps_shape_m_step (n : nat) (features r : matrix) :
  keeps_shape (m_step n features r).
Proof.
  unfold m_step. apply keeps_shape_bind.
  - apply keeps_shape_read_only. apply read_only_get.
  - intros K. apply keeps_shape_for_each. intros i.
    unfold m_step_component. cbv zeta.
    repeat first
      [ apply keeps_shape_write_mixing_prob
      | apply keeps_shape_write_mean
      | apply keeps_shape_write_covariance
      | solve [apply keeps_shape_read_only; read_only_tac]
      | apply keeps_shape_bind; [|intros ?] ].
Qed.

Lemma keeps_shape_iteration (features : matrix) (old : R) :
  keeps_shape (iteration features old).
Proof.
  unfold iteration. cbv zeta.
  apply keeps_shape_bind;
    [apply keeps_shape_read_only; apply read_only_density_pass|].
  intros nd. apply keeps_shape_bind;
    [apply keeps_shape_read_only; apply read_only_estimate_log_likelihood|].
  intros ll. apply keeps_shape_bind;
    [apply keeps_shape_read_only; apply read_only_get|].
  intros eps. destruct (Rlt_dec (Rabs (ll - old)) eps).
  - apply keeps_shape_read_only. apply read_only_ret.
  - apply keeps_shape_bind;
      [apply keeps_shape_read_only; apply read_only_e_step|].
    intros r. apply keeps_shape_bind; [apply keeps_shape_m_step|].
    intros _. apply keeps_shape_read_only. apply read_only_ret.
Qed.

Lemma fit_loop_same_shape (features : matrix) (fuel : nat) (old : R)
  (s s' : GMM) (r : result unit) :
  fit_loop fuel features old s = Some (r, s') -> same_shape s s'.
Proof.
  revert old s. induction fuel as [|fuel IH]; intros old s H; [discriminate|].
  cbn [fit_loop] in H.
  pose proof (keeps_shape_iteration features old s) as Hstep.
  destruct (iteration features old s) as [[[ll|]|e] s1]; cbn [snd] in Hstep.
  - eapply same_shape_trans; [exact Hstep | eapply IH; eauto].
  - inversion H; subst. exact Hstep.
  - inversion H; subst. exact Hstep.
Qed.

(** X1: whether [fit] returns or raises, it leaves the component count,
    the threshold and the shape of every parameter array as they were:
    the number and the lengths of the means, the number of rows and columns
    of every covariance, and the number of mixing weights. *)
Theorem fit_keeps_shapes (features : matrix) (fuel : nat) (s s' : GMM)
  (r : result unit) :
  fit fuel features s = Some (r, s') ->
  no_components s' = no_components s
  /\ epsilon s' = epsilon s
  /\ map (@length R) (means s') = map (@length R) (means s)
  /\ map shape (covariances s') = map shape (covariances s)
  /\ length (mixing_probs s') = length (mixing_probs s).
Proof.
  intros H. destruct (fit_loop_same_shape features fuel 0 s s' r H)
    as [H1 H2 H3 H4 H5].
  repeat split; assumption.
Qed.

Lemma fit_keeps_shapes_witness :
  no_components fixed_model = no_components fixed_model
  /\ epsilon fixed_model = epsilon fixed_model
  /\ map (@length R) (means fixed_model) = map (@length R) (means fixed_model)
  /\ map shape (covariances fixed_model) = map shape (covariances fixed_model)
  /\ length (mixing_probs fixed_model) = length (mixing_probs fixed_model).
Proof.
  destruct fit_example as [ll [_ Hrun]].
  exact (fit_keeps_shapes pair_features 2 fixed_model fixed_model (Ok tt) Hrun).
Defined.

(** X2: with a threshold that is not positive the loop has no exit:
    [fit] never returns normally, it can only raise or go on for ever. *)
Theorem fit_needs_positive_epsilon (features : matrix) (s : GMM) :
  epsilon s <= 0 ->
  forall fuel s', fit fuel features s <> Some (Ok tt, s').
Proof.
  intros Heps fuel s' H.
  pose proof (fit_loop_same_shape features fuel 0 s s' (Ok tt) H) as Hsame.
  apply fit_loop_run in H. apply fit_run_final in H.
  destruct H as [previous [ll [_ Hlt]]].
  rewrite (ss_epsilon _ _ Hsame) in Hlt.
  pose proof (Rabs_pos (ll - previous)). lra.
Qed.

Lemma fit_needs_positive_epsilon_witness :
  epsilon (init [[0]] [[[1]]] [1] 0) <= 0
  /\ fit 3 pair_features (init [[0]] [[[1]]] [1] 0)
     <> Some (Ok tt, init [[0]] [[[1]]] [1] 0).
Proof.
  split; [cbn; lra|].
  apply (fit_needs_positive_epsilon pair_features (init [[0]] [[[1]]] [1] 0)).
  cbn. lra.
Defined.

(** X3: on a feature matrix without rows the log-likelihood is the empty
    sum 0, so with a positive threshold [fit] returns at its first test and
    touches no parameter, whatever the parameters are. *)
Theorem fit_no_features (s : GMM) (fuel : nat) :
  0 < epsilon s -> fit (S fuel) [] s = Some (Ok tt, s).
Proof.
  intros Heps. unfold fit. cbn [fit_loop].
  rewrite (iteration_stop [] 0 0 s s); [reflexivity | reflexivity |].
  rewrite Rminus_0_r, Rabs_R0. exact Heps.
Qed.

Lemma fit_no_features_witness :
  fit 1 [] surplus_model = Some (Ok tt, surplus_model).
Proof.
  apply (fit_no_features surplus_model 0).
  cbn. unfold default_epsilon. apply Rinv_0_lt_compat. lra.
Defined.

(** ** The errors of the density evaluator *)

Lemma vsub_not_broadcastable (u v : vector) :
  ~ broadcastable u v -> vsub u v = Raise ValueError.
Proof.
  intros H. unfold vsub, broadcast2, broadcastable in *.
  destruct (Nat.eqb (length u) (length v)) eqn:E1;
    [apply Nat.eqb_eq in E1; tauto|].
  destruct (Nat.eqb (length u) 1) eqn:E2; [apply Nat.eqb_eq in E2; tauto|].
  destruct (Nat.eqb (length v) 1) eqn:E3; [apply Nat.eqb_eq in E3; tauto|].
  reflexivity.
Qed.

Lemma vsub_broadcastable (u v : vector) :
  broadcastable u v -> exists c, vsub u v = Ok c.
Proof.
  intros H. unfold vsub, broadcast2, broadcastable in *.
  destruct (Nat.eqb (length u) (length v)) eqn:E1; [eauto|].
  destruct (Nat.eqb (length u) 1) eqn:E2; [eauto|].
  destruct (Nat.eqb (length v) 1) eqn:E3; [eauto|].
  apply Nat.eqb_neq in E1, E2, E3. tauto.
Qed.

Lemma linalg_inv_singular (cov : matrix) :
  is_square cov = false \/ determinant cov = 0 ->
  linalg_inv cov = Raise LinAlgError.
Proof.
  intros H. unfold linalg_inv. destruct (is_square cov); [|reflexivity].
  destruct H as [H|H]; [discriminate|].
  destruct (Req_dec_T (determinant cov) 0); [reflexivity | contradiction].
Qed.

(** A covariance that is not square or has determinant 0 makes the
    evaluator raise as soon as the difference [x - mean] exists. *)
Lemma pdf_singular (self : GMM) (x mean c : vector) (cov : matrix) :
  vsub x mean = Ok c ->
  is_square cov = false \/ determinant cov = 0 ->
  multivariate_normal_pdf self x mean cov = Raise LinAlgError.
Proof.
  intros Hc Hcov. unfold multivariate_normal_pdf.
  rewrite Hc. cbn [rbind]. rewrite (linalg_inv_singular cov Hcov). reflexivity.
Qed.

(** X4: the failures of [multivariate_normal_pdf], in the order in which
    the code meets them: [ValueError] when [x] and [mean] cannot be
    subtracted; [LinAlgError] when the covariance is not square or is
    singular; [ValueError] when the dimension of [x - mean] is not the
    order of the covariance; and no finite value when the determinant is
    negative. *)
Theorem pdf_errors (self : GMM) (x mean : vector) (cov : matrix) :
  (~ broadcastable x mean ->
   multivariate_normal_pdf self x mean cov = Raise ValueError)
  /\ (broadcastable x mean ->
      is_square cov = false \/ determinant cov = 0 ->
      multivariate_normal_pdf self x mean cov = Raise LinAlgError)
  /\ (length x = length mean -> is_square cov = true ->
      determinant cov <> 0 -> length x <> length cov ->
      multivariate_normal_pdf self x mean cov = Raise ValueError)
  /\ (length x = length mean -> is_square cov = true ->
      determinant cov < 0 -> length x = length cov ->
      multivariate_normal_pdf self x mean cov = Raise NonFinite).
Proof.
  split; [|split; [|split]].
  - intros H. unfold multivariate_normal_pdf.
    rewrite (vsub_not_broadcastable x mean H). reflexivity.
  - intros H Hcov. destruct (vsub_broadcastable x mean H) as [c Hc].
    eapply pdf_singular; eauto.
  - intros Hlen Hsq Hdet Hdim. unfold multivariate_normal_pdf.
    rewrite (vsub_ok x mean Hlen). cbn [rbind].
    rewrite (linalg_inv_ok cov Hsq Hdet). cbn [rbind].
    rewrite (linalg_det_ok cov Hsq). cbn [rbind].
    destruct (linalg_inv_shape _ _ (linalg_inv_ok cov Hsq Hdet)) as [Hl _].
    unfold dot_vm. rewrite zip_with_length, <- Hlen, Nat.min_id, Hl.
    apply Nat.eqb_neq in Hdim. rewrite Hdim. reflexivity.
  - intros Hlen Hsq Hdet Hdim. unfold multivariate_normal_pdf.
    assert (Hne : determinant cov <> 0) by lra.
    rewrite (vsub_ok x mean Hlen). cbn [rbind].
    rewrite (linalg_inv_ok cov Hsq Hne). cbn [rbind].
    rewrite (linalg_det_ok cov Hsq). cbn [rbind].
    destruct (linalg_inv_shape _ _ (linalg_inv_ok cov Hsq Hne))
      as [Hl [_ Hcols]].
    assert (Hc : length (zip_with Rminus x mean) = length cov)
      by (rewrite zip_with_length; lia).
    destruct (nested_dot_quadratic_form (zip_with Rminus x mean) (inverse cov)
                ltac:(rewrite Hl, Hc; reflexivity)
                ltac:(rewrite Hcols, Hc; reflexivity)) as [t [Ht Hq]].
    rewrite Ht. cbn [rbind]. rewrite Hq. cbn [rbind].
    rewrite fsqrt_negative; [reflexivity|].
    pose proof (two_pi_pow_pos (no_components self)). nra.
Qed.

Lemma pdf_errors_witness :
  multivariate_normal_pdf standard_model [1; 2] [1; 2; 3] [[1]]
  = Raise ValueError
  /\ multivariate_normal_pdf standard_model [1] [0] [[0]] = Raise LinAlgError
  /\ multivariate_normal_pdf standard_model [1] [0] [[1; 0]; [0; 1]]
     = Raise ValueError
  /\ multivariate_normal_pdf standard_model [1] [0] [[-1]] = Raise NonFinite.
Proof.
  split; [|split; [|split]].
  - apply (proj1 (pdf_errors standard_model [1; 2] [1; 2; 3] [[1]])).
    unfold broadcastable. cbn. lia.
  - apply (proj1 (proj2 (pdf_errors standard_model [1] [0] [[0]]))).
    + left. reflexivity.
    + right. apply determinant_1x1.
  - apply (proj1 (proj2 (proj2
             (pdf_errors standard_model [1] [0] [[1; 0]; [0; 1]])))).
    + reflexivity.
    + reflexivity.
    + rewrite determinant_2x2. lra.
    + cbn. lia.
  - apply (proj2 (proj2 (proj2 (pdf_errors standard_model [1] [0] [[-1]])))).
    + reflexivity.
    + reflexivity.
    + rewrite determinant_1x1. lra.
    + reflexivity.
Defined.

(** ** A singular covariance stops [fit] *)

Lemma mapS_first_raise {A B : Type} (f : A -> M B) (g : A -> B)
  (l1 l2 : list A) (a : A) (e : error) (s : GMM) :
  (forall b, In b l1 -> f b s = (Ok (g b), s)) ->
  f a s = (Raise e, s) ->
  mapS f (l1 ++ a :: l2) s = (Raise e, s).
Proof.
  intros Hok Hraise. induction l1 as [|b l1 IH]; cbn [app mapS].
  - apply bind_raise. exact Hraise.
  - rewrite (bind_ok _ _ _ _ _ (Hok b (or_introl eq_refl))).
    apply bind_raise. apply IH. intros b' Hin. apply Hok. right. exact Hin.
Qed.

Lemma seq_split_at (j K : nat) :
  (j < K)%nat -> seq 0 K = seq 0 j ++ j :: seq (S j) (K - S j).
Proof.
  intros Hj. replace K with (j + S (K - S j))%nat at 1 by lia.
  rewrite seq_app. reflexivity.
Qed.

Lemma density_row_singular (K D : nat) (s : GMM) (x : vector) (j : nat) :
  component_shapes K D s -> length x = D -> (j < K)%nat ->
  determinant (nth j (covariances s) []) = 0 ->
  (forall i, (i < j)%nat -> 0 < determinant (nth i (covariances s) [])) ->
  density_row x s = (Raise LinAlgError, s).
Proof.
  intros Hs Hx Hj Hzero Hpos.
  pose proof (cs_means _ _ _ Hs) as Hml.
  pose proof (cs_covariances _ _ _ Hs) as Hcl.
  pose proof (cs_covariance_dim _ _ _ Hs) as Hcd.
  rewrite Forall_forall in Hcd.
  unfold density_row. rewrite bind_get, (cs_components _ _ _ Hs).
  rewrite (seq_split_at j K Hj).
  apply (mapS_first_raise _ (density s x)).
  - intros i Hin. apply in_seq in Hin.
    rewrite (bind_ok _ _ _ _ _ (read_mean_ok i s ltac:(lia))).
    rewrite (bind_ok _ _ _ _ _ (read_covariance_ok i s ltac:(lia))).
    unfold pdf. f_equal.
    destruct (Hcd (nth i (covariances s) []) ltac:(apply nth_In; lia))
      as [Hl Hr].
    destruct (pdf_value s x (nth i (means s) []) (nth i (covariances s) []))
      as [_ [Hval _]]; try congruence.
    + rewrite (component_mean_dim K D s i Hs ltac:(lia)). congruence.
    + unfold is_square. rewrite Hl. exact Hr.
    + apply Hpos. lia.
    + exact Hval.
  - rewrite (bind_ok _ _ _ _ _ (read_mean_ok j s ltac:(lia))).
    rewrite (bind_ok _ _ _ _ _ (read_covariance_ok j s ltac:(lia))).
    unfold pdf. f_equal.
    apply (pdf_singular s x _ (zip_with Rminus x (nth j (means s) []))).
    + apply vsub_ok. rewrite (component_mean_dim K D s j Hs Hj). exact Hx.
    + right. exact Hzero.
Qed.

Lemma iteration_singular (K D : nat) (s : GMM) (features : matrix) (j : nat)
  (old : R) :
  component_shapes K D s -> feature_matrix D features -> features <> [] ->
  (j < K)%nat ->
  determinant (nth j (covariances s) []) = 0 ->
  (forall i, (i < j)%nat -> 0 < determinant (nth i (covariances s) [])) ->
  iteration features old s = (Raise LinAlgError, s).
Proof.
  intros Hs Hf Hne Hj Hzero Hpos.
  destruct features as [|x features]; [congruence|].
  inversion Hf as [|x' f' Hx Hrest]; subst.
  apply (iteration_raise (x :: features) old s s LinAlgError).
  unfold log_likelihood, density_pass. cbn [mapS].
  apply bind_raise. apply bind_raise.
  eapply density_row_singular; eauto.
Qed.

(** X5: when the covariance of some component is singular and the
    components before it have positive determinants, [fit] on a non-empty
    feature matrix raises [LinAlgError] in its first density pass and
    changes no parameter. *)
Theorem fit_singular_covariance (K D : nat) (s : GMM) (features : matrix)
  (j fuel : nat) :
  component_shapes K D s -> feature_matrix D features -> features <> [] ->
  (j < K)%nat ->
  determinant (nth j (covariances s) []) = 0 ->
  (forall i, (i < j)%nat -> 0 < determinant (nth i (covariances s) [])) ->
  fit (S fuel) features s = Some (Raise LinAlgError, s).
Proof.
  intros Hs Hf Hne Hj Hzero Hpos.
  unfold fit. cbn [fit_loop].
  rewrite (iteration_singular K D s features j 0 Hs Hf Hne Hj Hzero Hpos).
  reflexivity.
Qed.

Lemma fit_singular_covariance_witness :
  fit 1 [[3]] (init [[0]] [[[0]]] [1] default_epsilon)
  = Some (Raise LinAlgError, init [[0]] [[[0]]] [1] default_epsilon).
Proof.
  apply (fit_singular_covariance 1 1 (init [[0]] [[[0]]] [1] default_epsilon)
           [[3]] 0 0).
  - constructor; try reflexivity; cbn; try lia; repeat constructor.
  - repeat constructor.
  - discriminate.
  - lia.
  - cbn [init covariances nth]. apply determinant_1x1.
  - intros i Hi. lia.
Defined.

(** ** A single feature vector *)




Section SingleFeature.

Variables (D : nat) (x : vector) (row : vector) (j : nat).

Hypothesis Hx : length x = D.
Hypothesis Hcount : effective_count [row] j <> 0.



End SingleFeature.




(** ** Edge cases of [cluster] *)

Lemma mapM_linalg_det_not_square (covs : list matrix) :
  Exists (fun c => is_square c = false) covs ->
  mapM linalg_det covs = Raise LinAlgError.
Proof.
  induction 1 as [c covs Hc | c covs Hex IH]; cbn [mapM].
  - unfold linalg_det. rewrite Hc. reflexivity.
  - unfold linalg_det at 1. destruct (is_square c); cbn [rbind]; [|reflexivity].
    rewrite IH. reflexivity.
Qed.

(** X7: [cluster] takes the determinant of every covariance before it
    looks at the features: one covariance that is not square makes it
    raise [LinAlgError] for every feature matrix, the empty one included. *)
Theorem cluster_not_square (features : matrix) (s : GMM) :
  Exists (fun c => is_square c = false) (covariances s) ->
  cluster features s = (Raise LinAlgError, s).
Proof.
  intros H. unfold cluster. rewrite bind_get.
  apply bind_lift_raise. apply mapM_linalg_det_not_square. exact H.
Qed.

Lemma cluster_not_square_witness :
  cluster [] (init [[0]] [[[1; 2]]] [1] default_epsilon)
  = (Raise LinAlgError, init [[0]] [[[1; 2]]] [1] default_epsilon).
Proof.
  apply (cluster_not_square [] (init [[0]] [[[1; 2]]] [1] default_epsilon)).
  constructor. reflexivity.
Defined.

(** X8: with square covariances, [cluster] returns the empty partition for
    a feature matrix without rows; with no component at all it raises
    [ValueError] for every other feature matrix, [np.argmin] being applied
    to an empty array of distances. *)
Theorem cluster_edge_cases (features : matrix) (s : GMM) :
  Forall (fun c => is_square c = true) (covariances s) ->
  cluster [] s = (Ok [], s)
  /\ (no_components s = 0%nat -> features <> [] ->
      cluster features s = (Raise ValueError, s)).
Proof.
  intros Hsq.
  assert (Hdet : mapM linalg_det (covariances s)
                 = Ok (map determinant (covariances s))).
  { apply mapM_ok_map. intros c Hin. apply linalg_det_ok.
    rewrite Forall_forall in Hsq. apply Hsq. exact Hin. }
  split.
  - unfold cluster. rewrite bind_get, (bind_lift_ok _ _ _ _ Hdet). reflexivity.
  - intros HK Hne. destruct features as [|x features]; [congruence|].
    unfold cluster. rewrite bind_get, (bind_lift_ok _ _ _ _ Hdet).
    cbn [mapS]. apply bind_raise.
    unfold assign. rewrite bind_get, HK. reflexivity.
Qed.

Lemma cluster_edge_cases_witness :
  cluster [] (init [] [] [] default_epsilon)
  = (Ok [], init [] [] [] default_epsilon)
  /\ cluster [[1]] (init [] [] [] default_epsilon)
     = (Raise ValueError, init [] [] [] default_epsilon).
Proof.
  destruct (cluster_edge_cases [[1]] (init [] [] [] default_epsilon)
              ltac:(constructor)) as [Hempty Hnone].
  split; [exact Hempty|].
  apply Hnone; [reflexivity | discriminate].
Defined.

(** ** What [cluster] reads *)

Lemma component_determined_ret {A : Type} (a : A) : component_determined (ret a).
Proof. intros s1 s2 _. reflexivity. Qed.

Lemma component_determined_lift {A : Type} (r : result A) :
  component_determined (lift r).
Proof. intros s1 s2 _. reflexivity. Qed.

Lemma component_determined_bind {A B : Type} (m : M A) (k : A -> M B) :
  read_only m -> component_determined m ->
  (forall a, component_determined (k a)) ->
  component_determined (bind m k).
Proof.
  intros Hro Hm Hk s1 s2 Hs. unfold bind.
  pose proof (Hm s1 s2 Hs) as Hfst.
  pose proof (Hro s1) as H1. pose proof (Hro s2) as H2.
  destruct (m s1) as [r1 t1], (m s2) as [r2 t2]. cbn [fst snd] in *. subst.
  destruct r2 as [a|e]; [apply Hk; exact Hs | reflexivity].
Qed.

Lemma component_determined_mapS {A B : Type} (f : A -> M B) (l : list A) :
  (forall a, read_only (f a)) -> (forall a, component_determined (f a)) ->
  component_determined (mapS f l).
Proof.
  intros Hro Hf. induction l as [|a l IH]; cbn [mapS].
  - apply component_determined_ret.
  - apply component_determined_bind; [apply Hro | apply Hf |]. intros b.
    apply component_determined_bind;
      [apply read_only_mapS; exact Hro | exact IH |].
    intros bs. apply component_determined_ret.
Qed.

Lemma component_determined_read_mean (j : nat) :
  component_determined (read_mean j).
Proof.
  intros s1 s2 [Hm _]. unfold read_mean, bind, get, lift. cbn [fst].
  rewrite Hm. reflexivity.
Qed.

Lemma component_determined_distance (dets : list R) (x : vector) (j : nat) :
  component_determined (distance dets x j).
Proof.
  unfold distance.
  apply component_determined_bind;
    [apply read_only_read_mean | apply component_determined_read_mean |].
  intros m1. apply component_determined_bind;
    [apply read_only_lift | apply component_determined_lift |].
  intros c1. apply component_determined_bind;
    [apply read_only_lift | apply component_determined_lift |].
  intros d. apply component_determined_bind;
    [apply read_only_read_mean | apply component_determined_read_mean |].
  intros m2. apply component_determined_bind;
    [apply read_only_lift | apply component_determined_lift |].
  intros c2. apply component_determined_lift.
Qed.

Lemma read_only_distance (dets : list R) (x : vector) (j : nat) :
  read_only (distance dets x j).
Proof. unfold distance. read_only_tac. Qed.

Lemma component_determined_assign (dets : list R) (x : vector) :
  component_determined (assign dets x).
Proof.
  intros s1 s2 Hs. unfold assign. rewrite !bind_get.
  destruct Hs as [Hm [Hc HK]]. rewrite HK.
  apply (component_determined_bind
           (mapS (distance dets x) (seq 0 (no_components s2)))
           (fun distances => lift (argmin distances))).
  - apply read_only_mapS. intros j. apply read_only_distance.
  - apply component_determined_mapS.
    + intros j. apply read_only_distance.
    + intros j. apply component_determined_distance.
  - intros d. apply component_determined_lift.
  - repeat split; assumption.
Qed.

Lemma component_determined_cluster (features : matrix) :
  component_determined (cluster features).
Proof.
  intros s1 s2 Hs. unfold cluster. rewrite !bind_get.
  pose proof Hs as [Hm [Hc HK]]. rewrite Hc.
  destruct (mapM linalg_det (covariances s2)) as [dets|e] eqn:Hdets.
  - rewrite !(bind_lift_ok _ _ _ dets eq_refl).
    apply component_determined_mapS;
      [|intros x; apply component_determined_assign | exact Hs].
    intros x. unfold assign. read_only_tac.
  - rewrite !(bind_lift_raise _ _ _ e eq_refl). reflexivity.
Qed.

(** X9: the partition (or the exception) [cluster] yields is determined by
    the means, the covariances and the component count: the mixing weights
    and the threshold play no part in the assignment. *)
Theorem cluster_ignores_mixing_probs (features : matrix) (s : GMM)
  (w : vector) (eps : R) :
  fst (cluster features
         (mkGMM (means s) (covariances s) w (no_components s) eps))
  = fst (cluster features s).
Proof.
  apply component_determined_cluster. repeat split.
Qed.

(** ** Determinants that are not positive in [cluster] *)

Lemma squared_euclidean_nonneg (x m : vector) : 0 <= squared_euclidean x m.
Proof.
  unfold squared_euclidean. apply rsum_nonneg. apply Forall_forall.
  intros a Hin. apply in_map_iff in Hin. destruct Hin as [k [<- _]].
  apply Rle_0_sqr.
Qed.

(** X10: when all covariances have the same negative determinant, the
    distances are negative multiples of the squared Euclidean distances
    and [cluster] sends every feature vector to the farthest mean, the one
    of lowest index among the farthest. *)
Theorem cluster_negative_determinants (K D : nat) (s : GMM) (features : matrix)
  (c : R) :
  component_shapes K D s -> (0 < K)%nat -> feature_matrix D features ->
  c < 0 -> (forall cov, In cov (covariances s) -> determinant cov = c) ->
  exists partition,
    cluster features s = (Ok partition, s)
    /\ length partition = length features
    /\ forall i x, nth_error features i = Some x ->
         exists p, nth_error partition i = Some p
           /\ (p < K)%nat
           /\ (forall j, (j < K)%nat ->
                 squared_euclidean x (nth j (means s) [])
                 <= squared_euclidean x (nth p (means s) []))
           /\ (forall j, (j < p)%nat ->
                 squared_euclidean x (nth j (means s) [])
                 < squared_euclidean x (nth p (means s) [])).
Proof.
  intros Hs HK Hf Hc Hdet.
  destruct (cluster_ok K D s features Hs HK Hf) as [partition [Hrun Hall]].
  destruct (Forall2_nth_error _ _ _ Hall) as [Hlen Hnth].
  exists partition. repeat split; auto.
  intros i x Hx. destruct (Hnth i x Hx) as [p [Hp [Hlt [Hle Hfirst]]]].
  rewrite length_map, length_seq in *.
  assert (Hscale : forall j, (j < K)%nat ->
            det_distance s x j = c * squared_euclidean x (nth j (means s) [])).
  { intros j Hj. rewrite det_distance_euclidean. f_equal.
    apply Hdet. apply nth_In. rewrite (cs_covariances _ _ _ Hs). exact Hj. }
  exists p. repeat split; auto.
  - intros j Hj. specialize (Hle j Hj).
    rewrite !nth_map_seq in Hle by lia.
    rewrite !Hscale in Hle by lia. nra.
  - intros j Hj. specialize (Hfirst j Hj).
    rewrite !nth_map_seq in Hfirst by lia.
    rewrite !Hscale in Hfirst by lia. nra.
Qed.

Lemma cluster_negative_determinants_witness :
  exists partition,
    cluster [[1]; [3]] negative_model = (Ok partition, negative_model)
    /\ length partition = length [[1]; [3]]
    /\ forall i x, nth_error [[1]; [3]] i = Some x ->
         exists p, nth_error partition i = Some p
           /\ (p < 2)%nat
           /\ (forall j, (j < 2)%nat ->
                 squared_euclidean x (nth j (means negative_model) [])
                 <= squared_euclidean x (nth p (means negative_model) []))
           /\ (forall j, (j < p)%nat ->
                 squared_euclidean x (nth j (means negative_model) [])
                 < squared_euclidean x (nth p (means negative_model) [])).
Proof.
  apply (cluster_negative_determinants 2 1 negative_model [[1]; [3]] (-1)).
  - constructor; try reflexivity; cbn; try lia; repeat constructor.
  - lia.
  - repeat constructor.
  - lra.
  - intros cov [<-|[<-|[]]]; apply determinant_1x1.
Defined.

(** X11: a singular covariance captures the points.  When no determinant
    is negative and the covariance of component [j] is singular, [cluster]
    gives every feature vector, wherever it lies, an index that is at most
    [j] and at distance 0. *)
Theorem cluster_singular_component (K D : nat) (s : GMM) (features : matrix)
  (j : nat) :
  component_shapes K D s -> feature_matrix D features ->
  (forall cov, In cov (covariances s) -> 0 <= determinant cov) ->
  (j < K)%nat -> determinant (nth j (covariances s) []) = 0 ->
  exists partition,
    cluster features s = (Ok partition, s)
    /\ length partition = length features
    /\ forall i x, nth_error features i = Some x ->
         exists p, nth_error partition i = Some p
           /\ (p <= j)%nat /\ det_distance s x p = 0.
Proof.
  intros Hs Hf Hdet Hj Hzero.
  destruct (cluster_ok K D s features Hs ltac:(lia) Hf)
    as [partition [Hrun Hall]].
  destruct (Forall2_nth_error _ _ _ Hall) as [Hlen Hnth].
  exists partition. repeat split; auto.
  intros i x Hx. destruct (Hnth i x Hx) as [p [Hp [Hlt [Hle Hfirst]]]].
  rewrite length_map, length_seq in *.
  assert (Hnonneg : forall k, (k < K)%nat -> 0 <= det_distance s x k).
  { intros k Hk. rewrite det_distance_euclidean. apply Rmult_le_pos.
    - apply Hdet. apply nth_In. rewrite (cs_covariances _ _ _ Hs). exact Hk.
    - apply squared_euclidean_nonneg. }
  assert (Hdj : det_distance s x j = 0)
    by (rewrite det_distance_euclidean, Hzero; ring).
  pose proof (Hle j Hj) as Hpj. rewrite !nth_map_seq in Hpj by lia.
  pose proof (Hnonneg p Hlt) as Hp0.
  exists p. split; [exact Hp|]. split; [|lra].
  destruct (Nat.le_gt_cases p j) as [Hok|Hgt]; [exact Hok|].
  specialize (Hfirst j Hgt). rewrite !nth_map_seq in Hfirst by lia. lra.
Qed.

Lemma cluster_singular_component_witness :
  exists partition,
    cluster [[1]; [3]] singular_model = (Ok partition, singular_model)
    /\ length partition = length [[1]; [3]]
    /\ forall i x, nth_error [[1]; [3]] i = Some x ->
         exists p, nth_error partition i = Some p
           /\ (p <= 1)%nat /\ det_distance singular_model x p = 0.
Proof.
  apply (cluster_singular_component 2 1 singular_model [[1]; [3]] 1).
  - constructor; try reflexivity; cbn; try lia; repeat constructor.
  - repeat constructor.
  - intros cov [<-|[<-|[]]]; rewrite determinant_1x1; lra.
  - lia.
  - cbn [singular_model init covariances nth]. apply determinant_1x1.
Defined.

(** ** Moments after an M-step *)

(** What an E-step followed by an M-step does, with the responsibilities
    it went through. *)
Lemma em_update_responsibilities (K D : nat) (features : matrix) (s s' : GMM)
  (ll : R) :
  well_shaped K D s -> feature_matrix D features -> features <> [] ->
  (0 < D)%nat ->
  log_likelihood features s = (Ok ll, s) ->
  em_update features s = (Ok tt, s') ->
  exists r,
    stochastic K (length features) r
    /\ (nonnegative (mixing_probs s) -> Forall nonnegative r)
    /\ (forall j, (j < K)%nat -> effective_count r j <> 0)
    /\ s' = updated_components features r D (seq 0 K) s.
Proof.
  intros Hs Hf Hne HD Hll Hem.
  destruct (em_update_ok_inv K D features s s' ll Hs Hf Hne HD Hll Hem)
    as [nd [Hlen [Hdm [Hmix [HN Hs']]]]].
  pose proof (ws_mixing_probs _ _ _ Hs) as Hw.
  exists (map (responsibility_row (mixing_probs s) K) nd).
  unfold density_matrix in Hdm. rewrite Forall_forall in Hdm, Hmix.
  split; [|split; [|split; assumption]].
  - constructor.
    + rewrite length_map. exact Hlen.
    + apply (responsibilities_rect K (mixing_probs s) nd).
    + apply Forall_forall. intros row Hin. apply in_map_iff in Hin.
      destruct Hin as [d [<- Hin]].
      apply responsibility_row_sum; auto.
      * apply Hdm. exact Hin.
      * pose proof (Hmix d Hin). lra.
  - intros Hpos. apply Forall_forall. intros row Hin.
    apply in_map_iff in Hin. destruct Hin as [d [<- Hin]].
    destruct (Hdm d Hin) as [Hdl Hdp].
    apply responsibility_row_nonneg; auto.
Qed.

Lemma rsum_as_seq (l : list R) :
  rsum l = rsum (map (fun i => nth i l 0) (seq 0 (length l))).
Proof.
  rewrite <- list_as_map_seq. reflexivity.
Qed.

Lemma rsum_map_as_seq {A : Type} (f : A -> R) (d : A) (l : list A) :
  rsum (map f l) = rsum (map (fun i => f (nth i l d)) (seq 0 (length l))).
Proof.
  rewrite (list_as_map_seq d l) at 1. rewrite map_map. reflexivity.
Qed.

Lemma effective_count_as_seq (r : matrix) (j : nat) :
  effective_count r j
  = rsum (map (fun i => nth j (nth i r []) 0) (seq 0 (length r))).
Proof.
  unfold effective_count, column.
  apply (rsum_map_as_seq (fun row : vector => nth j row 0) []).
Qed.

Lemma stochastic_row_sum (K n : nat) (r : matrix) (i : nat) :
  stochastic K n r -> (i < n)%nat ->
  rsum (map (fun j => nth j (nth i r []) 0) (seq 0 K)) = 1.
Proof.
  intros [Hrows Hcols Hsums] Hi.
  rewrite Forall_forall in Hcols, Hsums.
  assert (Hin : In (nth i r []) r) by (apply nth_In; lia).
  rewrite <- (Hcols _ Hin), <- rsum_as_seq. apply Hsums. exact Hin.
Qed.

Section Moments.

Variables (K D : nat) (features r : matrix) (s : GMM).

Hypothesis Hshape : well_shaped K D s.
Hypothesis Hnonempty : features <> [].
Hypothesis Hstochastic : stochastic K (length features) r.
Hypothesis Hcounts : forall j, (j < K)%nat -> effective_count r j <> 0.

Let s' := updated_components features r D (seq 0 K) s.

Lemma updated_mean_entry (j a : nat) :
  (j < K)%nat -> (a < D)%nat ->
  nth a (nth j (means s') []) 0
  = rsum (map (fun i => nth j (nth i r []) 0 * nth a (nth i features []) 0)
              (seq 0 (length features)))
    / effective_count r j.
Proof.
  intros Hj Ha.
  destruct (updated_prefix_contents K D features r s K Hshape (le_n K) j Hj)
    as [Hdone _].
  destruct (Hdone Hj) as [Hmean _]. unfold s'. rewrite Hmean.
  unfold weighted_mean. rewrite nth_map_seq by exact Ha. reflexivity.
Qed.

Lemma updated_covariance_entry (j a b : nat) :
  (j < K)%nat -> (a < D)%nat -> (b < D)%nat ->
  nth b (nth a (nth j (covariances s') []) []) 0
  = rsum (map (fun i =>
                 nth j (nth i r []) 0
                 * (nth a (nth i features []) 0
                    - nth a (nth j (means s') []) 0)
                 * (nth b (nth i features []) 0
                    - nth b (nth j (means s') []) 0))
              (seq 0 (length features)))
    / effective_count r j.
Proof.
  intros Hj Ha Hb.
  destruct (updated_prefix_contents K D features r s K Hshape (le_n K) j Hj)
    as [Hdone _].
  destruct (Hdone Hj) as [_ [Hcov _]]. unfold s'. rewrite Hcov.
  unfold weighted_covariance.
  rewrite (nth_map_seq _ []) by exact Ha.
  rewrite nth_map_seq by exact Hb. reflexivity.
Qed.

Lemma updated_weight_entry (j : nat) :
  (j < K)%nat ->
  nth j (mixing_probs s') 0 = effective_count r j / INR (length features).
Proof.
  intros Hj.
  destruct (updated_prefix_contents K D features r s K Hshape (le_n K) j Hj)
    as [Hdone _].
  destruct (Hdone Hj) as [_ [_ Hw]]. exact Hw.
Qed.

(** The mean of the mixture is the mean of the data. *)
Lemma updated_mixture_mean (a : nat) :
  (a < D)%nat -> mixture_mean s' a = sample_mean features a.
Proof.
  intros Ha. unfold mixture_mean, sample_mean.
  pose proof (updated_components_well_shaped K D features r (seq 0 K) s Hshape)
    as Hw.
  fold s' in Hw. rewrite (ws_components _ _ _ Hw).
  assert (Hn : INR (length features) <> 0)
    by (apply INR_length_nonzero; exact Hnonempty).
  transitivity
    (rsum (map (fun j =>
                  rsum (map (fun i => nth j (nth i r []) 0
                                      * nth a (nth i features []) 0)
                            (seq 0 (length features)))
                  / INR (length features))
               (seq 0 K))).
  - apply rsum_seq_ext. intros j Hj.
    rewrite updated_weight_entry, updated_mean_entry by assumption.
    field. split; [exact Hn | apply Hcounts; exact Hj].
  - unfold Rdiv. rewrite rsum_map_mult_r. f_equal.
    rewrite <- (rsum_swap
                  (fun i j => nth j (nth i r []) 0 * nth a (nth i features []) 0)).
    rewrite (rsum_map_as_seq (fun x => nth a x 0) []).
    apply rsum_seq_ext. intros i Hi.
    rewrite rsum_map_mult_r, (stochastic_row_sum K (length features)) by auto.
    ring.
Qed.

End Moments.

(** X12: after every completed M-step of the loop of [fit], and so in the
    state [fit] returns after at least one M-step, the mean of the mixture
    Σ_j w_j · mean_j is the mean of the feature vectors. *)
Theorem mixture_mean_is_sample_mean (K D : nat) (features : matrix) (s : GMM) :
  well_shaped K D s -> feature_matrix D features -> features <> [] ->
  (0 < D)%nat ->
  (forall t, m_step_reaches features s t ->
     forall a, (a < D)%nat -> mixture_mean t a = sample_mean features a)
  /\ (forall fuel ll s1 s',
        iteration features 0 s = (Ok (Some ll), s1) ->
        fit (S fuel) features s = Some (Ok tt, s') ->
        forall a, (a < D)%nat -> mixture_mean s' a = sample_mean features a).
Proof.
  intros Hs Hf Hne HD.
  assert (Hstep : forall t ll t1,
             well_shaped K D t ->
             log_likelihood features t = (Ok ll, t) ->
             em_update features t = (Ok tt, t1) ->
             well_shaped K D t1
             /\ forall a, (a < D)%nat ->
                  mixture_mean t1 a = sample_mean features a).
  { intros t ll t1 Ht Hll Hem.
    destruct (em_update_responsibilities K D features t t1 ll
                Ht Hf Hne HD Hll Hem) as [r [Hst [_ [HN ->]]]].
    split; [apply updated_components_well_shaped; exact Ht|].
    intros a Ha. apply updated_mixture_mean; assumption. }
  split.
  - intros t Hreach.
    apply (m_step_reaches_establishes features _ _ Hstep
             (fun t H => proj1 H) s t Hreach Hs).
  - intros fuel ll s1 s' Hit Hfit.
    apply (fit_establishes features _ _ Hstep
             (fun t H => proj1 H) fuel ll s s1 s' Hs Hit Hfit).
Qed.

Lemma mixture_mean_is_sample_mean_witness :
  exists s',
    fit 2 pair_features fixed_model = Some (Ok tt, s')
    /\ forall a, (a < 1)%nat -> mixture_mean s' a = sample_mean pair_features a.
Proof.
  destruct (mixture_mean_is_sample_mean 1 1 pair_features fixed_model
              fixed_model_well_shaped ltac:(repeat constructor)
              ltac:(discriminate) ltac:(lia)) as [_ Hfit].
  destruct fit_example as [ll [Hit Hrun]].
  exists fixed_model. split; [exact Hrun|].
  apply (Hfit 1%nat ll fixed_model fixed_model Hit Hrun).
Defined.

Lemma weighted_sum_bounds {A : Type} (g h : A -> R) (lo hi : R) (l : list A) :
  (forall i, In i l -> 0 <= g i /\ lo <= h i <= hi) ->
  lo * rsum (map g l) <= rsum (map (fun i => g i * h i) l)
  /\ rsum (map (fun i => g i * h i) l) <= hi * rsum (map g l).
Proof.
  induction l as [|i l IH]; intros H; cbn [map rsum fold_right].
  - lra.
  - destruct (H i (or_introl eq_refl)) as [Hg Hh].
    destruct (IH (fun i' Hin => H i' (or_intror Hin))) as [IHlo IHhi].
    fold (rsum (map g l)) in *.
    fold (rsum (map (fun i => g i * h i) l)) in *.
    split; nra.
Qed.

Lemma rsum_product {A B : Type} (f : A -> R) (g : B -> R) (la : list A)
  (lb : list B) :
  rsum (map f la) * rsum (map g lb)
  = rsum (map (fun a => rsum (map (fun b => f a * g b) lb)) la).
Proof.
  rewrite <- rsum_map_mult_r. apply rsum_map_ext. intros a _.
  rewrite rsum_map_mult_l. reflexivity.
Qed.

Section NonnegativeResponsibilities.

Variables (K D : nat) (features r : matrix) (s : GMM).

Hypothesis Hshape : well_shaped K D s.
Hypothesis Hnonempty : features <> [].
Hypothesis Hstochastic : stochastic K (length features) r.
Hypothesis Hcounts : forall j, (j < K)%nat -> effective_count r j <> 0.
Hypothesis Hnonneg : Forall nonnegative r.

Let s' := updated_components features r D (seq 0 K) s.

Lemma responsibility_entry_nonneg (i j : nat) : 0 <= nth j (nth i r []) 0.
Proof.
  destruct (Nat.lt_ge_cases i (length r)) as [Hi|Hi].
  - rewrite Forall_forall in Hnonneg.
    pose proof (Hnonneg (nth i r []) (nth_In _ _ Hi)) as Hrow.
    unfold nonnegative in Hrow. rewrite Forall_forall in Hrow.
    destruct (Nat.lt_ge_cases j (length (nth i r []))) as [Hj|Hj].
    + apply Hrow. apply nth_In. exact Hj.
    + rewrite nth_overflow by exact Hj. lra.
  - rewrite (nth_overflow r) by exact Hi. destruct j; simpl; lra.
Qed.

Lemma effective_count_pos (j : nat) : (j < K)%nat -> 0 < effective_count r j.
Proof.
  intros Hj. pose proof (Hcounts j Hj) as Hne.
  assert (0 <= effective_count r j).
  { rewrite effective_count_as_seq. apply rsum_nonneg. apply Forall_forall.
    intros a Hin. apply in_map_iff in Hin. destruct Hin as [i [<- _]].
    apply responsibility_entry_nonneg. }
  lra.
Qed.

(** A new mean lies between the bounds of the data, coordinate by
    coordinate. *)
Lemma updated_mean_bounds (j a : nat) (lo hi : R) :
  (j < K)%nat -> (a < D)%nat ->
  (forall x, In x features -> lo <= nth a x 0 <= hi) ->
  lo <= nth a (nth j (means s') []) 0 <= hi.
Proof.
  intros Hj Ha Hbox. unfold s'.
  rewrite (updated_mean_entry K D features r s Hshape j a Hj Ha).
  pose proof (effective_count_pos j Hj) as HN.
  destruct (weighted_sum_bounds
              (fun i => nth j (nth i r []) 0)
              (fun i => nth a (nth i features []) 0)
              lo hi (seq 0 (length features))) as [Hlo Hhi].
  { intros i Hin. apply in_seq in Hin. split.
    - apply responsibility_entry_nonneg.
    - apply Hbox. apply nth_In. lia. }
  rewrite <- (st_rows _ _ _ Hstochastic), <- effective_count_as_seq in Hlo, Hhi.
  rewrite (st_rows _ _ _ Hstochastic) in Hlo, Hhi.
  split.
  - apply (Rmult_le_reg_r (effective_count r j)); [exact HN|].
    unfold Rdiv. rewrite Rmult_assoc, Rinv_l by lra. lra.
  - apply (Rmult_le_reg_r (effective_count r j)); [exact HN|].
    unfold Rdiv. rewrite Rmult_assoc, Rinv_l by lra. lra.
Qed.

(** The quadratic form of a new covariance is a weighted sum of squares. *)
Lemma updated_covariance_quadratic_form (j : nat) (v : vector) :
  (j < K)%nat -> length v = D ->
  quadratic_form v (nth j (covariances s') [])
  = rsum (map (fun i =>
                 nth j (nth i r []) 0
                 * Rsqr (rsum (map (fun a =>
                                      nth a v 0
                                      * (nth a (nth i features []) 0
                                         - nth a (nth j (means s') []) 0))
                                   (seq 0 D))))
              (seq 0 (length features)))
    / effective_count r j.
Proof.
  intros Hj Hv. unfold quadratic_form. rewrite Hv.
  set (mu := nth j (means s') []).
  set (d := fun i a => nth a (nth i features []) 0 - nth a mu 0).
  set (N := effective_count r j).
  transitivity
    (rsum (map (fun a =>
                  rsum (map (fun b =>
                               rsum (map (fun i =>
                                            nth j (nth i r []) 0
                                            * (nth a v 0 * d i a)
                                            * (nth b v 0 * d i b) * / N)
                                         (seq 0 (length features))))
                            (seq 0 D)))
               (seq 0 D))).
  - apply rsum_seq_ext. intros a Ha. apply rsum_seq_ext. intros b Hb.
    unfold s'.
    rewrite (updated_covariance_entry K D features r s Hshape j a b Hj Ha Hb).
    fold s'. fold mu. fold N. unfold Rdiv.
    rewrite <- rsum_map_mult_r, <- rsum_map_mult_l, <- rsum_map_mult_r.
    apply rsum_seq_ext. intros i _. unfold d. ring.
  - unfold Rdiv. rewrite <- rsum_map_mult_r.
    rewrite (rsum_map_ext _
               (fun a =>
                  rsum (map (fun i =>
                               rsum (map (fun b =>
                                            nth j (nth i r []) 0
                                            * (nth a v 0 * d i a)
                                            * (nth b v 0 * d i b) * / N)
                                         (seq 0 D)))
                            (seq 0 (length features)))))
      by (intros a _; apply rsum_swap).
    rewrite (rsum_swap
               (fun a i =>
                  rsum (map (fun b =>
                               nth j (nth i r []) 0
                               * (nth a v 0 * d i a)
                               * (nth b v 0 * d i b) * / N)
                            (seq 0 D)))).
    apply rsum_seq_ext. intros i _.
    transitivity
      (nth j (nth i r []) 0 * / N
       * (rsum (map (fun a => nth a v 0 * d i a) (seq 0 D))
          * rsum (map (fun b => nth b v 0 * d i b) (seq 0 D))));
      [|unfold Rsqr, d; ring].
    rewrite (rsum_product (fun a => nth a v 0 * d i a)
               (fun b => nth b v 0 * d i b)).
    rewrite <- rsum_map_mult_l. apply rsum_seq_ext. intros a _.
    rewrite <- rsum_map_mult_l. apply rsum_seq_ext. intros b _. ring.
Qed.

Lemma updated_covariance_psd (j : nat) (v : vector) :
  (j < K)%nat -> length v = D ->
  0 <= quadratic_form v (nth j (covariances s') []).
Proof.
  intros Hj Hv. rewrite (updated_covariance_quadratic_form j v Hj Hv).
  pose proof (effective_count_pos j Hj) as HN.
  apply Rmult_le_pos; [|left; apply Rinv_0_lt_compat; exact HN].
  apply rsum_nonneg. apply Forall_forall. intros t Hin.
  apply in_map_iff in Hin. destruct Hin as [i [<- _]].
  apply Rmult_le_pos; [apply responsibility_entry_nonneg | apply Rle_0_sqr].
Qed.

End NonnegativeResponsibilities.

(** A property of the state that an E-step and M-step on non-negative
    mixing weights establish holds after every M-step and when [fit]
    returns after at least one. *)
Lemma after_m_step_on_nonnegative (K D : nat) (features : matrix) (s : GMM)
  (P : GMM -> Prop) :
  well_shaped K D s -> feature_matrix D features -> features <> [] ->
  (0 < D)%nat -> nonnegative (mixing_probs s) ->
  (forall t r,
      well_shaped K D t ->
      stochastic K (length features) r ->
      (forall j, (j < K)%nat -> effective_count r j <> 0) ->
      Forall nonnegative r ->
      P (updated_components features r D (seq 0 K) t)) ->
  (forall t, m_step_reaches features s t -> P t)
  /\ (forall fuel ll s1 s',
        iteration features 0 s = (Ok (Some ll), s1) ->
        fit (S fuel) features s = Some (Ok tt, s') -> P s').
Proof.
  intros Hs Hf Hne HD Hpos HP.
  assert (Hstep : forall t ll t1,
             well_shaped K D t /\ nonnegative (mixing_probs t) ->
             log_likelihood features t = (Ok ll, t) ->
             em_update features t = (Ok tt, t1) ->
             (well_shaped K D t1 /\ nonnegative (mixing_probs t1)) /\ P t1).
  { intros t ll t1 [Ht Hnn] Hll Hem.
    destruct (em_update_mixing_probs K D features t t1 ll Ht Hf Hne HD Hll Hem)
      as [Hw [_ Hnorm]].
    destruct (em_update_responsibilities K D features t t1 ll
                Ht Hf Hne HD Hll Hem) as [r [Hst [Hr [HN Heq]]]].
    split; [split; [exact Hw | apply normalised_nonnegative; auto]|].
    rewrite Heq. apply HP; auto. }
  split.
  - intros t Hreach.
    apply (m_step_reaches_establishes features _ _ Hstep
             (fun t H => proj1 H) s t Hreach (conj Hs Hpos)).
  - intros fuel ll s1 s' Hit Hfit.
    apply (fit_establishes features _ _ Hstep
             (fun t H => proj1 H) fuel ll s s1 s' (conj Hs Hpos) Hit Hfit).
Qed.

(** X13: the means stay inside the bounding box of the data.  When
    coordinate [a] of every feature vector lies between [lo] and [hi] and
    the mixing weights are non-negative, then after every completed M-step
    of the loop of [fit], and in the state [fit] returns after at least one
    M-step, coordinate [a] of every mean lies between [lo] and [hi]. *)
Theorem means_stay_in_bounding_box (K D : nat) (features : matrix) (s : GMM)
  (a : nat) (lo hi : R) :
  well_shaped K D s -> feature_matrix D features -> features <> [] ->
  (0 < D)%nat -> nonnegative (mixing_probs s) ->
  (a < D)%nat ->
  (forall x, In x features -> lo <= nth a x 0 <= hi) ->
  (forall t, m_step_reaches features s t ->
     forall j, (j < K)%nat -> lo <= nth a (nth j (means t) []) 0 <= hi)
  /\ (forall fuel ll s1 s',
        iteration features 0 s = (Ok (Some ll), s1) ->
        fit (S fuel) features s = Some (Ok tt, s') ->
        forall j, (j < K)%nat -> lo <= nth a (nth j (means s') []) 0 <= hi).
Proof.
  intros Hs Hf Hne HD Hpos Ha Hbox.
  apply (after_m_step_on_nonnegative K D features s
           (fun t => forall j, (j < K)%nat ->
                       lo <= nth a (nth j (means t) []) 0 <= hi));
    auto.
  intros t r Ht Hst HN Hr j Hj.
  apply (updated_mean_bounds K D features r t); auto.
Qed.

Lemma means_stay_in_bounding_box_witness :
  exists s',
    fit 2 pair_features fixed_model = Some (Ok tt, s')
    /\ forall j, (j < 1)%nat -> -1 <= nth 0 (nth j (means s') []) 0 <= 1.
Proof.
  destruct (means_stay_in_bounding_box 1 1 pair_features fixed_model 0 (-1) 1
              fixed_model_well_shaped ltac:(repeat constructor)
              ltac:(discriminate) ltac:(lia) ltac:(repeat constructor; lra)
              ltac:(lia)
              ltac:(intros x [<-|[<-|[]]]; cbn; lra)) as [_ Hfit].
  destruct fit_example as [ll [Hit Hrun]].
  exists fixed_model. split; [exact Hrun|].
  apply (Hfit 1%nat ll fixed_model fixed_model Hit Hrun).
Defined.

(** X14: with non-negative mixing weights every covariance matrix is
    positive semi-definite after every completed M-step of the loop of
    [fit], and in the state [fit] returns after at least one M-step:
    vᵀ · Σ_j · v >= 0 for every vector [v] of dimension D. *)
Theorem covariances_positive_semidefinite (K D : nat) (features : matrix)
  (s : GMM) :
  well_shaped K D s -> feature_matrix D features -> features <> [] ->
  (0 < D)%nat -> nonnegative (mixing_probs s) ->
  (forall t, m_step_reaches features s t ->
     forall j v, (j < K)%nat -> length v = D ->
       0 <= quadratic_form v (nth j (covariances t) []))
  /\ (forall fuel ll s1 s',
        iteration features 0 s = (Ok (Some ll), s1) ->
        fit (S fuel) features s = Some (Ok tt, s') ->
        forall j v, (j < K)%nat -> length v = D ->
          0 <= quadratic_form v (nth j (covariances s') [])).
Proof.
  intros Hs Hf Hne HD Hpos.
  apply (after_m_step_on_nonnegative K D features s
           (fun t => forall j v, (j < K)%nat -> length v = D ->
                       0 <= quadratic_form v (nth j (covariances t) [])));
    auto.
  intros t r Ht Hst HN Hr j v Hj Hv.
  apply (updated_covariance_psd K D features r t); auto.
Qed.

Lemma covariances_positive_semidefinite_witness :
  exists s',
    fit 2 pair_features fixed_model = Some (Ok tt, s')
    /\ forall j v, (j < 1)%nat -> length v = 1%nat ->
         0 <= quadratic_form v (nth j (covariances s') []).
Proof.
  destruct (covariances_positive_semidefinite 1 1 pair_features fixed_model
              fixed_model_well_shaped ltac:(repeat constructor)
              ltac:(discriminate) ltac:(lia) ltac:(repeat constructor; lra))
    as [_ Hfit].
  destruct fit_example as [ll [Hit Hrun]].
  exists fixed_model. split; [exact Hrun|].
  apply (Hfit 1%nat ll fixed_model fixed_model Hit Hrun).
Defined.

(** ** Well-shaped input never fails by its shapes *)

Lemma pdf_shape_safe (self : GMM) (x mean : vector) (cov : matrix) (e : error) :
  length x = length cov -> length mean = length cov -> is_square cov = true ->
  multivariate_normal_pdf self x mean cov = Raise e -> numeric e.
Proof.
  intros Hx Hm Hsq. unfold multivariate_normal_pdf.
  rewrite vsub_ok by congruence. cbn [rbind].
  destruct (linalg_inv cov) as [b|e1] eqn:Hinv; cbn [rbind].
  2:{ intros H. inversion H; subst. left.
      unfold linalg_inv in Hinv. rewrite Hsq in Hinv.
      destruct (Req_dec_T (determinant cov) 0); inversion Hinv. reflexivity. }
  rewrite (linalg_det_ok cov Hsq). cbn [rbind].
  destruct (linalg_inv_shape _ _ Hinv) as [Hl [_ Hcols]].
  assert (Hc : length (zip_with Rminus x mean) = length cov)
    by (rewrite zip_with_length; lia).
  destruct (nested_dot_quadratic_form (zip_with Rminus x mean) b
              ltac:(rewrite Hl, Hc; reflexivity)
              ltac:(rewrite Hcols, Hc; reflexivity)) as [t [Ht Hq]].
  rewrite Ht. cbn [rbind]. rewrite Hq. cbn [rbind].
  unfold fsqrt. destruct (Rlt_dec _ 0); cbn [rbind].
  - intros H. inversion H. right. reflexivity.
  - unfold fdiv. destruct (Req_dec_T _ 0); intros H; inversion H.
    right. reflexivity.
Qed.

Lemma mapS_shape_safe {A B : Type} (f : A -> M B) (l : list A) (s : GMM) :
  (forall a, read_only (f a)) ->
  (forall a, In a l -> shape_safe (f a) s) ->
  shape_safe (mapS f l) s.
Proof.
  intros Hro. induction l as [|a l IH]; intros Hf e s' H.
  - cbn in H. discriminate.
  - cbn [mapS] in H. unfold bind at 1 in H.
    destruct (f a s) as [[b|e1] s1] eqn:Ha.
    + pose proof (read_only_result _ _ _ _ (Hro a) Ha). subst s1.
      unfold bind at 1 in H.
      destruct (mapS f l s) as [[bs|e2] s2] eqn:Hl.
      * cbn in H. discriminate.
      * inversion H; subst.
        eapply (IH (fun a' Hin => Hf a' (or_intror Hin))); eauto.
    + inversion H; subst. eapply (Hf a (or_introl eq_refl)); eauto.
Qed.

Lemma density_pass_shape_safe (K D : nat) (s : GMM) (features : matrix) :
  component_shapes K D s -> feature_matrix D features ->
  shape_safe (density_pass features) s.
Proof.
  intros Hs Hf. unfold density_pass.
  apply mapS_shape_safe.
  { intros x. unfold density_row. read_only_tac. }
  intros x Hx. unfold feature_matrix in Hf. rewrite Forall_forall in Hf.
  specialize (Hf x Hx).
  intros e s' H. unfold density_row in H. rewrite bind_get in H.
  rewrite (cs_components _ _ _ Hs) in H.
  revert e s' H. apply mapS_shape_safe; [intros j; read_only_tac|].
  intros j Hj e s' H. apply in_seq in Hj.
  pose proof (cs_means _ _ _ Hs) as Hml.
  pose proof (cs_covariances _ _ _ Hs) as Hcl.
  pose proof (cs_covariance_dim _ _ _ Hs) as Hcd.
  rewrite Forall_forall in Hcd.
  rewrite (bind_ok _ _ _ _ _ (read_mean_ok j s ltac:(lia))) in H.
  rewrite (bind_ok _ _ _ _ _ (read_covariance_ok j s ltac:(lia))) in H.
  unfold pdf in H. inversion H as [[Hpdf Hst]].
  destruct (Hcd (nth j (covariances s) []) ltac:(apply nth_In; lia))
    as [Hl Hr].
  eapply pdf_shape_safe; [| | |exact Hpdf].
  - congruence.
  - rewrite (component_mean_dim K D s j Hs ltac:(lia)). congruence.
  - unfold is_square. rewrite Hl. exact Hr.
Qed.

Lemma mapM_flog_raise (l : list R) (e : error) :
  mapM flog l = Raise e -> e = NonFinite.
Proof.
  induction l as [|a l IH]; cbn [mapM]; [discriminate|].
  unfold flog at 1. destruct (Rlt_dec 0 a); cbn [rbind].
  - destruct (mapM flog l) as [bs|e1]; cbn [rbind]; [discriminate|].
    intros H. inversion H; subst. apply IH. reflexivity.
  - intros H. inversion H. reflexivity.
Qed.

Lemma log_likelihood_shape_safe (K D : nat) (s : GMM) (features : matrix) :
  well_shaped K D s -> feature_matrix D features ->
  shape_safe (log_likelihood features) s.
Proof.
  intros Hs Hf e s' H. unfold log_likelihood in H. unfold bind at 1 in H.
  destruct (density_pass features s) as [[nd|e1] s1] eqn:Hnd.
  2:{ inversion H; subst.
      eapply (density_pass_shape_safe K D s features
                (well_shaped_components K D s Hs) Hf); eauto. }
  destruct (density_pass_inv _ _ _ _ Hnd) as [-> [Hlen Hdm]].
  rewrite (ws_components _ _ _ Hs) in Hdm.
  unfold estimate_log_likelihood in H. rewrite bind_get in H.
  rewrite (bind_lift_ok _ _ _ (map (mixture (mixing_probs s)) nd)) in H.
  2:{ apply mapM_ok_map. intros row Hin. apply dot_ok.
      unfold density_matrix in Hdm. rewrite Forall_forall in Hdm.
      destruct (Hdm row Hin) as [Hrow _].
      rewrite Hrow. apply (ws_mixing_probs _ _ _ Hs). }
  unfold bind at 1, lift at 1 in H.
  destruct (mapM flog (map (mixture (mixing_probs s)) nd)) as [logs|e1] eqn:Hlog.
  - unfold lift in H.
    rewrite dot_ok in H; [discriminate|].
    rewrite repeat_length, (mapM_ok_length _ _ _ Hlog), length_map. exact Hlen.
  - inversion H; subst. right. eapply mapM_flog_raise; eauto.
Qed.

Lemma for_each_m_step_shape_safe (K D : nat) (features r : matrix)
  (js : list nat) (s : GMM) :
  well_shaped K D s -> feature_matrix D features -> features <> [] ->
  length r = length features -> (0 < D)%nat ->
  (forall j, In j js -> (j < K)%nat) ->
  shape_safe (for_each js (m_step_component (length features) features r)) s.
Proof.
  intros Hs Hf Hne Hr HD. revert s Hs.
  induction js as [|j js IH]; intros s Hs Hjs e s' H.
  - cbn in H. discriminate.
  - pose proof (Hjs j (or_introl eq_refl)) as Hj. cbn [for_each] in H.
    destruct (Req_dec_T (effective_count r j) 0) as [HN|HN].
    + rewrite (bind_raise _ _ _ _ _
                 (m_step_component_zero_count K D features r j s
                    Hs Hf Hne Hr Hj HD HN)) in H.
      inversion H. right. reflexivity.
    + rewrite (bind_ok _ _ _ _ _
                 (m_step_component_ok K D features r j s Hs Hf Hne Hr Hj HN))
        in H.
      eapply (IH _ (updated_component_well_shaped K D features r j s Hs)
                (fun j' Hin => Hjs j' (or_intror Hin))); eauto.
Qed.

Lemma iteration_shape_safe (K D : nat) (features : matrix) (old : R) (s : GMM) :
  well_shaped K D s -> feature_matrix D features -> features <> [] ->
  (0 < D)%nat ->
  shape_safe (iteration features old) s.
Proof.
  intros Hs Hf Hne HD e s' H.
  destruct (log_likelihood features s) as [[ll|e1] s1] eqn:Hll.
  2:{ rewrite (iteration_raise _ _ _ _ _ Hll) in H.
      injection H as He _. rewrite <- He.
      eapply (log_likelihood_shape_safe K D s features Hs Hf); eauto. }
  pose proof (read_only_result _ _ _ _
                (read_only_log_likelihood features) Hll). subst s1.
  destruct (Rlt_dec (Rabs (ll - old)) (epsilon s)) as [Hlt|Hge].
  { rewrite (iteration_stop _ _ _ _ _ Hll Hlt) in H. discriminate. }
  rewrite (iteration_continue _ _ _ _ _ Hll Hge) in H.
  destruct (em_update features s) as [[[]|e1] s1] eqn:Hem; [discriminate|].
  injection H as He _. rewrite <- He. clear He.
  destruct (log_likelihood_ok_inv _ _ _ _ Hll) as [_ [nd [Hnd Hest]]].
  destruct (density_pass_inv _ _ _ _ Hnd) as [_ [Hlen Hdm]].
  rewrite (ws_components _ _ _ Hs) in Hdm.
  apply estimate_log_likelihood_inv in Hest. destruct Hest as [_ [Hmix _]].
  unfold em_update in Hem. rewrite (bind_ok _ _ _ _ _ Hnd) in Hem.
  rewrite (bind_ok _ _ _ _ _
             (e_step_ok K nd s (ws_components _ _ _ Hs)
                (ws_mixing_probs _ _ _ Hs)
                ltac:(unfold density_matrix in Hdm; rewrite Forall_forall in *;
                      intros row Hin; split;
                      [apply Hdm; exact Hin
                      | pose proof (proj2 (Hmix row Hin)); lra]))) in Hem.
  unfold m_step in Hem. rewrite bind_get, (ws_components _ _ _ Hs) in Hem.
  apply (for_each_m_step_shape_safe K D features
           (map (responsibility_row (mixing_probs s) K) nd) (seq 0 K) s
           Hs Hf Hne ltac:(rewrite length_map; exact Hlen) HD
           ltac:(intros j Hin; apply in_seq in Hin; lia) e1 s1 Hem).
Qed.

Lemma iteration_well_shaped (K D : nat) (features : matrix) (old ll : R)
  (s s' : GMM) :
  well_shaped K D s -> feature_matrix D features -> features <> [] ->
  (0 < D)%nat ->
  iteration features old s = (Ok (Some ll), s') -> well_shaped K D s'.
Proof.
  intros Hs Hf Hne HD H.
  apply iteration_ok_inv in H. destruct H as [ll' [Hll [Hstop|Hgo]]].
  - destruct Hstop as [Hnone _]. discriminate.
  - destruct Hgo as [_ [_ Hem]].
    apply (em_update_mixing_probs K D features s s' ll' Hs Hf Hne HD Hll Hem).
Qed.

Lemma fit_loop_shape_safe (K D : nat) (features : matrix) (fuel : nat)
  (old : R) (s s' : GMM) (e : error) :
  well_shaped K D s -> feature_matrix D features -> features <> [] ->
  (0 < D)%nat ->
  fit_loop fuel features old s = Some (Raise e, s') -> numeric e.
Proof.
  intros Hs Hf Hne HD. revert old s Hs.
  induction fuel as [|fuel IH]; intros old s Hs H; [discriminate|].
  cbn [fit_loop] in H.
  destruct (iteration features old s) as [[[ll|]|e1] s1] eqn:Hit.
  - eapply IH; [|exact H].
    eapply iteration_well_shaped; eauto.
  - discriminate.
  - inversion H; subst.
    eapply (iteration_shape_safe K D features old s Hs Hf Hne HD); eauto.
Qed.

(** X15: on well-shaped parameters and at least one feature vector, [fit]
    cannot fail by its shapes: whenever it raises, the exception is
    [LinAlgError] or a non-finite value, never [ValueError] or
    [IndexError]. *)
Theorem fit_fails_by_arithmetic_only (K D : nat) (features : matrix) (s : GMM) :
  well_shaped K D s -> feature_matrix D features -> features <> [] ->
  (0 < D)%nat ->
  forall fuel e s',
    fit fuel features s = Some (Raise e, s') ->
    e = LinAlgError \/ e = NonFinite.
Proof.
  intros Hs Hf Hne HD fuel e s' H.
  eapply (fit_loop_shape_safe K D features fuel 0 s s' e); eauto.
Qed.

Lemma singular_model_well_shaped : well_shaped 2 1 singular_model.
Proof.
  constructor; try reflexivity; cbn; try lia; repeat constructor.
Qed.

Lemma fit_fails_by_arithmetic_only_witness :
  fit 1 [[1]] singular_model = Some (Raise LinAlgError, singular_model)
  /\ (LinAlgError = LinAlgError \/ LinAlgError = NonFinite).
Proof.
  assert (Hrun : fit 1 [[1]] singular_model
                 = Some (Raise LinAlgError, singular_model)).
  { unfold fit. cbn [fit_loop].
    rewrite (iteration_singular 2 1 singular_model [[1]] 1 0
               (well_shaped_components 2 1 singular_model
                  singular_model_well_shaped)
               ltac:(repeat constructor) ltac:(discriminate) ltac:(lia)).
    - reflexivity.
    - cbn [singular_model init covariances nth]. apply determinant_1x1.
    - intros i Hi. assert (i = 0%nat) by lia. subst i.
      cbn [singular_model init covariances nth]. rewrite determinant_1x1. lra. }
  split; [exact Hrun|].
  apply (fit_fails_by_arithmetic_only 2 1 [[1]] singular_model
           singular_model_well_shaped ltac:(repeat constructor)
           ltac:(discriminate) ltac:(lia) 1%nat LinAlgError singular_model Hrun).
Defined.

(** ** The state a successful [fit] leaves *)

Lemma pdf_ok_determinant_pos (self : GMM) (x mean : vector) (cov : matrix)
  (v : R) :
  multivariate_normal_pdf self x mean cov = Ok v -> 0 < determinant cov.
Proof.
  unfold multivariate_normal_pdf.
  destruct (vsub x mean) as [c|]; cbn [rbind]; [|discriminate].
  unfold linalg_inv, linalg_det.
  destruct (is_square cov); cbn [rbind]; [|discriminate].
  destruct (Req_dec_T (determinant cov) 0) as [|Hne]; cbn [rbind];
    [discriminate|].
  destruct (dot_vm c (inverse cov)) as [t|]; cbn [rbind]; [|discriminate].
  destruct (dot t c) as [q|]; cbn [rbind]; [|discriminate].
  unfold fsqrt. destruct (Rlt_dec _ 0) as [|Hge]; cbn [rbind]; [discriminate|].
  intros _. pose proof (two_pi_pow_pos (no_components self)). nra.
Qed.

Lemma log_likelihood_ok_determinants (features : matrix) (s s' : GMM) (ll : R) :
  features <> [] ->
  log_likelihood features s = (Ok ll, s') ->
  forall j, (j < no_components s)%nat ->
    0 < determinant (nth j (covariances s) []).
Proof.
  intros Hne Hll j Hj.
  apply log_likelihood_ok_inv in Hll. destruct Hll as [_ [nd [Hnd _]]].
  destruct features as [|x features]; [congruence|].
  unfold density_pass in Hnd. cbn [mapS] in Hnd.
  apply bind_ok_inv in Hnd. destruct Hnd as [row [s1 [Hrow _]]].
  unfold density_row in Hrow. rewrite bind_get in Hrow.
  apply mapS_read_only_inv in Hrow; [|intros i; read_only_tac].
  destruct Hrow as [_ HF].
  destruct (Forall2_nth_error _ _ _ HF) as [_ Hnth].
  destruct (Hnth j j) as [d [_ Hd]].
  { rewrite nth_error_nth' with (d := 0%nat) by (rewrite length_seq; exact Hj).
    rewrite seq_nth by exact Hj. reflexivity. }
  apply bind_ok_inv in Hd. destruct Hd as [m [s2 [Hm Hd]]].
  pose proof (read_only_result _ _ _ _ (read_only_read_mean j) Hm). subst s2.
  apply bind_ok_inv in Hd. destruct Hd as [c [s3 [Hc Hd]]].
  pose proof (read_only_result _ _ _ _ (read_only_read_covariance j) Hc).
  subst s3.
  unfold read_covariance in Hc. rewrite bind_get in Hc.
  apply lift_ok_inv in Hc. destruct Hc as [Hc _].
  apply index_ok_inv in Hc.
  rewrite (nth_error_nth _ _ ([] : matrix) Hc).
  unfold pdf in Hd. injection Hd as Hd.
  eapply pdf_ok_determinant_pos; eauto.
Qed.

(** X16: when [fit] returns from a non-empty feature matrix, the
    covariance of every component has a positive determinant: the
    parameters it hands back are ones whose log-likelihood it could
    compute. *)
Theorem fit_returns_positive_determinants (features : matrix) (fuel : nat)
  (s s' : GMM) :
  features <> [] ->
  fit fuel features s = Some (Ok tt, s') ->
  forall j, (j < no_components s')%nat ->
    0 < determinant (nth j (covariances s') []).
Proof.
  intros Hne Hfit. apply fit_loop_run in Hfit. apply fit_run_final in Hfit.
  destruct Hfit as [previous [ll [Hll _]]].
  eapply log_likelihood_ok_determinants; eauto.
Qed.

Lemma fit_returns_positive_determinants_witness :
  0 < determinant (nth 0 (covariances fixed_model) []).
Proof.
  destruct fit_example as [ll [_ Hrun]].
  apply (fit_returns_positive_determinants pair_features 2 fixed_model
           fixed_model ltac:(discriminate) Hrun 0%nat).
  cbn. lia.
Defined.

Lemma fit_run_well_shaped (K D : nat) (features : matrix) (old : R)
  (s s' : GMM) :
  well_shaped K D s -> feature_matrix D features -> features <> [] ->
  (0 < D)%nat ->
  fit_run features old s s' -> well_shaped K D s'.
Proof.
  intros Hs Hf Hne HD Hrun.
  apply (fit_run_preserves features (well_shaped K D)) with (old := old) (s := s);
    auto.
  intros t ll t1 Ht Hll Hem.
  apply (em_update_mixing_probs K D features t t1 ll Ht Hf Hne HD Hll Hem).
Qed.

Lemma log_likelihood_ok_components (K D : nat) (features : matrix) (s s' : GMM)
  (ll : R) :
  well_shaped K D s -> features <> [] ->
  log_likelihood features s = (Ok ll, s') -> (0 < K)%nat.
Proof.
  intros Hs Hne Hll.
  apply log_likelihood_ok_inv in Hll. destruct Hll as [_ [nd [Hnd Hest]]].
  destruct (density_pass_inv _ _ _ _ Hnd) as [_ [Hlen _]].
  apply estimate_log_likelihood_inv in Hest. destruct Hest as [_ [Hmix _]].
  destruct nd as [|row nd].
  { simpl in Hlen. exfalso. apply Hne. apply length_zero_iff_nil. lia. }
  inversion Hmix as [|r0 n0 [Hrow Hpos] _]; subst.
  pose proof (ws_mixing_probs _ _ _ Hs) as Hw.
  destruct (mixing_probs s) as [|w ws]; [|simpl in Hw; lia].
  unfold mixture in Hpos. cbn in Hpos. lra.
Qed.

(** X17: [cluster] can follow [fit].  When [fit] returns from well-shaped
    parameters and a non-empty feature matrix, [cluster] succeeds in the
    state it leaves on every matrix of feature vectors of the same
    dimension, the fitted one or another, and labels each with an index
    below K. *)
Theorem cluster_after_fit (K D : nat) (features data : matrix) (fuel : nat)
  (s s' : GMM) :
  well_shaped K D s -> feature_matrix D features -> features <> [] ->
  (0 < D)%nat ->
  fit fuel features s = Some (Ok tt, s') ->
  feature_matrix D data ->
  exists partition,
    cluster data s' = (Ok partition, s')
    /\ length partition = length data
    /\ Forall (fun p => (p < K)%nat) partition.
Proof.
  intros Hs Hf Hne HD Hfit Hdata.
  apply fit_loop_run in Hfit.
  pose proof (fit_run_well_shaped K D features 0 s s' Hs Hf Hne HD Hfit) as Hs'.
  destruct (fit_run_final _ _ _ _ Hfit) as [previous [ll [Hll _]]].
  pose proof (log_likelihood_ok_components K D features s' s' ll Hs' Hne Hll)
    as HK.
  destruct (cluster_ok K D s' data (well_shaped_components K D s' Hs') HK Hdata)
    as [partition [Hrun Hall]].
  exists partition. split; [exact Hrun|]. split.
  - apply (Forall2_length_eq _ _ _ Hall).
  - eapply Forall2_Forall_r; [exact Hall|]. cbv beta.
    intros x p [Hp _]. rewrite length_map, length_seq in Hp. exact Hp.
Qed.

Lemma cluster_after_fit_witness :
  exists partition,
    cluster [[5]; [-7]; [0]] fixed_model = (Ok partition, fixed_model)
    /\ length partition = length [[5]; [-7]; [0]]
    /\ Forall (fun p => (p < 1)%nat) partition.
Proof.
  destruct fit_example as [ll [_ Hrun]].
  apply (cluster_after_fit 1 1 pair_features [[5]; [-7]; [0]] 2 fixed_model
           fixed_model fixed_model_well_shaped ltac:(repeat constructor)
           ltac:(discriminate) ltac:(lia) Hrun ltac:(repeat constructor)).
Defined.

(** ** [cluster] on a concatenation *)

Lemma mapS_app_read_only {A B : Type} (f : A -> M B) (l1 l2 : list A)
  (s : GMM) :
  (forall a, read_only (f a)) ->
  fst (mapS f (l1 ++ l2) s)
  = (b1 <-- fst (mapS f l1 s) ;;
     b2 <-- fst (mapS f l2 s) ;;
     Ok (b1 ++ b2))%result.
Proof.
  intros Hf. induction l1 as [|a l1 IH].
  - cbn. destruct (fst (mapS f l2 s)); reflexivity.
  - cbn [mapS app]. unfold bind at 1 3.
    pose proof (Hf a s) as Ha.
    destruct (f a s) as [[b|e] s1]; cbn [snd] in Ha; subst s1;
      [|reflexivity].
    unfold bind.
    pose proof (read_only_mapS f (l1 ++ l2) Hf s) as H12.
    pose proof (read_only_mapS f l1 Hf s) as H1.
    destruct (mapS f (l1 ++ l2) s) as [r12 s12].
    destruct (mapS f l1 s) as [r1 s1].
    cbn [fst snd] in *. subst s12 s1. rewrite IH.
    destruct r1 as [b1|e]; cbn [rbind fst ret]; [|reflexivity].
    destruct (fst (mapS f l2 s)) as [b2|e]; reflexivity.
Qed.

(** X18: [cluster] labels every feature vector on its own.  The outcome
    on a concatenation of two feature matrices is the concatenation of the
    two partitions when both calls succeed, and otherwise the exception of
    the first matrix, or else of the second: a data set can be clustered in
    batches. *)
Theorem cluster_concatenation (features1 features2 : matrix) (s : GMM) :
  fst (cluster (features1 ++ features2) s)
  = (partition1 <-- fst (cluster features1 s) ;;
     partition2 <-- fst (cluster features2 s) ;;
     Ok (partition1 ++ partition2))%result.
Proof.
  unfold cluster. rewrite !bind_get.
  destruct (mapM linalg_det (covariances s)) as [dets|e] eqn:Hdets.
  - rewrite !(bind_lift_ok _ _ _ dets eq_refl).
    apply mapS_app_read_only. intros x. unfold assign. read_only_tac.
  - rewrite !(bind_lift_raise _ _ _ e eq_refl). reflexivity.
Qed.

(** ** A component without weight *)




Section ZeroWeight.

Variables (K D : nat) (s : GMM) (features : matrix) (j : nat).

Hypothesis Hshape : well_shaped K D s.
Hypothesis Hdet : positive_determinants s.
Hypothesis Hfeatures : feature_matrix D features.
Hypothesis Hnonempty : features <> [].
Hypothesis Hweights : nonnegative (mixing_probs s).
Hypothesis Hj : (j < K)%nat.
Hypothesis Hzero : nth j (mixing_probs s) 0 = 0.
Hypothesis Hbefore : forall i, (i < j)%nat -> 0 < nth i (mixing_probs s) 0.
Hypothesis Hsome : exists i, (i < K)%nat /\ 0 < nth i (mixing_probs s) 0.

Let r : matrix :=
  map (responsibility_row (mixing_probs s) K) (densities s features).





End ZeroWeight.




